(** * Quantized pool loader (catboost/libs/quantized_pool/loader.cpp)

    A shallow embedding of the streaming loader of quantized pools:
    the chunk gatherer [GatherAndSortChunks], the sequential page evictor
    [TSequentialChunkEvictor], the column dispatcher [AddChunk] and the
    orchestrating constructor and [Do] method of [TCBQuantizedDataLoader].

    Conventions.
    - C++ integers are [Z]; [size_t]/[ui64] arithmetic is reduced by
      [wrap64], [ui32] casts by [wrap32].
    - Pointers into the mapped pool are their addresses ([Z], null is 0).
    - A [const TChunkDescription*] into the (immutable) pool is modelled by
      the description it points to.
    - Exceptions thrown through [CB_ENSURE]/[ythrow] are the [Throw] outcome;
      behaviour the language leaves undefined (an index outside a vector, a
      null pointer read) is the separate [Undefined] outcome.
    - Calls on the visitor and on the operating system are recorded, in
      order, in a trace of [Event]s. *)

From stdpp Require Import base numbers option list sorting gmap.
From Stdlib Require Import ZArith Lia.

Local Open Scope Z_scope.

(** ** Machine integers *)

Definition wrap64 (z : Z) : Z := z mod 2 ^ 64.
Definition wrap32 (z : Z) : Z := z mod 2 ^ 32.

(** [Max<ui32>()] *)
Definition MaxUi32 : Z := 2 ^ 32 - 1.

(** Pointer plus byte count, in a flat 64-bit address space. *)
Definition PtrAdd (p n : Z) : Z := wrap64 (p + n).

(** ** Column types

    [EColumn] is declared in column_description/column.h; its members are
    the case labels of the switch in [AddChunk]. *)

Inductive EColumn :=
| Num | Categ | Label | Auxiliary | Baseline | Weight | SampleId
| GroupId | GroupWeight | SubgroupId | Timestamp | Sparse | Prediction | Text.

Global Instance EColumn_eq_dec : EqDecision EColumn.
Proof. solve_decision. Defined.

(** ** Chunks *)

(** The flatbuffers byte vector of a chunk: [Quants()->data()] and
    [Quants()->size()].  The bytes themselves are never inspected by the
    loader (they are handed through as views), so only the range is kept. *)
Record TQuants := mkQuants { QuantsData : Z; QuantsSize : Z }.

Record TQuantizedFeatureChunk := mkChunk {
  BitsPerDocument : Z;
  Quants : TQuants
}.

Record TChunkDescription := mkChunkDescription {
  DocumentOffset : Z;
  Chunk : TQuantizedFeatureChunk
}.

Record TChunkRef := mkChunkRef {
  Description : TChunkDescription;
  ColumnIndex : Z;
  LocalIndex : Z
}.

Global Instance TQuants_eq_dec : EqDecision TQuants.
Proof. solve_decision. Defined.
Global Instance TQuantizedFeatureChunk_eq_dec : EqDecision TQuantizedFeatureChunk.
Proof. solve_decision. Defined.
Global Instance TChunkDescription_eq_dec : EqDecision TChunkDescription.
Proof. solve_decision. Defined.
Global Instance TChunkRef_eq_dec : EqDecision TChunkRef.
Proof. solve_decision. Defined.

(** [chunk.Description->Chunk->Quants()->data()] and [->size()] *)
Definition RefData (r : TChunkRef) : Z := QuantsData (Quants (Chunk (Description r))).
Definition RefSize (r : TChunkRef) : Z := QuantsSize (Quants (Chunk (Description r))).

(** ** Outcomes *)

Inductive TCatBoostException :=
| PoolIsEmpty
| TooManyObjects (limit : Z)
| PairsFilePathDoesNotExist
| GroupWeightsFilePathDoesNotExist
| BaselineFilePathDoesNotExist
| PoolShouldHaveAtLeastOneFactor
| AllFeaturesIgnored
| EvictorOrderViolated (Data Size data size : Z)
| ExpectedDispatchableColumn (columnType : EColumn) (columnIdx : Z)
| UnexpectedColumnType (columnType : EColumn)
| ExternalFailure (code : Z).

Inductive TUndefinedBehaviour :=
| NullDereference
| IndexOutOfRange.

Inductive Res (A : Type) :=
| Ok (a : A)
| Throw (e : TCatBoostException)
| Undefined (u : TUndefinedBehaviour).
Arguments Ok {A} a.
Arguments Throw {A} e.
Arguments Undefined {A} u.

Definition IsOk {A} (r : Res A) : bool :=
  match r with Ok _ => true | _ => false end.

(** [v[i]] on a [TVector]/[TDeque]: outside the vector the behaviour is
    undefined. *)
Definition At {A} (v : list A) (i : Z) : Res A :=
  if decide (0 <= i) then
    match v !! Z.to_nat i with
    | Some x => Ok x
    | None => Undefined IndexOutOfRange
    end
  else Undefined IndexOutOfRange.

(** ** Collaborator types

    [TDataMetaInfo] (data_new/meta_info.h): the loader reads the feature
    count and the class names.  [EObjectsOrder] is handed through to the
    visitor.  Of a [TPathWithScheme] only [Inited()] is consulted; the path
    is an opaque token for the external checkers and loaders. *)

Record TDataMetaInfo := mkMetaInfo {
  FeatureCount : Z;
  ClassNames : list Z
}.

Inductive EObjectsOrder := Ordered | RandomShuffled | OrderUndefined.

Record TPathWithScheme := mkPath { Inited : bool; PathToken : Z }.

(** ** Events *)

(** A [TConstArrayRef<ui8>] / [TUnalignedArrayBuf<T>] over pool memory. *)
Record TArrayRef := mkArrayRef { ArrData : Z; ArrSize : Z }.

Definition MakeArrayRef (q : TQuants) : TArrayRef :=
  mkArrayRef (QuantsData q) (QuantsSize q).

(** The temporary [TVector<float>] filled by [AssignUnaligned<double>]:
    [yresize(unaligned.size() / sizeof(double))] elements, each narrowed
    from the double at the same position of the source range. *)
Record TFloatTmp := mkFloatTmp { TmpSource : TArrayRef; TmpCount : Z }.

Definition AssignUnalignedDouble (unaligned : TArrayRef) : TFloatTmp :=
  mkFloatTmp unaligned (ArrSize unaligned / 8).

Inductive Event :=
| EvMadviseEvict (data size : Z)
| EvDebugLog (data size : Z)
| EvStart (metaInfo : TDataMetaInfo) (objectCount : Z) (objectsOrder : EObjectsOrder)
          (quantizationSchema : Z)
| EvAddFloatFeaturePart (flatFeatureIdx objectOffset bitsPerDocument : Z) (part : TArrayRef)
| EvAddTargetPart (objectOffset : Z) (part : TArrayRef)
| EvAddBaselinePart (objectOffset baselineIdx : Z) (part : TFloatTmp)
| EvAddWeightPart (objectOffset : Z) (part : TArrayRef)
| EvAddGroupWeightPart (objectOffset : Z) (part : TArrayRef)
| EvAddGroupIdPart (objectOffset : Z) (part : TArrayRef)
| EvAddSubgroupIdPart (objectOffset : Z) (part : TArrayRef)
| EvSetGroupWeights (payload : Z)
| EvSetPairs (payload : Z)
| EvSetBaseline (payload : Z)
| EvFinish.

Definition IsMadvise (e : Event) : bool :=
  match e with EvMadviseEvict _ _ => true | _ => false end.

(** Events of the operating-system side (advisory and its debug log), as
    opposed to calls on the visitor. *)
Definition IsSystemEvent (e : Event) : bool :=
  match e with EvMadviseEvict _ _ | EvDebugLog _ _ => true | _ => false end.

(** The typed parts delivered by the dispatcher. *)
Definition IsPartEvent (e : Event) : bool :=
  match e with
  | EvAddFloatFeaturePart _ _ _ _ | EvAddTargetPart _ _ | EvAddBaselinePart _ _ _
  | EvAddWeightPart _ _ | EvAddGroupWeightPart _ _ | EvAddGroupIdPart _ _
  | EvAddSubgroupIdPart _ _ => true
  | _ => false
  end.

(** ** TSequentialChunkEvictor *)

Record TSequentialChunkEvictor := mkEvictor {
  MinSizeInBytesToEvict_ : Z;
  Evicted_ : bool;
  Data_ : Z;
  Size_ : Z
}.

Definition NewEvictor (minSizeInBytesToEvict : Z) : TSequentialChunkEvictor :=
  mkEvictor (wrap64 minSizeInBytesToEvict) false 0 0.

(** [Data_ + Size_], the end of the visited range. *)
Definition VisitedEnd (ev : TSequentialChunkEvictor) : Z :=
  PtrAdd (Data_ ev) (Size_ ev).

(** [Evicted_ = true;] at the end of [MaybeEvict] *)
Definition Flagged (ev : TSequentialChunkEvictor) : TSequentialChunkEvictor :=
  mkEvictor (MinSizeInBytesToEvict_ ev) true (Data_ ev) (Size_ ev).

(** [Y_DEFER { Evicted_ = false; }] of [Push] *)
Definition ResetEvicted (ev : TSequentialChunkEvictor) : TSequentialChunkEvictor :=
  mkEvictor (MinSizeInBytesToEvict_ ev) false (Data_ ev) (Size_ ev).

Definition Push (chunk : TChunkRef) (ev : TSequentialChunkEvictor)
  : Res unit * TSequentialChunkEvictor :=
  let data := RefData chunk in
  let size := RefSize chunk in
  if PtrAdd (Data_ ev) (Size_ ev) <=? data then
    let ev' :=
      if Data_ ev =? 0 then
        mkEvictor (MinSizeInBytesToEvict_ ev) (Evicted_ ev) data size
      else if Evicted_ ev then
        let nextData := PtrAdd (Data_ ev) (Size_ ev) in
        mkEvictor (MinSizeInBytesToEvict_ ev) (Evicted_ ev)
                  nextData (wrap64 (data - nextData + size))
      else
        mkEvictor (MinSizeInBytesToEvict_ ev) (Evicted_ ev)
                  (Data_ ev) (wrap64 (data - Data_ ev + size)) in
    (Ok (), ResetEvicted ev')
  else
    (Throw (EvictorOrderViolated (Data_ ev) (Size_ ev) data size), ResetEvicted ev).

Section Evictor.

(** Whether [MadviseEvict(data, size)] throws; decided by the operating
    system.  The exception is caught inside [MaybeEvict] and logged.
    (The build modelled is the one that calls [MadviseEvict], that is,
    any but the Windows one.) *)
Variable MadviseEvictThrows : Z → Z → bool.

Definition Advise (data size : Z) : list Event :=
  EvMadviseEvict data size ::
  (if MadviseEvictThrows data size then [EvDebugLog data size] else []).

Definition MaybeEvict (force : bool) (ev : TSequentialChunkEvictor)
  : list Event * TSequentialChunkEvictor :=
  if Evicted_ ev || (negb force && (Size_ ev <? MinSizeInBytesToEvict_ ev)) then
    ([], ev)
  else
    (Advise (Data_ ev) (Size_ ev), Flagged ev).

(** A caller's view of an evictor: any interleaving of the two methods. *)
Inductive TEvictorCall :=
| CallPush (chunk : TChunkRef)
| CallMaybeEvict (force : bool).

Fixpoint RunCalls (calls : list TEvictorCall) (ev : TSequentialChunkEvictor)
  : Res unit * TSequentialChunkEvictor * list Event :=
  match calls with
  | [] => (Ok (), ev, [])
  | CallPush chunk :: rest =>
      match Push chunk ev with
      | (Ok _, ev') =>
          let '(r, ev'', t) := RunCalls rest ev' in (r, ev'', t)
      | (r, ev') => (r, ev', [])
      end
  | CallMaybeEvict force :: rest =>
      let '(t1, ev') := MaybeEvict force ev in
      let '(r, ev'', t2) := RunCalls rest ev' in
      (r, ev'', t1 ++ t2)
  end.

Definition PushedChunks (calls : list TEvictorCall) : list TChunkRef :=
  omap (λ c, match c with CallPush chunk => Some chunk | _ => None end) calls.

End Evictor.

(** A chunk's byte range lies inside the address space. *)
Definition ValidRange (r : TChunkRef) : Prop :=
  0 <= RefData r ∧ 0 <= RefSize r ∧ RefData r + RefSize r < 2 ^ 64.

(** Chunks in ascending address order whose ranges do not overlap: each one
    starts at or after the end of the one before. *)
Fixpoint Forward (lastEnd : Z) (chunks : list TChunkRef) : Prop :=
  match chunks with
  | [] => True
  | c :: rest => ValidRange c ∧ lastEnd <= RefData c ∧ Forward (RefData c + RefSize c) rest
  end.

(** The evictor's fields are in range and the visited range does not run
    past the end of the address space. *)
Definition EvictorWf (ev : TSequentialChunkEvictor) : Prop :=
  0 <= Data_ ev ∧ 0 <= Size_ ev ∧ Data_ ev + Size_ ev < 2 ^ 64.

(** ** Error monad of the pure parts *)

Global Instance Res_ret : MRet Res := λ A a, Ok a.
Global Instance Res_bind : MBind Res := λ A B f r,
  match r with
  | Ok a => f a
  | Throw e => Throw e
  | Undefined u => Undefined u
  end.

(** [CB_ENSURE(cond, message)] *)
Definition Ensure (cond : bool) (e : TCatBoostException) : Res unit :=
  if cond then Ok () else Throw e.

(** ** The pool

    [TQuantizedPool] is declared in quantized_pool/pool.h; these are the
    fields loader.cpp reads.  [ColumnIndexToLocalIndex] is a hash map, whose
    iteration order is that of [map_to_list]; the order only matters for
    chunks at equal addresses.  Of [ColumnsDump] only emptiness is read, and
    [QuantizationSchema] is handed to the visitor as it is. *)

Record TQuantizedPool := mkPool {
  ColumnIndexToLocalIndex : gmap Z Z;
  ColumnTypes : list EColumn;
  Chunks : list (list TChunkDescription);
  DocumentCount : Z;
  HasStringColumns : bool;
  StringDocIdLocalIndex : Z;
  StringGroupIdLocalIndex : Z;
  StringSubgroupIdLocalIndex : Z;
  ColumnsDump : list Z;
  QuantizationSchema : Z
}.

(** [static_cast<ui32>(-1)], the marker of an absent pseudo-column. *)
Definition AbsentIndex : Z := wrap32 (-1).

(** ** Sort

    [Sort(container, less)] of util/generic/algorithm.h ([std::sort]) is
    library code; it is modelled by insertion with the same comparator.
    Only its contract is relied on: the result is a rearrangement of the
    input in which no element is [less] than an earlier one.  [std::sort]
    leaves the order of elements that compare equal unspecified; the model
    keeps them in their input order, as the insertion pass of [std::sort]
    does on short sequences, and nothing proved below depends on it. *)

Fixpoint SortInsert {A} (less : A → A → bool) (x : A) (l : list A) : list A :=
  match l with
  | [] => [x]
  | y :: l' => if less y x then y :: SortInsert less x l' else x :: y :: l'
  end.

Definition Sort {A} (less : A → A → bool) (l : list A) : list A :=
  foldr (SortInsert less) [] l.

(** ** GatherAndSortChunks *)

Definition ChunkLess (lhs rhs : TChunkRef) : bool := RefData lhs <? RefData rhs.

(** The first loop: one pass over the entries of [ColumnIndexToLocalIndex]. *)
Fixpoint GatherColumns (chunks : list (list TChunkDescription))
    (entries : list (Z * Z)) : Res (list TChunkRef) :=
  match entries with
  | [] => Ok []
  | (columnIdx, localIdx) :: rest =>
      descriptions ← At chunks localIdx;
      more ← GatherColumns chunks rest;
      Ok (((λ d, mkChunkRef d (wrap32 columnIdx) (wrap32 localIdx)) <$> descriptions)
            ++ more)
  end.

(** The second loop, over [fakeIndices]. *)
Fixpoint GatherFake (chunks : list (list TChunkDescription))
    (fakeIndices : list Z) : Res (list TChunkRef) :=
  match fakeIndices with
  | [] => Ok []
  | fakeIdx :: rest =>
      if decide (fakeIdx = AbsentIndex) then GatherFake chunks rest
      else
        descriptions ← At chunks fakeIdx;
        more ← GatherFake chunks rest;
        Ok (((λ d, mkChunkRef d 0 fakeIdx) <$> descriptions) ++ more)
  end.

Definition FakeIndices (pool : TQuantizedPool) : list Z :=
  [StringDocIdLocalIndex pool; StringGroupIdLocalIndex pool;
   StringSubgroupIdLocalIndex pool].

Definition GatherAndSortChunks (pool : TQuantizedPool) : Res (list TChunkRef) :=
  real ← GatherColumns (Chunks pool) (map_to_list (ColumnIndexToLocalIndex pool));
  fake ← GatherFake (Chunks pool) (FakeIndices pool);
  Ok (Sort ChunkLess (real ++ fake)).

(** ** The dispatcher *)

Definition AddQuantizedFeatureChunk (chunk : TChunkDescription) (flatFeatureIdx : Z)
  : list Event :=
  [EvAddFloatFeaturePart flatFeatureIdx (DocumentOffset chunk)
     (BitsPerDocument (Chunk chunk)) (MakeArrayRef (Quants (Chunk chunk)))].

(** [flatFeatureIdx] and [baselineIdx] are the two [const size_t*]
    arguments; [None] is the null pointer. *)
Definition AddChunk (chunk : TChunkDescription) (columnType : EColumn)
    (flatFeatureIdx baselineIdx : option Z) : Res (list Event) :=
  let quants := MakeArrayRef (Quants (Chunk chunk)) in
  match columnType with
  | Num =>
      match flatFeatureIdx with
      | Some idx => Ok (AddQuantizedFeatureChunk chunk idx)
      | None => Undefined NullDereference
      end
  | Label => Ok [EvAddTargetPart (DocumentOffset chunk) quants]
  | Baseline =>
      let tmp := AssignUnalignedDouble quants in
      match baselineIdx with
      | Some idx => Ok [EvAddBaselinePart (DocumentOffset chunk) idx tmp]
      | None => Undefined NullDereference
      end
  | Weight => Ok [EvAddWeightPart (DocumentOffset chunk) quants]
  | GroupWeight => Ok [EvAddGroupWeightPart (DocumentOffset chunk) quants]
  | GroupId => Ok [EvAddGroupIdPart (DocumentOffset chunk) quants]
  | SubgroupId => Ok [EvAddSubgroupIdPart (DocumentOffset chunk) quants]
  | SampleId | Categ | Auxiliary | Text | Timestamp | Sparse | Prediction =>
      Throw (UnexpectedColumnType columnType)
  end.

(** ** External collaborators

    Functions the loader calls that live outside loader.cpp.  They are
    parameters of the development; nothing is assumed of them.  The three
    auxiliary loaders either throw or forward at most one call
    ([SetGroupWeights], [SetPairs], [SetBaseline]) to the visitor, whose
    payload is opaque here. *)

Class TCollaborators := {
  (** whether [MadviseEvict] throws on a range *)
  MadviseEvictThrows : Z → Z → bool;
  LoadQuantizedPool : TPathWithScheme → Res TQuantizedPool;
  CheckExists : TPathWithScheme → bool;
  GetDataMetaInfo : TQuantizedPool → bool → bool → TDataMetaInfo;
  GetIgnoredFlatIndices : TQuantizedPool → list Z;
  GetColumnIndexToFlatIndexMap : TQuantizedPool → gmap Z Z;
  GetColumnIndexToBaselineIndexMap : TQuantizedPool → gmap Z Z;
  SetGroupWeights : TPathWithScheme → Z → Res (option Z);
  SetPairs : TPathWithScheme → Z → Res (option Z);
  SetBaseline : TPathWithScheme → Z → list Z → Res (option Z)
}.

(** Modelled from the spec: [ProcessIgnoredFeaturesList] (declared with the
    data-loading helpers, not part of loader.cpp).  It computes a
    per-feature ignored bitset sized to the feature count, bit [i] set when
    [i] occurs in the merged list (duplicates harmless), and refuses a
    dataset in which no usable feature remains. *)
Definition ProcessIgnoredFeaturesList (ignoredFeatures : list Z) (meta : TDataMetaInfo)
  : Res (TDataMetaInfo * list bool) :=
  let mask := (λ i : nat, bool_decide (Z.of_nat i ∈ ignoredFeatures))
                <$> seq 0 (Z.to_nat (FeatureCount meta)) in
  if forallb id mask then Throw AllFeaturesIgnored else Ok (meta, mask).

(** ** TCBQuantizedDataLoader *)

Record TDatasetLoaderPullArgs := mkArgs {
  PoolPath : TPathWithScheme;
  PairsFilePath : TPathWithScheme;
  GroupWeightsFilePath : TPathWithScheme;
  BaselineFilePath : TPathWithScheme;
  ArgsObjectsOrder : EObjectsOrder;
  IgnoredFeatures : list Z
}.

Record TCBQuantizedDataLoader := mkLoader {
  ObjectCount : Z;
  QuantizedPool : TQuantizedPool;
  PairsPath : TPathWithScheme;
  GroupWeightsPath : TPathWithScheme;
  BaselinePath : TPathWithScheme;
  ObjectsOrder : EObjectsOrder;
  DataMetaInfo : TDataMetaInfo;
  IsFeatureIgnored : list bool
}.

(** The constructor. *)
Definition Construct `{TCollaborators} (args : TDatasetLoaderPullArgs)
  : Res TCBQuantizedDataLoader :=
  pool ← LoadQuantizedPool (PoolPath args);
  let pairsPath := PairsFilePath args in
  let groupWeightsPath := GroupWeightsFilePath args in
  let baselinePath := BaselineFilePath args in
  _ ← Ensure (0 <? DocumentCount pool) PoolIsEmpty;
  _ ← Ensure (DocumentCount pool <=? MaxUi32) (TooManyObjects MaxUi32);
  let objectCount := wrap32 (DocumentCount pool) in
  _ ← Ensure (negb (Inited pairsPath) || CheckExists pairsPath)
        PairsFilePathDoesNotExist;
  _ ← Ensure (negb (Inited groupWeightsPath) || CheckExists groupWeightsPath)
        GroupWeightsFilePathDoesNotExist;
  _ ← Ensure (negb (Inited baselinePath) || CheckExists baselinePath)
        BaselineFilePathDoesNotExist;
  let dataMetaInfo :=
    GetDataMetaInfo pool (Inited groupWeightsPath) (Inited pairsPath) in
  _ ← Ensure (0 <? FeatureCount dataMetaInfo) PoolShouldHaveAtLeastOneFactor;
  let allIgnoredFeatures := IgnoredFeatures args ++ GetIgnoredFlatIndices pool in
  '(dataMetaInfo', isFeatureIgnored) ←
      ProcessIgnoredFeaturesList allIgnoredFeatures dataMetaInfo;
  Ok (mkLoader objectCount pool pairsPath groupWeightsPath baselinePath
        (ArgsObjectsOrder args) dataMetaInfo' isFeatureIgnored).

(** ** The monad of [Do]: evictor state, trace, exceptions *)

Record TDoState := mkDoState {
  Evictor : TSequentialChunkEvictor;
  Trace : list Event
}.

Definition M (A : Type) : Type := TDoState → Res A * TDoState.

Global Instance M_ret : MRet M := λ A a st, (Ok a, st).
Global Instance M_bind : MBind M := λ A B f c st,
  match c st with
  | (Ok a, st') => f a st'
  | (Throw e, st') => (Throw e, st')
  | (Undefined u, st') => (Undefined u, st')
  end.

Definition LiftRes {A} (r : Res A) : M A := λ st, (r, st).

Definition Emit (events : list Event) : M unit :=
  λ st, (Ok (), mkDoState (Evictor st) (Trace st ++ events)).

Definition EvictorPush (chunk : TChunkRef) : M unit :=
  λ st, let '(r, ev') := Push chunk (Evictor st) in (r, mkDoState ev' (Trace st)).

Definition EvictorMaybeEvict `{TCollaborators} (force : bool) : M unit :=
  λ st, let '(t, ev') := MaybeEvict MadviseEvictThrows force (Evictor st) in
        (Ok (), mkDoState ev' (Trace st ++ t)).

(** [Y_DEFER { cleanup }] followed by [body]: the cleanup runs when the
    scope is left, normally or by an exception. *)
Definition Deferred {A} (cleanup : M unit) (body : M A) : M A :=
  λ st, let '(r, st') := body st in (r, (cleanup st').2).

Fixpoint ForEach {A} (body : A → M unit) (l : list A) : M unit :=
  match l with
  | [] => mret ()
  | x :: rest => _ ← body x; ForEach body rest
  end.

(** The condition of the [CB_ENSURE] in the loop of [Do]. *)
Definition StreamingEnsure (columnType : EColumn) : bool :=
  bool_decide (columnType = Num) || bool_decide (columnType = Baseline) ||
  bool_decide (columnType = Label) || bool_decide (columnType = Categ) ||
  bool_decide (columnType = Weight) || bool_decide (columnType = GroupWeight) ||
  bool_decide (columnType = GroupId) || bool_decide (columnType = SubgroupId).

Definition IsStringColumn (pool : TQuantizedPool) (localIdx : Z) : bool :=
  HasStringColumns pool &&
  (bool_decide (localIdx = StringDocIdLocalIndex pool) ||
   bool_decide (localIdx = StringGroupIdLocalIndex pool) ||
   bool_decide (localIdx = StringSubgroupIdLocalIndex pool)).

(** What follows [Y_DEFER { evictor.MaybeEvict(); }] in the loop body: the
    calls made on the visitor for this chunk ([continue] makes none), or
    the exception that ends the loop.  It touches neither the evictor nor
    the loader. *)
Definition DispatchChunk (ld : TCBQuantizedDataLoader)
    (columnIdxToFlatIdx columnIdxToBaselineIdx : gmap Z Z)
    (chunkRef : TChunkRef) : Res (list Event) :=
  let pool := QuantizedPool ld in
  let columnIdx := ColumnIndex chunkRef in
  let localIdx := LocalIndex chunkRef in
  if IsStringColumn pool localIdx then Ok []
  else
    columnType ← At (ColumnTypes pool) localIdx;
    if bool_decide (columnType = SampleId) then Ok []
    else
      _ ← Ensure (StreamingEnsure columnType)
            (ExpectedDispatchableColumn columnType columnIdx);
      let flatFeatureIdx := columnIdxToFlatIdx !! columnIdx in
      ignored ← match flatFeatureIdx with
                | Some idx => At (IsFeatureIgnored ld) idx
                | None => Ok false
                end;
      if ignored : bool then Ok []
      else
        let baselineIdx := columnIdxToBaselineIdx !! columnIdx in
        AddChunk (Description chunkRef) columnType flatFeatureIdx baselineIdx.

(** The body of the loop of [Do]. *)
Definition ProcessChunk `{TCollaborators} (ld : TCBQuantizedDataLoader)
    (columnIdxToFlatIdx columnIdxToBaselineIdx : gmap Z Z)
    (chunkRef : TChunkRef) : M unit :=
  _ ← (if bool_decide (ColumnsDump (QuantizedPool ld) = [])
       then EvictorPush chunkRef else mret ());
  Deferred (EvictorMaybeEvict false)
    (events ← LiftRes (DispatchChunk ld columnIdxToFlatIdx columnIdxToBaselineIdx
                         chunkRef);
     Emit events).

(** The seven column types the dispatcher has a part for, and the eight
    the loop lets through to it. *)
Definition Dispatchable : list EColumn :=
  [Num; Label; Baseline; Weight; GroupWeight; GroupId; SubgroupId].

Definition LetThrough : list EColumn := Categ :: Dispatchable.

(** The visitor calls of an outcome of [DispatchChunk]: none when it threw. *)
Definition CallsOf (d : Res (list Event)) : list Event :=
  match d with Ok events => events | _ => [] end.

(** [TSequentialChunkEvictor evictor(1ULL << 24)] *)
Definition DoEvictor : TSequentialChunkEvictor := NewEvictor (1 ≪ 24).

(** [Do] up to and including the loop over the gathered chunks. *)
Definition StreamM `{TCollaborators} (ld : TCBQuantizedDataLoader) : M unit :=
  let pool := QuantizedPool ld in
  _ ← Emit [EvStart (DataMetaInfo ld) (ObjectCount ld) (ObjectsOrder ld)
              (QuantizationSchema pool)];
  let columnIdxToFlatIdx := GetColumnIndexToFlatIndexMap pool in
  let columnIdxToBaselineIdx := GetColumnIndexToBaselineIndexMap pool in
  chunkRefs ← LiftRes (GatherAndSortChunks pool);
  ForEach (ProcessChunk ld columnIdxToFlatIdx columnIdxToBaselineIdx) chunkRefs.

Definition DoM `{TCollaborators} (ld : TCBQuantizedDataLoader) : M unit :=
  _ ← StreamM ld;
  _ ← EvictorMaybeEvict true;
  w ← LiftRes (SetGroupWeights (GroupWeightsPath ld) (ObjectCount ld));
  _ ← Emit (option_list (EvSetGroupWeights <$> w));
  p ← LiftRes (SetPairs (PairsPath ld) (ObjectCount ld));
  _ ← Emit (option_list (EvSetPairs <$> p));
  b ← LiftRes (SetBaseline (BaselinePath ld) (ObjectCount ld)
                 (ClassNames (DataMetaInfo ld)));
  _ ← Emit (option_list (EvSetBaseline <$> b));
  Emit [EvFinish].

(** [Do(visitor)]: the outcome and everything the visitor and the operating
    system were asked to do, in order. *)
Definition Do `{TCollaborators} (ld : TCBQuantizedDataLoader) : Res unit * list Event :=
  let '(r, st) := DoM ld (mkDoState DoEvictor []) in (r, Trace st).

(** A caller of the registered loader: construct, then stream once. *)
Definition LoadAndDo `{TCollaborators} (args : TDatasetLoaderPullArgs)
  : Res unit * list Event :=
  match Construct args with
  | Ok ld => Do ld
  | Throw e => (Throw e, [])
  | Undefined u => (Undefined u, [])
  end.

(** A configured auxiliary path whose resource does not exist. *)
Definition Missing `{TCollaborators} (path : TPathWithScheme) : Prop :=
  Inited path = true ∧ CheckExists path = false.

Global Instance Missing_dec `{TCollaborators} path : Decision (Missing path).
Proof. unfold Missing. apply _. Defined.

(** The order the gatherer's comparator sorts into: start addresses do not
    decrease. *)
Definition AddressLe (lhs rhs : TChunkRef) : Prop := RefData lhs <= RefData rhs.

(** [pool.Chunks[l]], empty for a slot that does not exist. *)
Definition SlotChunks (pool : TQuantizedPool) (l : Z) : list TChunkDescription :=
  default [] (Chunks pool !! Z.to_nat l).

(** ** Well-formed pools

    What the parser of the pool format guarantees of a [TQuantizedPool] and
    the gatherer relies on: every slot referred to exists and fits [ui32],
    distinct columns have distinct slots, and the configured pseudo-slots
    are distinct from each other and from the slots of real columns. *)

Definition RealSlots (pool : TQuantizedPool) : list Z :=
  (map_to_list (ColumnIndexToLocalIndex pool)).*2.

Definition ConfiguredFake (pool : TQuantizedPool) : list Z :=
  filter (λ f, f ≠ AbsentIndex) (FakeIndices pool).

Definition SlotInRange (pool : TQuantizedPool) (l : Z) : Prop :=
  0 <= l < Z.of_nat (length (Chunks pool)) ∧ l < 2 ^ 32.

Definition PoolWf (pool : TQuantizedPool) : Prop :=
  Forall (SlotInRange pool) (RealSlots pool ++ ConfiguredFake pool) ∧
  NoDup (RealSlots pool ++ ConfiguredFake pool).

Global Instance SlotInRange_dec pool l : Decision (SlotInRange pool l).
Proof. unfold SlotInRange. apply _. Defined.
Global Instance PoolWf_dec pool : Decision (PoolWf pool).
Proof. unfold PoolWf. apply _. Defined.

(** Every column of the pool fits the [ui32] fields of a chunk reference,
    every [Num] column has a flat feature index and every [Baseline] column
    a baseline index, and the pseudo-slots, if any is configured, are
    flagged by [HasStringColumns]. *)
Definition ColumnsIndexed (pool : TQuantizedPool) (flat base : gmap Z Z) : Prop :=
  map_Forall (λ c l,
      (0 <= c < 2 ^ 32 ∧ 0 <= l < 2 ^ 32) ∧
      (ColumnTypes pool !! Z.to_nat l = Some Num → is_Some (flat !! c)) ∧
      (ColumnTypes pool !! Z.to_nat l = Some Baseline → is_Some (base !! c)))
    (ColumnIndexToLocalIndex pool) ∧
  (HasStringColumns pool = true ∨ ConfiguredFake pool = []).

Global Instance ColumnsIndexed_dec pool flat base :
  Decision (ColumnsIndexed pool flat base).
Proof. unfold ColumnsIndexed. apply _. Defined.

(** The five column types that need neither index. *)
Definition IndexFree : list EColumn := [Label; Weight; GroupWeight; GroupId; SubgroupId].

(** ** A small pool used in the examples

    Three documents; a feature column in two chunks, a label column, a
    categorical column and a string document-id pseudo-column. *)

Definition ExChunk (addr size off bits : Z) : TChunkDescription :=
  mkChunkDescription off (mkChunk bits (mkQuants addr size)).

Definition ExRef (addr size : Z) : TChunkRef :=
  mkChunkRef (ExChunk addr size 0 8) 0 0.

Definition ExPoolWith (types : list EColumn) (dump : list Z) : TQuantizedPool :=
  mkPool (list_to_map [(0, 0); (1, 1); (2, 2)])
         types
         [[ExChunk 1000 2 0 8; ExChunk 1030 1 2 8]; [ExChunk 1010 12 0 32];
          [ExChunk 1040 3 0 8]; [ExChunk 1050 5 0 8]]
         3 true 3 AbsentIndex AbsentIndex dump 77.

Definition ExPool : TQuantizedPool := ExPoolWith [Num; Label; Categ; SampleId] [].

(** The flat-feature index map of the example pool, its loader as
    constructed without ignored features, and its categorical chunk as
    gathered. *)
Definition ExFlat : gmap Z Z := list_to_map [(0, 0); (2, 1)].

Definition ExCategRef : TChunkRef := mkChunkRef (ExChunk 1040 3 0 8) 2 2.

Definition ExCollaborators (pool : TQuantizedPool) : TCollaborators := {|
  MadviseEvictThrows := λ _ _, false;
  LoadQuantizedPool := λ _, Ok pool;
  CheckExists := λ p, bool_decide (PathToken p = 1);
  GetDataMetaInfo := λ _ _ _, mkMetaInfo 2 [];
  GetIgnoredFlatIndices := λ _, [];
  GetColumnIndexToFlatIndexMap := λ _, ExFlat;
  GetColumnIndexToBaselineIndexMap := λ _, ∅;
  SetGroupWeights := λ _ _, Ok None;
  SetPairs := λ _ _, Ok None;
  SetBaseline := λ _ _ _, Ok None
|}.

Definition NoPath : TPathWithScheme := mkPath false 0.

Definition ExLoader : TCBQuantizedDataLoader :=
  mkLoader 3 ExPool NoPath NoPath NoPath Ordered (mkMetaInfo 2 []) [false; false].

(** The example pool held fully in memory. *)
Definition ExMemPool : TQuantizedPool := ExPoolWith [Num; Label; Categ; SampleId] [1].

(** The example pool with another document count. *)
Definition ExPoolOfCount (count : Z) : TQuantizedPool :=
  mkPool (ColumnIndexToLocalIndex ExPool) (ColumnTypes ExPool) (Chunks ExPool)
         count true 3 AbsentIndex AbsentIndex [] 77.




Definition ExArgs (ignored : list Z) : TDatasetLoaderPullArgs :=
  mkArgs (mkPath true 1) NoPath NoPath NoPath Ordered ignored.

Definition NeverThrows : Z → Z → bool := λ _ _, false.

(** ** AssignUnaligned

    [AssignUnaligned<T, U>(unaligned, dst)]: [dst] is resized to
    [unaligned.size() / sizeof(T)] elements and filled, in order, from a
    [TUnalignedMemoryIterator<T>] over the bytes.  [read] is the unaligned
    read of one [T] from [sizeof(T)] bytes and [conv] the conversion done by
    the assignment to a [U]; both belong to the element types, not to this
    function. *)

(** [count] calls of [it.Next()]. *)
Fixpoint NextElements {T} (sizeofT : nat) (read : list Z → T) (count : nat)
    (mem : list Z) : list T :=
  match count with
  | O => []
  | S n => read (take sizeofT mem) :: NextElements sizeofT read n (drop sizeofT mem)
  end.

Definition AssignUnaligned {T U} (sizeofT : nat) (read : list Z → T) (conv : T → U)
    (unaligned : list Z) : list U :=
  conv <$> NextElements sizeofT read (length unaligned / sizeofT)%nat unaligned.

(** ** Reading the trace *)

(** The document offset a part was delivered at. *)
Definition EventOffset (e : Event) : option Z :=
  match e with
  | EvAddFloatFeaturePart _ off _ _ | EvAddTargetPart off _ | EvAddBaselinePart off _ _
  | EvAddWeightPart off _ | EvAddGroupWeightPart off _ | EvAddGroupIdPart off _
  | EvAddSubgroupIdPart off _ => Some off
  | _ => None
  end.

(** The bytes of the pool a part was made from. *)
Definition EventSource (e : Event) : option TArrayRef :=
  match e with
  | EvAddFloatFeaturePart _ _ _ part | EvAddTargetPart _ part | EvAddWeightPart _ part
  | EvAddGroupWeightPart _ part | EvAddGroupIdPart _ part
  | EvAddSubgroupIdPart _ part => Some part
  | EvAddBaselinePart _ _ tmp => Some (TmpSource tmp)
  | _ => None
  end.

Definition IsStart (e : Event) : bool :=
  match e with EvStart _ _ _ _ => true | _ => false end.

Definition IsFinish (e : Event) : bool :=
  match e with EvFinish => true | _ => false end.

(** The ranges handed to [MadviseEvict], in order. *)
Definition AdvisedRanges (t : list Event) : list (Z * Z) :=
  omap (λ e, match e with EvMadviseEvict data size => Some (data, size) | _ => None end) t.

(** The calls the loop of [Do] makes on its evictor for the chunks it gets
    through, in mapped-file mode, and those of a whole [Do]. *)
Definition LoopCalls (refs : list TChunkRef) : list TEvictorCall :=
  refs ≫= λ r, [CallPush r; CallMaybeEvict false].

Definition DoCalls (refs : list TChunkRef) : list TEvictorCall :=
  LoopCalls refs ++ [CallMaybeEvict true].

(** Two chunks whose byte ranges do not overlap. *)
Definition Disjoint (c d : TChunkRef) : Prop :=
  RefData c + RefSize c <= RefData d ∨ RefData d + RefSize d <= RefData c.

(** A non-empty byte range inside the address space. *)
Definition NonEmptyRange (r : TChunkRef) : Prop := ValidRange r ∧ 0 < RefSize r.

(** Every two chunks of the list are disjoint. *)
Fixpoint PairwiseDisjoint (l : list TChunkRef) : Prop :=
  match l with
  | [] => True
  | c :: rest => Forall (Disjoint c) rest ∧ PairwiseDisjoint rest
  end.

Global Instance ValidRange_dec r : Decision (ValidRange r).
Proof. unfold ValidRange. apply _. Defined.
Global Instance NonEmptyRange_dec r : Decision (NonEmptyRange r).
Proof. unfold NonEmptyRange. apply _. Defined.
Global Instance Disjoint_dec c d : Decision (Disjoint c d).
Proof. unfold Disjoint. apply _. Defined.
Global Instance PairwiseDisjoint_dec l : Decision (PairwiseDisjoint l).
Proof. induction l as [|c l IH]; simpl; apply _. Defined.

(** The slots the gatherer reads, with repetitions: one per column, then the
    configured pseudo-slots. *)
Definition GatheredSlots (pool : TQuantizedPool) : list Z :=
  RealSlots pool ++ ConfiguredFake pool.

(** Every index the loop of [Do] uses is inside its vector: the slots the
    gatherer reads exist in [Chunks], the slots of the columns have a column
    type, and the flat feature indices have a bit in the ignored-feature
    bitset. *)
Definition IndicesInRange `{TCollaborators} (ld : TCBQuantizedDataLoader) : Prop :=
  Forall (λ l, 0 <= l < Z.of_nat (length (Chunks (QuantizedPool ld))))
    (GatheredSlots (QuantizedPool ld)) ∧
  Forall (λ l, 0 <= l < Z.of_nat (length (ColumnTypes (QuantizedPool ld))))
    (RealSlots (QuantizedPool ld)) ∧
  map_Forall (λ _ f, 0 <= f < Z.of_nat (length (IsFeatureIgnored ld)))
    (GetColumnIndexToFlatIndexMap (QuantizedPool ld)).

Global Instance IndicesInRange_dec `{TCollaborators} ld : Decision (IndicesInRange ld).
Proof. unfold IndicesInRange. apply _. Defined.

(** The collaborators with another behaviour of [MadviseEvict]. *)
Definition WithMadvise (collaborators : TCollaborators) (throws : Z → Z → bool)
  : TCollaborators := {|
  MadviseEvictThrows := throws;
  LoadQuantizedPool := @LoadQuantizedPool collaborators;
  CheckExists := @CheckExists collaborators;
  GetDataMetaInfo := @GetDataMetaInfo collaborators;
  GetIgnoredFlatIndices := @GetIgnoredFlatIndices collaborators;
  GetColumnIndexToFlatIndexMap := @GetColumnIndexToFlatIndexMap collaborators;
  GetColumnIndexToBaselineIndexMap := @GetColumnIndexToBaselineIndexMap collaborators;
  SetGroupWeights := @SetGroupWeights collaborators;
  SetPairs := @SetPairs collaborators;
  SetBaseline := @SetBaseline collaborators
|}.

(** A trace without the debug log lines of failed advisories. *)
Definition IsDebugLog (e : Event) : bool :=
  match e with EvDebugLog _ _ => true | _ => false end.

Definition WithoutLog (t : list Event) : list Event :=
  filter (λ e, IsDebugLog e = false) t.

(** Two states of [Do] that differ at most in the debug log. *)
Definition SameButLog (st1 st2 : TDoState) : Prop :=
  Evictor st1 = Evictor st2 ∧ WithoutLog (Trace st1) = WithoutLog (Trace st2).

(** The address up to which an evictor has advised: the end of the visited
    range once it is flagged, its start before. *)
Definition Frontier (ev : TSequentialChunkEvictor) : Z :=
  if Evicted_ ev then Data_ ev + Size_ ev else Data_ ev.

(** Ranges [(data, size)] each starting at or after the end of all those
    before it. *)
Fixpoint SuccessiveRanges (l : list (Z * Z)) : Prop :=
  match l with
  | [] => True
  | a :: rest => Forall (λ b, a.1 + a.2 <= b.1) rest ∧ SuccessiveRanges rest
  end.

(** A two-byte little-endian element type, used in the examples. *)
Definition ExEncode (x : Z) : list Z := [x mod 256; x / 256].
Definition ExRead (bytes : list Z) : Z :=
  match bytes with [lo; hi] => lo + 256 * hi | _ => 0 end.

(** * Properties *)

(** ** Machine arithmetic *)

Lemma wrap64_small z : 0 <= z < 2 ^ 64 → wrap64 z = z.
Proof. intros Hz. unfold wrap64. by apply Z.mod_small. Qed.

Lemma wrap32_small z : 0 <= z < 2 ^ 32 → wrap32 z = z.
Proof. intros Hz. unfold wrap32. by apply Z.mod_small. Qed.

Lemma VisitedEnd_wf ev : EvictorWf ev → VisitedEnd ev = Data_ ev + Size_ ev.
Proof.
  intros (Hd & Hs & He). unfold VisitedEnd, PtrAdd. apply wrap64_small. lia.
Qed.

(** ** The evictor *)

Section EvictorFacts.

Variable throws : Z → Z → bool.

Lemma NewEvictor_wf minSize : EvictorWf (NewEvictor minSize).
Proof. unfold EvictorWf; simpl. lia. Qed.

Lemma MaybeEvict_range force ev :
  Data_ (MaybeEvict throws force ev).2 = Data_ ev ∧
  Size_ (MaybeEvict throws force ev).2 = Size_ ev ∧
  MinSizeInBytesToEvict_ (MaybeEvict throws force ev).2 = MinSizeInBytesToEvict_ ev.
Proof. unfold MaybeEvict. by case_match. Qed.

Lemma MaybeEvict_wf force ev : EvictorWf ev → EvictorWf (MaybeEvict throws force ev).2.
Proof.
  unfold EvictorWf. destruct (MaybeEvict_range force ev) as (-> & -> & _). done.
Qed.

Lemma Push_ok_iff chunk ev :
  (Push chunk ev).1 = Ok () ↔ VisitedEnd ev <= RefData chunk.
Proof.
  unfold Push, VisitedEnd.
  destruct (Z.leb_spec (PtrAdd (Data_ ev) (Size_ ev)) (RefData chunk)); simpl.
  - done.
  - split; [done | lia].
Qed.

(** A successful push leaves the visited range ending where the chunk
    ends. *)
Lemma Push_end chunk ev :
  EvictorWf ev → ValidRange chunk → Data_ ev + Size_ ev <= RefData chunk →
  (Push chunk ev).1 = Ok () ∧
  EvictorWf (Push chunk ev).2 ∧
  Data_ (Push chunk ev).2 + Size_ (Push chunk ev).2 = RefData chunk + RefSize chunk.
Proof.
  intros Hwf (Hd & Hs & He) Hle.
  pose proof (VisitedEnd_wf ev Hwf) as Hend. unfold VisitedEnd in Hend.
  destruct Hwf as (Hd' & Hs' & He').
  unfold Push, EvictorWf. rewrite Hend.
  destruct (Z.leb_spec (Data_ ev + Size_ ev) (RefData chunk)); [|lia].
  destruct (Z.eqb_spec (Data_ ev) 0); simpl.
  - repeat split; lia.
  - destruct (Evicted_ ev); simpl; rewrite wrap64_small by lia; repeat split; lia.
Qed.

Lemma RunCalls_forward calls : ∀ ev lastEnd,
  EvictorWf ev → Data_ ev + Size_ ev <= lastEnd →
  Forward lastEnd (PushedChunks calls) →
  (RunCalls throws calls ev).1.1 = Ok () ∧ EvictorWf (RunCalls throws calls ev).1.2.
Proof.
  induction calls as [|[chunk|force] calls IH]; intros ev lastEnd Hwf Hle Hfw.
  - done.
  - simpl in Hfw. destruct Hfw as (Hv & Hstart & Hrest).
    destruct (Push_end chunk ev Hwf Hv ltac:(lia)) as (Hok & Hwf' & Hend).
    simpl. destruct (Push chunk ev) as [r ev'] eqn:HP. simpl in *. subst r.
    specialize (IH ev' (RefData chunk + RefSize chunk) Hwf' ltac:(lia) Hrest).
    destruct (RunCalls throws calls ev') as [[r ev''] t]. done.
  - simpl in Hfw. simpl.
    pose proof (MaybeEvict_wf force ev Hwf) as Hwf'.
    destruct (MaybeEvict_range force ev) as (HD & HS & _).
    destruct (MaybeEvict throws force ev) as [t1 ev'] eqn:HM. simpl in *.
    specialize (IH ev' lastEnd Hwf' ltac:(lia) Hfw).
    destruct (RunCalls throws calls ev') as [[r ev''] t]. done.
Qed.

End EvictorFacts.

(** C2. Pushes of chunks in ascending, non-overlapping address order never
    fail, whatever calls of [MaybeEvict] come in between, and the evictor
    stays well formed; a push whose chunk starts before the current visited
    end ([Data_ + Size_]) throws the ordering exception; and a push succeeds
    exactly when the chunk starts at or after the visited end. *)
Theorem Push_forward_only (throws : Z → Z → bool) :
  (∀ minSize calls,
     Forward 0 (PushedChunks calls) →
     (RunCalls throws calls (NewEvictor minSize)).1.1 = Ok () ∧
     EvictorWf (RunCalls throws calls (NewEvictor minSize)).1.2) ∧
  (∀ ev chunk,
     EvictorWf ev → RefData chunk < Data_ ev + Size_ ev →
     (Push chunk ev).1 =
       Throw (EvictorOrderViolated (Data_ ev) (Size_ ev) (RefData chunk) (RefSize chunk))) ∧
  (∀ ev chunk,
     EvictorWf ev →
     ((Push chunk ev).1 = Ok () ↔ Data_ ev + Size_ ev <= RefData chunk)).
Proof.
  split; [|split].
  - intros minSize calls Hfw.
    apply (RunCalls_forward throws calls (NewEvictor minSize) 0); [|simpl; lia|done].
    apply NewEvictor_wf.
  - intros ev chunk Hwf Hlt. pose proof (VisitedEnd_wf ev Hwf) as Hend.
    unfold VisitedEnd in Hend. unfold Push. rewrite Hend.
    destruct (Z.leb_spec (Data_ ev + Size_ ev) (RefData chunk)); [lia | done].
  - intros ev chunk Hwf. rewrite Push_ok_iff, (VisitedEnd_wf ev Hwf). done.
Qed.

Lemma Push_forward_only_witness :
  Forward 0 (PushedChunks
               [CallPush (ExRef 1000 2); CallMaybeEvict false; CallPush (ExRef 1010 12)]) ∧
  (RunCalls NeverThrows
     [CallPush (ExRef 1000 2); CallMaybeEvict false; CallPush (ExRef 1010 12)]
     (NewEvictor (1 ≪ 24))).1.1 = Ok () ∧
  (Push (ExRef 1000 2) (mkEvictor 16 false 1000 12)).1 =
    Throw (EvictorOrderViolated 1000 12 1000 2).
Proof.
  assert (Hfw : Forward 0 (PushedChunks
     [CallPush (ExRef 1000 2); CallMaybeEvict false; CallPush (ExRef 1010 12)])).
  { vm_compute. repeat split; congruence. }
  split; [exact Hfw | split].
  - exact (proj1 (proj1 (Push_forward_only NeverThrows) (1 ≪ 24) _ Hfw)).
  - apply (proj1 (proj2 (Push_forward_only NeverThrows))).
    + vm_compute. repeat split; congruence.
    + vm_compute. reflexivity.
Defined.

Lemma Advise_once throws data size :
  filter IsMadvise (Advise throws data size) = [EvMadviseEvict data size].
Proof. unfold Advise. by destruct (throws data size). Qed.

Lemma MaybeEvict_flag_set throws force ev :
  Evicted_ ev = true → MaybeEvict throws force ev = ([], ev).
Proof. intros He. unfold MaybeEvict. by rewrite He. Qed.

Lemma MaybeEvict_forced throws ev :
  Evicted_ ev = false →
  MaybeEvict throws true ev = (Advise throws (Data_ ev) (Size_ ev), Flagged ev).
Proof. intros He. unfold MaybeEvict. by rewrite He. Qed.

Lemma RunCalls_flagged throws forces : ∀ ev,
  Evicted_ ev = true →
  RunCalls throws (CallMaybeEvict <$> forces) ev = (Ok (), ev, []).
Proof.
  induction forces as [|force forces IH]; intros ev He; [done|].
  rewrite fmap_cons. cbn [RunCalls].
  rewrite (MaybeEvict_flag_set throws force ev He).
  by rewrite (IH ev He).
Qed.

(** Between two pushes a span is advised at most once, however often
    [MaybeEvict] is called. *)
Lemma RunCalls_evict_once throws forces : ∀ ev,
  (length (filter (λ e, IsMadvise e = true)
             (RunCalls throws (CallMaybeEvict <$> forces) ev).2) ≤ 1)%nat.
Proof.
  induction forces as [|force forces IH]; intros ev; [simpl; lia|].
  rewrite fmap_cons. cbn [RunCalls].
  unfold MaybeEvict.
  destruct (Evicted_ ev || negb force && (Size_ ev <? MinSizeInBytesToEvict_ ev)).
  - specialize (IH ev).
    destruct (RunCalls throws (CallMaybeEvict <$> forces) ev) as [[r ev'] t].
    exact IH.
  - rewrite (RunCalls_flagged throws forces (Flagged ev) eq_refl).
    rewrite app_nil_r. unfold Advise.
    destruct (throws (Data_ ev) (Size_ ev)); simpl; lia.
Qed.

(** After pushes of non-empty chunks the visited range is not empty. *)
Lemma RunCalls_size_pos throws calls : ∀ ev lastEnd,
  EvictorWf ev → Data_ ev + Size_ ev <= lastEnd →
  Forward lastEnd (PushedChunks calls) →
  Forall (λ c, 0 < RefSize c) (PushedChunks calls) →
  PushedChunks calls ≠ [] ∨ 0 < Size_ ev →
  0 < Size_ (RunCalls throws calls ev).1.2.
Proof.
  induction calls as [|[chunk|force] calls IH]; intros ev lastEnd Hwf Hle Hfw Hpos Hne.
  - simpl. by destruct Hne.
  - simpl in Hfw, Hpos. destruct Hfw as (Hv & Hstart & Hrest).
    apply Forall_cons in Hpos as [Hsize Hpos].
    destruct (Push_end chunk ev Hwf Hv ltac:(lia)) as (Hok & Hwf' & Hend).
    assert (0 < Size_ (Push chunk ev).2) as Hnz.
    { pose proof (VisitedEnd_wf ev Hwf) as HVE. unfold VisitedEnd in HVE.
      destruct Hwf as (? & ? & ?). destruct Hv as (? & ? & ?).
      unfold Push. rewrite HVE.
      destruct (Z.leb_spec (Data_ ev + Size_ ev) (RefData chunk)); [|lia].
      destruct (Z.eqb_spec (Data_ ev) 0); simpl; [lia|].
      destruct (Evicted_ ev); simpl; rewrite wrap64_small by lia; lia. }
    simpl. destruct (Push chunk ev) as [r ev'] eqn:HP. simpl in *. subst r.
    specialize (IH ev' (RefData chunk + RefSize chunk) Hwf' ltac:(lia) Hrest Hpos
                  (or_intror Hnz)).
    destruct (RunCalls throws calls ev') as [[r ev''] t]. done.
  - simpl in Hfw, Hpos, Hne. simpl.
    pose proof (MaybeEvict_wf throws force ev Hwf) as Hwf'.
    destruct (MaybeEvict_range throws force ev) as (HD & HS & _).
    destruct (MaybeEvict throws force ev) as [t1 ev'] eqn:HM. simpl in *.
    specialize (IH ev' lastEnd Hwf' ltac:(lia) Hfw Hpos ltac:(rewrite HS; done)).
    destruct (RunCalls throws calls ev') as [[r ev''] t]. done.
Qed.

(** C3 (amended). The loader's threshold is 16 MiB.  [MaybeEvict(false)]
    does nothing while the flag is set or the visited length is below the
    threshold; otherwise it issues exactly one advisory, over the visited
    range, and sets the flag.  Once the flag is set every further call does
    nothing until a push clears it, so that between two pushes a span is
    advised at most once.  [MaybeEvict(true)] issues the advisory whenever
    the flag is not set, whatever the length, and does nothing exactly when
    the flag is already set.  On the initial state, in which nothing was
    pushed, it still issues the advisory, over the empty range at the null
    base, and sets the flag; after pushes of non-empty chunks the advised
    range is never empty. *)
Theorem MaybeEvict_threshold (throws : Z → Z → bool) :
  MinSizeInBytesToEvict_ DoEvictor = 16 * 1024 * 1024 ∧
  (∀ ev, Evicted_ ev = true ∨ Size_ ev < MinSizeInBytesToEvict_ ev →
         MaybeEvict throws false ev = ([], ev)) ∧
  (∀ ev, Evicted_ ev = false → MinSizeInBytesToEvict_ ev <= Size_ ev →
         MaybeEvict throws false ev = (Advise throws (Data_ ev) (Size_ ev), Flagged ev)) ∧
  (∀ ev, Evicted_ ev = false →
         MaybeEvict throws true ev = (Advise throws (Data_ ev) (Size_ ev), Flagged ev)) ∧
  (∀ data size, filter IsMadvise (Advise throws data size) = [EvMadviseEvict data size]) ∧
  (∀ force ev, Evicted_ ev = true → MaybeEvict throws force ev = ([], ev)) ∧
  (∀ forces ev,
     (length (filter (λ e, IsMadvise e = true)
                (RunCalls throws (CallMaybeEvict <$> forces) ev).2) ≤ 1)%nat) ∧
  (∀ chunk ev, Evicted_ (Push chunk ev).2 = false) ∧
  (∀ ev, MaybeEvict throws true ev = ([], ev) ↔ Evicted_ ev = true) ∧
  MaybeEvict throws true DoEvictor = (Advise throws 0 0, Flagged DoEvictor) ∧
  (∀ minSize calls,
     Forward 0 (PushedChunks calls) →
     Forall (λ c, 0 < RefSize c) (PushedChunks calls) →
     PushedChunks calls ≠ [] →
     0 < Size_ (RunCalls throws calls (NewEvictor minSize)).1.2).
Proof.
  split; [done|].
  split; [|split; [|split; [|split; [|split; [|split; [|split; [|split; [|split]]]]]]]].
  - intros ev [He|Hs]; unfold MaybeEvict.
    + by rewrite He.
    + destruct (Z.ltb_spec (Size_ ev) (MinSizeInBytesToEvict_ ev)); [|lia].
      by destruct (Evicted_ ev).
  - intros ev He Hs. unfold MaybeEvict. rewrite He.
    destruct (Z.ltb_spec (Size_ ev) (MinSizeInBytesToEvict_ ev)); [lia | done].
  - apply MaybeEvict_forced.
  - apply Advise_once.
  - intros. by apply MaybeEvict_flag_set.
  - apply RunCalls_evict_once.
  - intros chunk ev. unfold Push. by case_match.
  - intros ev. split.
    + destruct (Evicted_ ev) eqn:He; [done|].
      rewrite MaybeEvict_forced by done. unfold Advise. discriminate.
    + apply MaybeEvict_flag_set.
  - by apply MaybeEvict_forced.
  - intros minSize calls Hfw Hpos Hne.
    apply (RunCalls_size_pos throws calls (NewEvictor minSize) 0); auto.
    + apply NewEvictor_wf.
    + simpl. lia.
Qed.

Lemma MaybeEvict_threshold_witness :
  MaybeEvict NeverThrows false (mkEvictor (2 ^ 24) false 4096 100) =
    ([], mkEvictor (2 ^ 24) false 4096 100) ∧
  MaybeEvict NeverThrows false (mkEvictor (2 ^ 24) false 4096 (2 ^ 24)) =
    ([EvMadviseEvict 4096 (2 ^ 24)], mkEvictor (2 ^ 24) true 4096 (2 ^ 24)) ∧
  MaybeEvict NeverThrows true (mkEvictor (2 ^ 24) false 4096 100) =
    ([EvMadviseEvict 4096 100], mkEvictor (2 ^ 24) true 4096 100) ∧
  MaybeEvict NeverThrows true (mkEvictor (2 ^ 24) true 4096 100) =
    ([], mkEvictor (2 ^ 24) true 4096 100).
Proof.
  pose proof (MaybeEvict_threshold NeverThrows) as (_ & H1 & H2 & H3 & _ & H5 & _).
  split; [|split; [|split]].
  - apply H1. right. vm_compute. reflexivity.
  - apply (H2 (mkEvictor (2 ^ 24) false 4096 (2 ^ 24))).
    + reflexivity.
    + vm_compute. congruence.
  - apply (H3 (mkEvictor (2 ^ 24) false 4096 100)). reflexivity.
  - apply H5. reflexivity.
Defined.

(** C3, as claimed, fails.  On the initial state, where nothing was ever
    pushed, the forced call is not a no-op: it issues the advisory (over the
    empty range) and sets the flag.  It is a no-op after a push, once the
    span was advised.  And an advisory over an empty range is also issued
    after a push, of an empty chunk. *)
Lemma MaybeEvict_forced_noop_counterexample :
  PushedChunks [] = [] ∧
  MaybeEvict NeverThrows true DoEvictor =
    ([EvMadviseEvict 0 0], mkEvictor (2 ^ 24) true 0 0) ∧
  MaybeEvict NeverThrows true DoEvictor ≠ ([], DoEvictor) ∧
  (let calls := [CallPush (ExRef 4096 (2 ^ 24)); CallMaybeEvict false] in
   let ev := (RunCalls NeverThrows calls DoEvictor).1.2 in
   PushedChunks calls ≠ [] ∧ MaybeEvict NeverThrows true ev = ([], ev)) ∧
  (let calls := [CallPush (ExRef 4096 0)] in
   let ev := (RunCalls NeverThrows calls DoEvictor).1.2 in
   PushedChunks calls ≠ [] ∧
   MaybeEvict NeverThrows true ev =
     ([EvMadviseEvict 4096 0], mkEvictor (2 ^ 24) true 4096 0)).
Proof. vm_compute. repeat split; congruence. Qed.

(** C4 (amended). A push that passes the ordering check clears the flag
    and keeps the threshold.  If the base is null, which is the case exactly
    when no chunk at a non-null address was pushed before, the visited range
    becomes the chunk's range.  Otherwise, if the flag was set, the range
    restarts at the previous visited end, not at the chunk, and its length is
    the gap up to the chunk plus the chunk's length.  Otherwise the base is
    kept and the range ends where the chunk ends, the gap included. *)
Theorem Push_visited_range (throws : Z → Z → bool) :
  (∀ ev chunk,
     EvictorWf ev → ValidRange chunk → Data_ ev + Size_ ev <= RefData chunk →
     ∃ ev', Push chunk ev = (Ok (), ev') ∧
       Evicted_ ev' = false ∧
       MinSizeInBytesToEvict_ ev' = MinSizeInBytesToEvict_ ev ∧
       (Data_ ev = 0 → Data_ ev' = RefData chunk ∧ Size_ ev' = RefSize chunk) ∧
       (Data_ ev ≠ 0 → Evicted_ ev = true →
          Data_ ev' = Data_ ev + Size_ ev ∧
          Size_ ev' = (RefData chunk - (Data_ ev + Size_ ev)) + RefSize chunk) ∧
       (Data_ ev ≠ 0 → Evicted_ ev = false →
          Data_ ev' = Data_ ev ∧
          Size_ ev' = (RefData chunk - Data_ ev) + RefSize chunk ∧
          Data_ ev' + Size_ ev' = RefData chunk + RefSize chunk)) ∧
  (∀ minSize calls,
     PushedChunks calls = [] →
     Data_ (RunCalls throws calls (NewEvictor minSize)).1.2 = 0 ∧
     Size_ (RunCalls throws calls (NewEvictor minSize)).1.2 = 0) ∧
  (∀ minSize calls,
     PushedChunks calls ≠ [] → Forward 1 (PushedChunks calls) →
     Data_ (RunCalls throws calls (NewEvictor minSize)).1.2 ≠ 0).
Proof.
  split; [|split].
  - intros ev chunk Hwf Hv Hle.
    pose proof (VisitedEnd_wf ev Hwf) as Hend. unfold VisitedEnd in Hend.
    destruct Hwf as (Hd' & Hs' & He'). destruct Hv as (Hd & Hs & He).
    unfold Push. rewrite Hend.
    destruct (Z.leb_spec (Data_ ev + Size_ ev) (RefData chunk)); [|lia].
    eexists. split; [reflexivity|].
    destruct (Z.eqb_spec (Data_ ev) 0); simpl.
    + repeat split; done.
    + destruct (Evicted_ ev); simpl; rewrite wrap64_small by lia;
        repeat split; intros; try done; lia.
  - intros minSize calls.
    cut (∀ ev, Data_ ev = 0 → Size_ ev = 0 → PushedChunks calls = [] →
           Data_ (RunCalls throws calls ev).1.2 = 0 ∧
           Size_ (RunCalls throws calls ev).1.2 = 0).
    { intros Hgen. by apply Hgen. }
    induction calls as [|[chunk|force] calls IH]; intros ev HD HS Hnil; simpl in *.
    + done.
    + done.
    + destruct (MaybeEvict_range throws force ev) as (HD' & HS' & _).
      destruct (MaybeEvict throws force ev) as [t1 ev'] eqn:HM. simpl in *.
      specialize (IH ev' ltac:(congruence) ltac:(congruence) Hnil).
      destruct (RunCalls throws calls ev') as [[r ev''] t]. done.
  - intros minSize calls Hne Hfw.
    cut (∀ calls ev lastEnd, EvictorWf ev → Data_ ev + Size_ ev <= lastEnd →
           0 < lastEnd → (PushedChunks calls ≠ [] ∨ Data_ ev ≠ 0) →
           Forward lastEnd (PushedChunks calls) →
           Data_ (RunCalls throws calls ev).1.2 ≠ 0).
    { intros Hgen. apply (Hgen calls (NewEvictor minSize) 1); auto.
      - apply NewEvictor_wf.
      - simpl. lia.
      - lia. }
    clear. induction calls as [|[chunk|force] calls IH];
      intros ev lastEnd Hwf Hle Hpos Hne Hfw.
    + simpl. by destruct Hne.
    + simpl in Hfw. destruct Hfw as (Hv & Hstart & Hrest).
      destruct (Push_end chunk ev Hwf Hv ltac:(lia)) as (Hok & Hwf' & Hend).
      assert (Data_ (Push chunk ev).2 ≠ 0) as Hnz.
      { pose proof (VisitedEnd_wf ev Hwf) as HVE. unfold VisitedEnd in HVE.
        destruct Hwf as (? & ? & ?). unfold Push. rewrite HVE.
        destruct (Z.leb_spec (Data_ ev + Size_ ev) (RefData chunk)); [|lia].
        destruct (Z.eqb_spec (Data_ ev) 0); simpl; [lia|].
        destruct (Evicted_ ev); simpl; lia. }
      simpl. destruct (Push chunk ev) as [r ev'] eqn:HP. simpl in *. subst r.
      destruct Hv as (? & ? & ?).
      specialize (IH ev' (RefData chunk + RefSize chunk) Hwf' ltac:(lia) ltac:(lia)
                    (or_intror Hnz) Hrest).
      destruct (RunCalls throws calls ev') as [[r ev''] t]. done.
    + simpl in Hfw, Hne. simpl.
      pose proof (MaybeEvict_wf throws force ev Hwf) as Hwf'.
      destruct (MaybeEvict_range throws force ev) as (HD & HS & _).
      destruct (MaybeEvict throws force ev) as [t1 ev'] eqn:HM. simpl in *.
      specialize (IH ev' lastEnd Hwf' ltac:(lia) Hpos ltac:(rewrite HD; done) Hfw).
      destruct (RunCalls throws calls ev') as [[r ev''] t]. done.
Qed.

Lemma Push_visited_range_witness :
  ∃ ev', Push (ExRef 120 5) (mkEvictor 16 true 100 10) = (Ok (), ev') ∧
         Data_ ev' = 110 ∧ Size_ ev' = 15 ∧ Evicted_ ev' = false.
Proof.
  destruct (proj1 (Push_visited_range NeverThrows)
              (mkEvictor 16 true 100 10) (ExRef 120 5))
    as (ev' & HP & Hflag & _ & _ & Hev & _).
  - vm_compute. repeat split; congruence.
  - vm_compute. repeat split; congruence.
  - vm_compute. congruence.
  - exists ev'. destruct Hev as (HD & HS); [vm_compute; congruence | reflexivity |].
    repeat split; assumption.
Defined.

(** C4, as claimed, fails: after an eviction the range does not restart at
    the pushed chunk (120) but at the previous visited end (110). *)
Lemma Push_after_evict_counterexample :
  let calls := [CallPush (ExRef 100 10); CallMaybeEvict true] in
  let ev := (RunCalls NeverThrows calls DoEvictor).1.2 in
  Evicted_ ev = true ∧
  Push (ExRef 120 5) ev = (Ok (), mkEvictor (2 ^ 24) false 110 15) ∧
  Data_ (Push (ExRef 120 5) ev).2 ≠ RefData (ExRef 120 5).
Proof. vm_compute. repeat split; congruence. Qed.

(** ** The constructor *)

Lemma Ensure_path `{TCollaborators} path e :
  Ensure (negb (Inited path) || CheckExists path) e =
    if decide (Missing path) then Throw e else Ok ().
Proof.
  unfold Ensure. case_decide as Hm; unfold Missing in Hm.
  - destruct Hm as [-> ->]. done.
  - destruct (Inited path), (CheckExists path); simpl; naive_solver.
Qed.

Lemma Construct_unfold `{TCollaborators} args pool :
  LoadQuantizedPool (PoolPath args) = Ok pool →
  Construct args =
    if decide (DocumentCount pool <= 0) then Throw PoolIsEmpty
    else if decide (MaxUi32 < DocumentCount pool) then Throw (TooManyObjects MaxUi32)
    else if decide (Missing (PairsFilePath args)) then Throw PairsFilePathDoesNotExist
    else if decide (Missing (GroupWeightsFilePath args))
      then Throw GroupWeightsFilePathDoesNotExist
    else if decide (Missing (BaselineFilePath args)) then Throw BaselineFilePathDoesNotExist
    else
      let dataMetaInfo :=
        GetDataMetaInfo pool (Inited (GroupWeightsFilePath args))
          (Inited (PairsFilePath args)) in
      if decide (FeatureCount dataMetaInfo <= 0) then Throw PoolShouldHaveAtLeastOneFactor
      else
        '(dataMetaInfo', isFeatureIgnored) ←
          ProcessIgnoredFeaturesList
            (IgnoredFeatures args ++ GetIgnoredFlatIndices pool) dataMetaInfo;
        Ok (mkLoader (wrap32 (DocumentCount pool)) pool (PairsFilePath args)
              (GroupWeightsFilePath args) (BaselineFilePath args)
              (ArgsObjectsOrder args) dataMetaInfo' isFeatureIgnored).
Proof.
  intros Hload. unfold Construct. rewrite Hload. simpl.
  rewrite !Ensure_path. unfold Ensure.
  destruct (Z.ltb_spec 0 (DocumentCount pool)),
    (Z.leb_spec (DocumentCount pool) MaxUi32),
    (Z.ltb_spec 0 (FeatureCount
       (GetDataMetaInfo pool (Inited (GroupWeightsFilePath args))
          (Inited (PairsFilePath args)))));
    repeat case_decide; simpl; try done; lia.
Qed.

(** C7. With the pool loaded, the constructor throws when the document count
    is zero, when it exceeds [Max<ui32>()], and when a configured pairs,
    group-weights or baseline path does not exist; whenever the constructor
    throws, a caller that constructs and then streams has made no call at
    all on the visitor.  A loader that is constructed holds the document
    count reduced to 32 bits, which then is the count itself, and all its
    configured paths exist. *)
Theorem Construct_validates `{TCollaborators} (args : TDatasetLoaderPullArgs)
    (pool : TQuantizedPool) :
  LoadQuantizedPool (PoolPath args) = Ok pool →
  (DocumentCount pool = 0 → Construct args = Throw PoolIsEmpty) ∧
  (MaxUi32 < DocumentCount pool → Construct args = Throw (TooManyObjects MaxUi32)) ∧
  (0 < DocumentCount pool <= MaxUi32 →
   Missing (PairsFilePath args) ∨ Missing (GroupWeightsFilePath args) ∨
     Missing (BaselineFilePath args) →
   ∃ e, Construct args = Throw e ∧
        e ∈ [PairsFilePathDoesNotExist; GroupWeightsFilePathDoesNotExist;
             BaselineFilePathDoesNotExist]) ∧
  (∀ e, Construct args = Throw e → LoadAndDo args = (Throw e, [])) ∧
  (∀ ld, Construct args = Ok ld →
     0 < DocumentCount pool <= MaxUi32 ∧
     ObjectCount ld = wrap32 (DocumentCount pool) ∧
     ObjectCount ld = DocumentCount pool ∧
     QuantizedPool ld = pool ∧
     ¬ Missing (PairsFilePath args) ∧ ¬ Missing (GroupWeightsFilePath args) ∧
     ¬ Missing (BaselineFilePath args)).
Proof.
  intros Hload. pose proof (Construct_unfold args pool Hload) as HC.
  split; [|split; [|split; [|split]]].
  - intros H0. rewrite HC. case_decide; [done | lia].
  - intros Hbig. rewrite HC. unfold MaxUi32 in *. repeat case_decide; try done; lia.
  - intros Hrange Hmiss. rewrite HC.
    case_decide; [lia|]. case_decide; [lia|].
    case_decide; [eexists; split; [done | repeat constructor]|].
    case_decide; [eexists; split; [done | repeat constructor]|].
    case_decide; [eexists; split; [done | repeat constructor]|].
    destruct Hmiss as [?|[?|?]]; done.
  - intros e He. unfold LoadAndDo. by rewrite He.
  - intros ld. rewrite HC.
    repeat (case_decide; [discriminate|]). simpl.
    case_decide; [discriminate|].
    destruct (ProcessIgnoredFeaturesList _ _) as [[meta mask]| |]; simpl; [|done..].
    intros [= <-]. simpl. unfold MaxUi32 in *.
    rewrite wrap32_small by lia. repeat split; try done; lia.
Qed.

Lemma Construct_validates_witness :
  @Construct (ExCollaborators (ExPoolOfCount (2 ^ 32))) (ExArgs []) =
    Throw (TooManyObjects MaxUi32) ∧
  @Construct (ExCollaborators (ExPoolOfCount 0)) (ExArgs []) = Throw PoolIsEmpty ∧
  ∃ e, @Construct (ExCollaborators ExPool)
         (mkArgs (mkPath true 1) NoPath NoPath (mkPath true 5) Ordered []) = Throw e.
Proof.
  split; [|split].
  - apply (proj1 (proj2 (@Construct_validates (ExCollaborators (ExPoolOfCount (2 ^ 32)))
                           (ExArgs []) (ExPoolOfCount (2 ^ 32)) eq_refl))).
    vm_compute. reflexivity.
  - apply (proj1 (@Construct_validates (ExCollaborators (ExPoolOfCount 0))
                    (ExArgs []) (ExPoolOfCount 0) eq_refl)).
    reflexivity.
  - destruct (proj1 (proj2 (proj2 (@Construct_validates (ExCollaborators ExPool)
        (mkArgs (mkPath true 1) NoPath NoPath (mkPath true 5) Ordered [])
        ExPool eq_refl)))) as (e & He & _).
    + vm_compute. split; congruence.
    + right. right. vm_compute. split; reflexivity.
    + exists e. exact He.
Defined.

(** ** The loop of [Do] *)

Section LoopFacts.

Context `{TCollaborators}.
Variable ld : TCBQuantizedDataLoader.
Variables flat base : gmap Z Z.

(** The loop body, step by step: the push (in mapped-file mode), the
    dispatch, and the deferred [MaybeEvict(false)]. *)
Lemma ProcessChunk_eq r st :
  ProcessChunk ld flat base r st =
    let pushed := if bool_decide (ColumnsDump (QuantizedPool ld) = [])
                  then Push r (Evictor st) else (Ok (), Evictor st) in
    match pushed.1 with
    | Ok _ =>
        let m := MaybeEvict MadviseEvictThrows false pushed.2 in
        (DispatchChunk ld flat base r ≫= (λ _, Ok ()),
         mkDoState m.2 (Trace st ++ CallsOf (DispatchChunk ld flat base r) ++ m.1))
    | Throw e => (Throw e, mkDoState pushed.2 (Trace st))
    | Undefined u => (Undefined u, mkDoState pushed.2 (Trace st))
    end.
Proof.
  unfold ProcessChunk, mbind, M_bind, Deferred, EvictorPush, EvictorMaybeEvict,
    LiftRes, Emit, mret, M_ret.
  case_bool_decide; simpl.
  - destruct (Push r (Evictor st)) as [[[]| |] ev1]; simpl; try done.
    destruct (DispatchChunk ld flat base r) as [es| |]; simpl;
      destruct (MaybeEvict MadviseEvictThrows false ev1) as [t ev2]; simpl;
      by rewrite ?app_assoc.
  - destruct (DispatchChunk ld flat base r) as [es| |]; simpl;
      destruct (MaybeEvict MadviseEvictThrows false (Evictor st)) as [t ev2]; simpl;
      by rewrite ?app_assoc.
Qed.

Lemma MaybeEvict_system force ev :
  Forall (λ e, IsSystemEvent e = true) (MaybeEvict MadviseEvictThrows force ev).1.
Proof.
  unfold MaybeEvict, Advise. repeat case_match; simpl; repeat constructor.
Qed.

(** Where an event of the trace after one loop step comes from. *)
Lemma ProcessChunk_provenance r st e :
  e ∈ Trace (ProcessChunk ld flat base r st).2 →
  e ∈ Trace st ∨ IsSystemEvent e = true ∨
  ∃ es, DispatchChunk ld flat base r = Ok es ∧ e ∈ es.
Proof.
  rewrite ProcessChunk_eq. simpl.
  destruct (if bool_decide _ then _ else _) as [[[]| |] ev1]; simpl; auto.
  rewrite !elem_of_app. intros [?|[Hd|Hm]]; auto.
  - right; right. destruct (DispatchChunk ld flat base r) as [es| |]; simpl in Hd.
    + eauto.
    + by apply elem_of_nil in Hd.
    + by apply elem_of_nil in Hd.
  - right; left.
    pose proof (MaybeEvict_system false ev1) as Hs.
    rewrite Forall_forall in Hs. by apply Hs.
Qed.

Lemma ForEach_provenance refs : ∀ st e,
  e ∈ Trace (ForEach (ProcessChunk ld flat base) refs st).2 →
  e ∈ Trace st ∨ IsSystemEvent e = true ∨
  ∃ r es, r ∈ refs ∧ DispatchChunk ld flat base r = Ok es ∧ e ∈ es.
Proof.
  induction refs as [|r refs IH]; intros st e; simpl.
  - auto.
  - unfold mbind, M_bind.
    destruct (ProcessChunk ld flat base r st) as [res st1] eqn:HB.
    assert (Hstep : e ∈ Trace st1 →
              e ∈ Trace st ∨ IsSystemEvent e = true ∨
              ∃ r0 es, r0 ∈ r :: refs ∧ DispatchChunk ld flat base r0 = Ok es ∧ e ∈ es).
    { intros Hin. pose proof (ProcessChunk_provenance r st e) as Hp.
      rewrite HB in Hp. destruct (Hp Hin) as [?|[?|(es & ? & ?)]]; auto.
      right; right. exists r, es. split; [by left | done]. }
    destruct res as [[]| |]; simpl; auto.
    intros Hin. destruct (IH st1 e Hin) as [?|[?|(r0 & es & ? & ? & ?)]]; auto.
    right; right. exists r0, es. split; [by right | done].
Qed.

End LoopFacts.

(** ** Where the parts in the trace of [Do] come from *)

Section DoFacts.

Context `{TCollaborators}.
Variable ld : TCBQuantizedDataLoader.

Lemma AddChunk_parts chunk columnType flatFeatureIdx baselineIdx es :
  AddChunk chunk columnType flatFeatureIdx baselineIdx = Ok es →
  Forall (λ e, IsPartEvent e = true) es.
Proof.
  unfold AddChunk, AddQuantizedFeatureChunk.
  destruct columnType, flatFeatureIdx, baselineIdx; intros [= <-]; repeat constructor.
Qed.

Lemma StreamM_provenance st e :
  e ∈ Trace (StreamM ld st).2 → IsPartEvent e = true →
  e ∈ Trace st ∨
  ∃ refs r es,
    GatherAndSortChunks (QuantizedPool ld) = Ok refs ∧ r ∈ refs ∧
    DispatchChunk ld (GetColumnIndexToFlatIndexMap (QuantizedPool ld))
      (GetColumnIndexToBaselineIndexMap (QuantizedPool ld)) r = Ok es ∧
    e ∈ es.
Proof.
  unfold StreamM, mbind, M_bind, Emit, LiftRes. simpl.
  destruct (GatherAndSortChunks (QuantizedPool ld)) as [refs| |]; simpl.
  - intros Hin Hpart.
    destruct (ForEach_provenance ld _ _ refs _ e Hin) as [Hst|[Hsys|(r & es & ? & ? & ?)]].
    + simpl in Hst. apply elem_of_app in Hst as [?|Hs]; [by left|].
      apply list_elem_of_singleton in Hs. by subst e.
    + by destruct e.
    + right. by exists refs, r, es.
  - intros Hin Hpart. apply elem_of_app in Hin as [?|Hs]; [by left|].
    apply list_elem_of_singleton in Hs. by subst e.
  - intros Hin Hpart. apply elem_of_app in Hin as [?|Hs]; [by left|].
    apply list_elem_of_singleton in Hs. by subst e.
Qed.

Lemma not_part_tail (l1 l2 : list Event) e :
  Forall (λ e, IsPartEvent e = false) l2 →
  e ∈ l1 ++ l2 → IsPartEvent e = true → e ∈ l1.
Proof.
  rewrite Forall_forall. intros Hl2 [?|Hin]%elem_of_app Hp; [done|].
  apply Hl2 in Hin. congruence.
Qed.

Lemma DoM_parts st e :
  e ∈ Trace (DoM ld st).2 → IsPartEvent e = true → e ∈ Trace (StreamM ld st).2.
Proof.
  unfold DoM, mbind at 1, M_bind at 1.
  destruct (StreamM ld st) as [[[]| |] st1]; simpl; [|done..].
  unfold mbind, M_bind, EvictorMaybeEvict, LiftRes, Emit.
  pose proof (MaybeEvict_system true (Evictor st1)) as Hsys.
  destruct (MaybeEvict MadviseEvictThrows true (Evictor st1)) as [t ev1]. simpl in *.
  assert (Ht : Forall (λ e, IsPartEvent e = false) t).
  { eapply Forall_impl; [exact Hsys|]. by intros []. }
  assert (Ho : ∀ (f : Z → Event) (o : option Z),
             (∀ z, IsPartEvent (f z) = false) →
             Forall (λ e, IsPartEvent e = false) (option_list (f <$> o))).
  { intros f [z|] Hf; simpl; repeat constructor. apply Hf. }
  intros Hin Hp.
  destruct (SetGroupWeights _ _) as [w| |]; simpl in Hin;
    [|by eapply not_part_tail..].
  destruct (SetPairs _ _) as [p| |]; simpl in Hin.
  2,3: eapply not_part_tail; [exact Ht| |done];
       eapply not_part_tail; [|exact Hin|done]; by apply Ho.
  assert (Hfin : Forall (λ e, IsPartEvent e = false) [EvFinish]) by by repeat constructor.
  destruct (SetBaseline _ _ _) as [b| |]; simpl in Hin.
  - eapply not_part_tail; [exact Ht| |done].
    eapply not_part_tail; [by apply (Ho EvSetGroupWeights w)| |done].
    eapply not_part_tail; [by apply (Ho EvSetPairs p)| |done].
    eapply not_part_tail; [by apply (Ho EvSetBaseline b)| |done].
    eapply not_part_tail; [exact Hfin|exact Hin|done].
  - eapply not_part_tail; [exact Ht| |done].
    eapply not_part_tail; [by apply (Ho EvSetGroupWeights w)| |done].
    eapply not_part_tail; [by apply (Ho EvSetPairs p)|exact Hin|done].
  - eapply not_part_tail; [exact Ht| |done].
    eapply not_part_tail; [by apply (Ho EvSetGroupWeights w)| |done].
    eapply not_part_tail; [by apply (Ho EvSetPairs p)|exact Hin|done].
Qed.

Lemma Do_provenance e :
  e ∈ (Do ld).2 → IsPartEvent e = true →
  ∃ refs r es,
    GatherAndSortChunks (QuantizedPool ld) = Ok refs ∧ r ∈ refs ∧
    DispatchChunk ld (GetColumnIndexToFlatIndexMap (QuantizedPool ld))
      (GetColumnIndexToBaselineIndexMap (QuantizedPool ld)) r = Ok es ∧
    e ∈ es.
Proof.
  unfold Do. destruct (DoM ld (mkDoState DoEvictor [])) as [res st1] eqn:HD.
  simpl. intros Hin Hp.
  pose proof (DoM_parts (mkDoState DoEvictor []) e) as Hparts.
  rewrite HD in Hparts. specialize (Hparts Hin Hp).
  destruct (StreamM_provenance _ e Hparts Hp) as [Hnil|?]; [|done].
  by apply elem_of_nil in Hnil.
Qed.

End DoFacts.

(** ** The checks before dispatch *)

Lemma StreamingEnsure_LetThrough columnType :
  StreamingEnsure columnType = true ↔ columnType ∈ LetThrough.
Proof.
  unfold LetThrough, Dispatchable.
  destruct columnType; vm_compute; split; intros Hx; try done;
    try (repeat first [apply list_elem_of_here | apply list_elem_of_further]; fail);
    repeat (apply elem_of_cons in Hx as [Hx|Hx]; [discriminate|]);
    by apply elem_of_nil in Hx.
Qed.

(** C1 (amended). For a chunk that reaches the check in the loop (not a
    string pseudo-column, not a legacy [SampleId] column) the check lets
    through eight types: the seven the dispatcher has a part for, and
    [Categ].  Any other type throws there, naming the type and the column
    index.  None of the seven throws at all.  A [Categ] chunk passes the
    check and, unless its feature is ignored, is thrown out later by the
    dispatcher as an unexpected column type. *)
Theorem DispatchChunk_type_check (ld : TCBQuantizedDataLoader) (flat base : gmap Z Z)
    (r : TChunkRef) (columnType : EColumn) :
  IsStringColumn (QuantizedPool ld) (LocalIndex r) = false →
  At (ColumnTypes (QuantizedPool ld)) (LocalIndex r) = Ok columnType →
  columnType ≠ SampleId →
  (StreamingEnsure columnType = true ↔ columnType ∈ LetThrough) ∧
  (columnType ∉ LetThrough →
     DispatchChunk ld flat base r =
       Throw (ExpectedDispatchableColumn columnType (ColumnIndex r))) ∧
  (columnType ∈ Dispatchable → ∀ e, DispatchChunk ld flat base r ≠ Throw e) ∧
  (columnType = Categ →
     match flat !! ColumnIndex r with
     | Some idx => At (IsFeatureIgnored ld) idx
     | None => Ok false
     end = Ok false →
     DispatchChunk ld flat base r = Throw (UnexpectedColumnType Categ)).
Proof.
  intros Hstr Hty Hsample.
  split; [apply StreamingEnsure_LetThrough|].
  unfold DispatchChunk. rewrite Hstr, Hty. simpl.
  rewrite bool_decide_eq_false_2 by done.
  split; [|split].
  - intros Hnot. destruct (StreamingEnsure columnType) eqn:HE; [|done].
    by apply StreamingEnsure_LetThrough in HE.
  - intros Hin e.
    assert (HE : StreamingEnsure columnType = true).
    { apply StreamingEnsure_LetThrough. by right. }
    rewrite HE. simpl.
    assert (Hmask : ∀ e', match flat !! ColumnIndex r with
                          | Some idx => At (IsFeatureIgnored ld) idx
                          | None => Ok false
                          end ≠ Throw e').
    { intros e'. destruct (flat !! ColumnIndex r); [|done].
      unfold At. by repeat case_match. }
    destruct (match flat !! ColumnIndex r with Some _ => _ | None => _ end)
      as [[|]|e'|]; simpl; try done; [|by destruct (Hmask e')].
    unfold Dispatchable in Hin.
    repeat (apply elem_of_cons in Hin as [->|Hin];
            [unfold AddChunk; by repeat case_match|]).
    by apply elem_of_nil in Hin.
  - intros -> Hign. simpl. rewrite Hign. done.
Qed.

Lemma DispatchChunk_type_check_witness :
  DispatchChunk ExLoader ExFlat ∅ ExCategRef = Throw (UnexpectedColumnType Categ) ∧
  DispatchChunk (mkLoader 3 (ExPoolWith [Num; Label; Text; SampleId] []) NoPath NoPath
                   NoPath Ordered (mkMetaInfo 2 []) [false; false])
                ExFlat ∅ ExCategRef =
    Throw (ExpectedDispatchableColumn Text 2).
Proof.
  split.
  - apply (DispatchChunk_type_check ExLoader ExFlat ∅ ExCategRef Categ);
      vm_compute; congruence.
  - apply (DispatchChunk_type_check
             (mkLoader 3 (ExPoolWith [Num; Label; Text; SampleId] []) NoPath NoPath
                NoPath Ordered (mkMetaInfo 2 []) [false; false])
             ExFlat ∅ ExCategRef Text); [vm_compute; congruence..|].
    unfold LetThrough, Dispatchable. intros Hin.
    repeat (apply elem_of_cons in Hin as [Hin|Hin]; [discriminate|]).
    by apply elem_of_nil in Hin.
Defined.

(** C1, as claimed, fails: a [Categ] chunk reaches the dispatch point, is
    none of the seven dispatchable types, passes the check in the loop, and
    the load ends with the dispatcher's exception, not with the one of the
    check. *)
Lemma Categ_passes_check_counterexample :
  IsStringColumn ExPool (LocalIndex ExCategRef) = false ∧
  At (ColumnTypes ExPool) (LocalIndex ExCategRef) = Ok Categ ∧
  (Categ ∉ Dispatchable) ∧
  StreamingEnsure Categ = true ∧
  DispatchChunk ExLoader ExFlat ∅ ExCategRef = Throw (UnexpectedColumnType Categ) ∧
  (@LoadAndDo (ExCollaborators ExPool) (ExArgs [])).1 =
    Throw (UnexpectedColumnType Categ).
Proof.
  repeat split; try (vm_compute; reflexivity).
  unfold Dispatchable. intros Hin.
  repeat (apply elem_of_cons in Hin as [Hin|Hin]; [discriminate|]).
  by apply elem_of_nil in Hin.
Qed.

(** ** String pseudo-columns and ignored features *)


Lemma IsStringColumn_fake pool localIdx :
  HasStringColumns pool = true → localIdx ∈ FakeIndices pool →
  IsStringColumn pool localIdx = true.
Proof.
  intros Hhas Hin. unfold IsStringColumn, FakeIndices in *. rewrite Hhas. simpl.
  apply elem_of_cons in Hin as [->|Hin]; [by rewrite bool_decide_eq_true_2|].
  apply elem_of_cons in Hin as [->|Hin];
    [rewrite (bool_decide_eq_true_2 (_ = StringGroupIdLocalIndex pool)) by done;
     by rewrite orb_true_r|].
  apply list_elem_of_singleton in Hin as ->.
  rewrite (bool_decide_eq_true_2 (_ = StringSubgroupIdLocalIndex pool)) by done.
  by rewrite !orb_true_r.
Qed.




Lemma ProcessIgnoredFeaturesList_mask ignored meta meta' mask :
  ProcessIgnoredFeaturesList ignored meta = Ok (meta', mask) →
  meta' = meta ∧
  Z.of_nat (length mask) = Z.max 0 (FeatureCount meta) ∧
  ∀ f b, At mask f = Ok b → b = bool_decide (f ∈ ignored).
Proof.
  unfold ProcessIgnoredFeaturesList. case_match; [done|]. intros [= <- <-].
  split; [done|]. split.
  - rewrite length_fmap, length_seq. lia.
  - intros f b. unfold At. case_decide as Hf; [|done].
    rewrite list_lookup_fmap.
    destruct (seq 0 (Z.to_nat (FeatureCount meta)) !! Z.to_nat f) as [i|] eqn:Hi;
      simpl; [|done].
    apply lookup_seq in Hi as [-> _]. simpl. rewrite Z2Nat.id by done. congruence.
Qed.

Lemma Construct_mask `{TCollaborators} args ld :
  Construct args = Ok ld →
  ∃ pool, LoadQuantizedPool (PoolPath args) = Ok pool ∧ QuantizedPool ld = pool ∧
    Z.of_nat (length (IsFeatureIgnored ld)) = Z.max 0 (FeatureCount (DataMetaInfo ld)) ∧
    ∀ f b, At (IsFeatureIgnored ld) f = Ok b →
           b = bool_decide (f ∈ IgnoredFeatures args ++ GetIgnoredFlatIndices pool).
Proof.
  destruct (LoadQuantizedPool (PoolPath args)) as [pool| |] eqn:Hload.
  2,3: unfold Construct; rewrite Hload; done.
  rewrite (Construct_unfold args pool Hload).
  repeat (case_decide; [discriminate|]). simpl.
  case_decide; [discriminate|].
  destruct (ProcessIgnoredFeaturesList _ _) as [[meta mask]| |] eqn:HP; simpl; [|done..].
  intros [= <-]. simpl. exists pool.
  destruct (ProcessIgnoredFeaturesList_mask _ _ _ _ HP) as (-> & Hlen & Hbits).
  done.
Qed.

Lemma DispatchChunk_float_part ld flat base r es f off bits part :
  DispatchChunk ld flat base r = Ok es →
  EvAddFloatFeaturePart f off bits part ∈ es →
  flat !! ColumnIndex r = Some f ∧ At (IsFeatureIgnored ld) f = Ok false.
Proof.
  unfold DispatchChunk.
  destruct (IsStringColumn _ _); [intros [= <-] Hin; by apply elem_of_nil in Hin|].
  destruct (At (ColumnTypes _) _) as [columnType| |]; simpl; [|done..].
  case_bool_decide; [intros [= <-] Hin; by apply elem_of_nil in Hin|].
  destruct (Ensure _ _) as [[]| |]; simpl; [|done..].
  destruct (flat !! ColumnIndex r) as [idx|] eqn:Hflat.
  - destruct (At (IsFeatureIgnored ld) idx) as [[|]| |] eqn:Hmask; simpl; try done.
    + intros [= <-] Hin; by apply elem_of_nil in Hin.
    + unfold AddChunk, AddQuantizedFeatureChunk.
      destruct columnType; repeat case_match; intros [= <-] Hin; try done;
        apply elem_of_cons in Hin as [Hin|Hin]; try discriminate;
        try (by apply elem_of_nil in Hin).
      injection Hin as -> _ _ _. done.
  - simpl. unfold AddChunk.
    destruct columnType; repeat case_match; intros [= <-] Hin; try done;
      apply elem_of_cons in Hin as [Hin|Hin]; try discriminate;
      by apply elem_of_nil in Hin.
Qed.

Lemma DispatchChunk_ignored ld flat base r f :
  flat !! ColumnIndex r = Some f →
  (∀ b, At (IsFeatureIgnored ld) f = Ok b → b = true) →
  DispatchChunk ld flat base r = Ok [] ∨
  (∃ columnType, DispatchChunk ld flat base r =
     Throw (ExpectedDispatchableColumn columnType (ColumnIndex r))) ∨
  DispatchChunk ld flat base r = Undefined IndexOutOfRange.
Proof.
  intros Hflat Hbit. unfold DispatchChunk.
  destruct (IsStringColumn _ _); [by left|].
  assert (Hat : ∀ {A} (v : list A) i, (∃ x, At v i = Ok x) ∨ At v i = Undefined IndexOutOfRange).
  { intros A v i. unfold At. repeat case_match; eauto. }
  destruct (Hat _ (ColumnTypes (QuantizedPool ld)) (LocalIndex r)) as [[columnType ->]| ->];
    cbn [mbind Res_bind]; [|by auto].
  case_bool_decide; [by left|].
  unfold Ensure. destruct (StreamingEnsure columnType); cbn [mbind Res_bind]; [|by eauto].
  rewrite Hflat.
  destruct (Hat _ (IsFeatureIgnored ld) f) as [[b Hb]|Hb]; rewrite Hb;
    cbn [mbind Res_bind]; [|by auto].
  rewrite (Hbit b Hb). by left.
Qed.

(** C8. With the pool loaded, for a feature index in the caller's list of
    ignored features or in the list embedded in the pool, constructing the
    loader and streaming never delivers a quantized-feature part for that
    index; the bit of that index in the loader's bitset is set when the
    index is below the feature count; and a chunk whose column maps to that
    index never reaches the dispatcher: the loop step skips it, unless one
    of the checks that come before the ignored-feature test already ended
    the load. *)
Theorem Do_ignored_features `{TCollaborators} (args : TDatasetLoaderPullArgs)
    (pool : TQuantizedPool) (f : Z) :
  LoadQuantizedPool (PoolPath args) = Ok pool →
  f ∈ IgnoredFeatures args ∨ f ∈ GetIgnoredFlatIndices pool →
  (∀ off bits part, EvAddFloatFeaturePart f off bits part ∉ (LoadAndDo args).2) ∧
  (∀ ld, Construct args = Ok ld →
     (0 <= f < FeatureCount (DataMetaInfo ld) →
        At (IsFeatureIgnored ld) f = Ok true) ∧
     (∀ flat base r,
        flat !! ColumnIndex r = Some f →
        DispatchChunk ld flat base r = Ok [] ∨
        (∃ columnType, DispatchChunk ld flat base r =
           Throw (ExpectedDispatchableColumn columnType (ColumnIndex r))) ∨
        DispatchChunk ld flat base r = Undefined IndexOutOfRange)).
Proof.
  intros Hload Hin.
  assert (Hbits : ∀ ld, Construct args = Ok ld →
            Z.of_nat (length (IsFeatureIgnored ld)) =
              Z.max 0 (FeatureCount (DataMetaInfo ld)) ∧
            ∀ b, At (IsFeatureIgnored ld) f = Ok b → b = true).
  { intros ld Hld. destruct (Construct_mask args ld Hld) as (pool' & Hl & _ & Hlen & Hb).
    rewrite Hload in Hl. injection Hl as <-. split; [done|].
    intros b Hm. rewrite (Hb f b Hm). apply bool_decide_eq_true_2.
    apply elem_of_app. done. }
  split.
  - intros off bits part Hev. unfold LoadAndDo in Hev.
    destruct (Construct args) as [ld| |] eqn:Hld; simpl in Hev;
      [|by apply elem_of_nil in Hev..].
    destruct (Do_provenance ld _ Hev eq_refl) as (refs & r & es & _ & _ & HD & He).
    destruct (DispatchChunk_float_part _ _ _ _ _ _ _ _ _ HD He) as [_ Hm].
    by apply (proj2 (Hbits ld eq_refl)) in Hm.
  - intros ld Hld. destruct (Hbits ld Hld) as [Hlen Hb]. split.
    + intros Hf. unfold At in *. case_decide; [|lia].
      destruct (IsFeatureIgnored ld !! Z.to_nat f) as [b|] eqn:Hlk.
      * by rewrite (Hb b eq_refl).
      * apply lookup_ge_None in Hlk. lia.
    + intros flat base r Hflat. by apply (DispatchChunk_ignored ld flat base r f).
Qed.

Lemma Do_ignored_features_witness :
  (EvAddFloatFeaturePart 1 0 8 (mkArrayRef 1040 3)
     ∉ (@LoadAndDo (ExCollaborators ExPool) (ExArgs [1])).2) ∧
  (@LoadAndDo (ExCollaborators ExPool) (ExArgs [1])).1 = Ok ().
Proof.
  split.
  - apply (proj1 (@Do_ignored_features (ExCollaborators ExPool) (ExArgs [1]) ExPool 1
                    eq_refl (or_introl (list_elem_of_here 1 [])))).
  - vm_compute. reflexivity.
Defined.

(** ** Pools held in memory *)

Section InMemory.

Context `{TCollaborators}.
Variable ld : TCBQuantizedDataLoader.
Hypothesis InMemory : ColumnsDump (QuantizedPool ld) ≠ [].

Lemma filter_system_calls (d : Res (list Event)) flat base r :
  d = DispatchChunk ld flat base r →
  filter (λ e, IsSystemEvent e = true) (CallsOf d) = [].
Proof.
  intros ->. unfold DispatchChunk.
  destruct (IsStringColumn _ _); [done|].
  destruct (At (ColumnTypes _) _) as [columnType| |]; simpl; [|done..].
  case_bool_decide; [done|].
  destruct (Ensure _ _) as [[]| |]; simpl; [|done..].
  destruct (match flat !! ColumnIndex r with Some _ => _ | None => _ end)
    as [[|]| |]; simpl; try done.
  destruct (AddChunk _ _ _ _) as [es| |] eqn:HA; simpl; [|done..].
  apply AddChunk_parts in HA.
  induction HA as [|e es He _ IH]; [done|].
  rewrite filter_cons_False; [done|]. by destruct e.
Qed.

Lemma ProcessChunk_in_memory flat base r st :
  Evictor st = DoEvictor →
  Evictor (ProcessChunk ld flat base r st).2 = DoEvictor ∧
  filter (λ e, IsSystemEvent e = true) (Trace (ProcessChunk ld flat base r st).2) =
  filter (λ e, IsSystemEvent e = true) (Trace st).
Proof.
  intros Hev. rewrite ProcessChunk_eq.
  rewrite bool_decide_eq_false_2 by done. simpl. rewrite Hev.
  split; [done|]. simpl.
  rewrite app_nil_r, filter_app, (filter_system_calls _ flat base r eq_refl).
  by rewrite app_nil_r.
Qed.

Lemma ForEach_in_memory flat base refs : ∀ st,
  Evictor st = DoEvictor →
  Evictor (ForEach (ProcessChunk ld flat base) refs st).2 = DoEvictor ∧
  filter (λ e, IsSystemEvent e = true)
    (Trace (ForEach (ProcessChunk ld flat base) refs st).2) =
  filter (λ e, IsSystemEvent e = true) (Trace st).
Proof.
  induction refs as [|r refs IH]; intros st Hev; simpl; [done|].
  unfold mbind, M_bind.
  destruct (ProcessChunk_in_memory flat base r st Hev) as [Hev1 Htr1].
  destruct (ProcessChunk ld flat base r st) as [[[]| |] st1]; simpl in *; try done.
  destruct (IH st1 Hev1) as [Hev2 Htr2]. by rewrite Htr2.
Qed.

Lemma StreamM_in_memory :
  Evictor (StreamM ld (mkDoState DoEvictor [])).2 = DoEvictor ∧
  filter (λ e, IsSystemEvent e = true)
    (Trace (StreamM ld (mkDoState DoEvictor [])).2) = [].
Proof.
  unfold StreamM, mbind, M_bind, Emit, LiftRes. simpl.
  destruct (GatherAndSortChunks (QuantizedPool ld)) as [refs| |]; simpl; try done.
  apply (ForEach_in_memory _ _ refs
           (mkDoState DoEvictor
              [EvStart (DataMetaInfo ld) (ObjectCount ld) (ObjectsOrder ld)
                 (QuantizationSchema (QuantizedPool ld))]) eq_refl).
Qed.

End InMemory.

Lemma filter_system_option (f : Z → Event) (o : option Z) :
  (∀ z, IsSystemEvent (f z) = false) →
  filter (λ e, IsSystemEvent e = true) (option_list (f <$> o)) = [].
Proof.
  intros Hf. destruct o as [z|]; simpl; [|done].
  rewrite filter_cons_False; [done|]. by rewrite Hf.
Qed.

Lemma filter_system_advise throws data size :
  filter (λ e, IsSystemEvent e = true) (Advise throws data size) =
    Advise throws data size.
Proof. unfold Advise. by destruct (throws data size). Qed.

(** C5 (amended). When the pool is held in memory ([ColumnsDump] is not
    empty) only the push is left out.  The deferred [MaybeEvict(false)]
    still runs after every chunk, but on an evictor that never saw a chunk
    it does nothing: the evictor stays as constructed and no advisory is
    issued during the loop.  The forced [MaybeEvict(true)] after the loop
    still runs too, and issues one advisory, over the empty range at the
    null base; if the loop ends with an exception nothing is advised. *)
Theorem Do_in_memory `{TCollaborators} (ld : TCBQuantizedDataLoader) :
  ColumnsDump (QuantizedPool ld) ≠ [] →
  (∀ flat base r st,
     ProcessChunk ld flat base r st =
       Deferred (EvictorMaybeEvict false)
         (events ← LiftRes (DispatchChunk ld flat base r); Emit events) st) ∧
  (∀ flat base refs st,
     Evictor st = DoEvictor →
     Evictor (ForEach (ProcessChunk ld flat base) refs st).2 = DoEvictor ∧
     filter (λ e, IsSystemEvent e = true)
       (Trace (ForEach (ProcessChunk ld flat base) refs st).2) =
     filter (λ e, IsSystemEvent e = true) (Trace st)) ∧
  ((StreamM ld (mkDoState DoEvictor [])).1 = Ok () →
     filter (λ e, IsSystemEvent e = true) (Do ld).2 = Advise MadviseEvictThrows 0 0) ∧
  ((StreamM ld (mkDoState DoEvictor [])).1 ≠ Ok () →
     filter (λ e, IsSystemEvent e = true) (Do ld).2 = []).
Proof.
  intros Hmem. split; [|split; [|split]].
  - intros flat base r st. unfold ProcessChunk.
    rewrite bool_decide_eq_false_2 by done. done.
  - intros flat base refs st. by apply ForEach_in_memory.
  - intros Hok. destruct (StreamM_in_memory ld Hmem) as [Hev Htr].
    unfold Do, DoM, mbind at 1, M_bind at 1.
    destruct (StreamM ld (mkDoState DoEvictor [])) as [res st1]. simpl in *. subst res.
    unfold mbind, M_bind, EvictorMaybeEvict, LiftRes, Emit. rewrite Hev. simpl.
    destruct (SetGroupWeights _ _) as [w| |]; simpl.
    2,3: by rewrite filter_app, Htr, filter_system_advise.
    destruct (SetPairs _ _) as [p| |]; simpl.
    2,3: rewrite !filter_app, Htr, filter_system_advise;
         rewrite (filter_system_option EvSetGroupWeights) by done;
         by rewrite ?app_nil_r.
    destruct (SetBaseline _ _ _) as [b| |]; simpl;
      rewrite !filter_app, Htr, filter_system_advise;
      rewrite (filter_system_option EvSetGroupWeights) by done;
      rewrite (filter_system_option EvSetPairs) by done;
      rewrite ?(filter_system_option EvSetBaseline) by done;
      by rewrite ?app_nil_r.
  - intros Hfail. destruct (StreamM_in_memory ld Hmem) as [Hev Htr].
    unfold Do, DoM, mbind at 1, M_bind at 1.
    destruct (StreamM ld (mkDoState DoEvictor [])) as [[[]| |] st1]; simpl in *; done.
Qed.

Lemma Do_in_memory_witness :
  filter (λ e, IsSystemEvent e = true)
    (@Do (ExCollaborators ExMemPool)
       (mkLoader 3 ExMemPool NoPath NoPath NoPath Ordered (mkMetaInfo 2 []) [false; true])).2
  = [EvMadviseEvict 0 0].
Proof.
  apply (proj1 (proj2 (proj2 (@Do_in_memory (ExCollaborators ExMemPool)
    (mkLoader 3 ExMemPool NoPath NoPath NoPath Ordered (mkMetaInfo 2 []) [false; true])
    ltac:(vm_compute; congruence))))).
  vm_compute. reflexivity.
Defined.

(** C5, as claimed, fails: for a pool held in memory the forced flush after
    the loop is not skipped; its advisory (over the empty range) is in the
    trace, between the last part and the end of the load. *)
Lemma Do_in_memory_counterexample :
  ColumnsDump ExMemPool ≠ [] ∧
  @LoadAndDo (ExCollaborators ExMemPool) (ExArgs [1]) =
    (Ok (),
     [EvStart (mkMetaInfo 2 []) 3 Ordered 77;
      EvAddFloatFeaturePart 0 0 8 (mkArrayRef 1000 2);
      EvAddTargetPart 0 (mkArrayRef 1010 12);
      EvAddFloatFeaturePart 0 2 8 (mkArrayRef 1030 1);
      EvMadviseEvict 0 0;
      EvFinish]).
Proof. split; [vm_compute; congruence | vm_compute; reflexivity]. Qed.

(** ** The gatherer *)

Lemma SortInsert_Permutation {A} (less : A → A → bool) x l :
  SortInsert less x l ≡ₚ x :: l.
Proof.
  induction l as [|y l IH]; simpl; [done|].
  destruct (less y x); [|done]. rewrite IH. apply Permutation_swap.
Qed.

Lemma Sort_Permutation {A} (less : A → A → bool) l : Sort less l ≡ₚ l.
Proof.
  induction l as [|x l IH]; simpl; [done|].
  unfold Sort in *. simpl. by rewrite SortInsert_Permutation, IH.
Qed.

Lemma SortInsert_Sorted x l :
  Sorted AddressLe l → Sorted AddressLe (SortInsert ChunkLess x l).
Proof.
  induction l as [|y l IH]; intros Hs; simpl.
  - by repeat constructor.
  - unfold ChunkLess at 1. destruct (Z.ltb_spec (RefData y) (RefData x)).
    + apply Sorted_inv in Hs as [Hs Hhd]. constructor; [by apply IH|].
      destruct l as [|z l]; simpl.
      * constructor. unfold AddressLe. lia.
      * destruct (ChunkLess z x); constructor.
        -- by apply HdRel_inv in Hhd.
        -- unfold AddressLe. lia.
    + constructor; [done|]. constructor. unfold AddressLe. lia.
Qed.

Lemma Sort_Sorted l : Sorted AddressLe (Sort ChunkLess l).
Proof.
  induction l as [|x l IH]; [constructor|].
  unfold Sort in *. simpl. by apply SortInsert_Sorted.
Qed.

Lemma At_Ok {A} (v : list A) i x :
  At v i = Ok x ↔ 0 <= i ∧ v !! Z.to_nat i = Some x.
Proof.
  unfold At. case_decide; [|split; [done | intros [? _]; lia]].
  destruct (v !! Z.to_nat i); split; try done.
  - by intros [= ->].
  - by intros [_ [= ->]].
  - by intros [_ ?].
Qed.

Lemma At_in_range {A} (v : list A) i :
  0 <= i < Z.of_nat (length v) → ∃ x, At v i = Ok x ∧ v !! Z.to_nat i = Some x.
Proof.
  intros Hi. destruct (v !! Z.to_nat i) as [x|] eqn:Hlk.
  - exists x. split; [|done]. apply At_Ok. split; [lia | done].
  - apply lookup_ge_None in Hlk. lia.
Qed.

(** Filtering the references made from one slot's chunk list by slot. *)
Lemma filter_slot_refs (c l l' : Z) (descriptions : list TChunkDescription) :
  Description <$>
    filter (λ r, LocalIndex r = l') ((λ d, mkChunkRef d c l) <$> descriptions) =
  if decide (l = l') then descriptions else [].
Proof.
  destruct (decide (l = l')) as [->|Hne];
    induction descriptions as [|d ds IH]; try done.
  - rewrite fmap_cons, filter_cons_True by done. rewrite fmap_cons, IH. done.
  - rewrite fmap_cons, filter_cons_False by done. done.
Qed.

Lemma GatherColumns_spec chunks entries :
  Forall (λ l, 0 <= l < Z.of_nat (length chunks) ∧ l < 2 ^ 32) entries.*2 →
  NoDup entries.*2 →
  ∃ refs, GatherColumns chunks entries = Ok refs ∧
    (∀ l, Description <$> filter (λ r, LocalIndex r = l) refs =
          if decide (l ∈ entries.*2) then default [] (chunks !! Z.to_nat l) else []) ∧
    (∀ r, r ∈ refs → LocalIndex r ∈ entries.*2).
Proof.
  induction entries as [|[c l] entries IH]; intros Hrange Hnd.
  - exists []. split; [done|]. split; [|by intros r Hr%elem_of_nil].
    intros l. rewrite decide_False; [done|]. by intros Hin%elem_of_nil.
  - rewrite fmap_cons in *. cbn [snd] in *.
    apply Forall_cons in Hrange as [[Hl Hl32] Hrange].
    apply NoDup_cons in Hnd as [Hnotin Hnd].
    destruct (IH Hrange Hnd) as (more & Hmore & Hfilter & Hmem).
    destruct (At_in_range chunks l ltac:(lia)) as (descs & Hat & Hlk).
    cbn [GatherColumns]. rewrite Hat, Hmore. cbn [mbind Res_bind].
    eexists. split; [done|].
    rewrite (wrap32_small l) by lia. split.
    + intros l'. rewrite filter_app, fmap_app, filter_slot_refs, Hfilter.
      destruct (decide (l = l')) as [<-|Hne].
      * rewrite decide_False by done. rewrite decide_True by apply list_elem_of_here.
        by rewrite Hlk, app_nil_r.
      * simpl. repeat case_decide; try done.
        -- exfalso. auto using list_elem_of_further.
        -- exfalso. match goal with Hx : _ ∈ _ :: _ |- _ =>
             apply elem_of_cons in Hx as [?|?] end; [congruence | done].
    + intros r [Hr|Hr]%elem_of_app.
      * apply list_elem_of_fmap in Hr as (d & -> & _). simpl. apply list_elem_of_here.
      * apply list_elem_of_further. by apply Hmem.
Qed.

Lemma GatherFake_spec chunks fakes :
  Forall (λ l, 0 <= l < Z.of_nat (length chunks)) (filter (λ f, f ≠ AbsentIndex) fakes) →
  NoDup (filter (λ f, f ≠ AbsentIndex) fakes) →
  ∃ refs, GatherFake chunks fakes = Ok refs ∧
    (∀ l, Description <$> filter (λ r, LocalIndex r = l) refs =
          if decide (l ∈ filter (λ f, f ≠ AbsentIndex) fakes)
          then default [] (chunks !! Z.to_nat l) else []) ∧
    (∀ r, r ∈ refs → LocalIndex r ∈ filter (λ f, f ≠ AbsentIndex) fakes).
Proof.
  induction fakes as [|f fakes IH]; intros Hrange Hnd.
  - exists []. split; [done|]. split; [|by intros r Hr%elem_of_nil].
    intros l. rewrite decide_False; [done|]. by intros Hin%elem_of_nil.
  - cbn [GatherFake]. destruct (decide (f = AbsentIndex)) as [Hf|Hf].
    + rewrite filter_cons_False in * by (by intros ?). by apply IH.
    + rewrite filter_cons_True in * by done.
      apply Forall_cons in Hrange as [Hl Hrange].
      apply NoDup_cons in Hnd as [Hnotin Hnd].
      destruct (IH Hrange Hnd) as (more & Hmore & Hfilter & Hmem).
      destruct (At_in_range chunks f ltac:(lia)) as (descs & Hat & Hlk).
      rewrite Hat, Hmore. cbn [mbind Res_bind].
      eexists. split; [done|]. split.
      * intros l'. rewrite filter_app, fmap_app, filter_slot_refs, Hfilter.
        destruct (decide (f = l')) as [<-|Hne].
        -- rewrite decide_False by done. rewrite decide_True by apply list_elem_of_here.
           by rewrite Hlk, app_nil_r.
        -- simpl. repeat case_decide; try done.
           ++ exfalso. auto using list_elem_of_further.
           ++ exfalso. match goal with Hx : _ ∈ _ :: _ |- _ =>
                apply elem_of_cons in Hx as [?|?] end; [congruence | done].
      * intros r [Hr|Hr]%elem_of_app.
        -- apply list_elem_of_fmap in Hr as (d & -> & _). simpl. apply list_elem_of_here.
        -- apply list_elem_of_further. by apply Hmem.
Qed.

(** Where a gathered reference comes from: an entry of the column map, with
    both indices cast to [ui32], or a configured pseudo-slot, with column
    index 0. *)
Lemma GatherColumns_origin chunks entries refs r :
  GatherColumns chunks entries = Ok refs → r ∈ refs →
  ∃ c l, (c, l) ∈ entries ∧ ColumnIndex r = wrap32 c ∧ LocalIndex r = wrap32 l.
Proof.
  revert refs. induction entries as [|[c l] entries IH]; intros refs; cbn [GatherColumns].
  - intros [= <-] Hr. by apply elem_of_nil in Hr.
  - destruct (At chunks l) as [descs| |]; cbn [mbind Res_bind]; [|done..].
    destruct (GatherColumns chunks entries) as [more| |]; cbn [mbind Res_bind]; [|done..].
    intros [= <-] [Hr|Hr]%elem_of_app.
    + apply list_elem_of_fmap in Hr as (d & -> & _). exists c, l. simpl.
      split; [apply list_elem_of_here | done].
    + destruct (IH more eq_refl Hr) as (c' & l' & ? & ? & ?).
      exists c', l'. split; [by apply list_elem_of_further | done].
Qed.

Lemma GatherFake_origin chunks fakes refs r :
  GatherFake chunks fakes = Ok refs → r ∈ refs →
  ColumnIndex r = 0 ∧ LocalIndex r ∈ fakes ∧ LocalIndex r ≠ AbsentIndex.
Proof.
  revert refs. induction fakes as [|f fakes IH]; intros refs; cbn [GatherFake].
  - intros [= <-] Hr. by apply elem_of_nil in Hr.
  - destruct (decide (f = AbsentIndex)) as [Hf|Hf].
    + intros HG Hr. destruct (IH refs HG Hr) as (? & ? & ?).
      split; [done|]. split; [by apply list_elem_of_further | done].
    + destruct (At chunks f) as [descs| |]; cbn [mbind Res_bind]; [|done..].
      destruct (GatherFake chunks fakes) as [more| |]; cbn [mbind Res_bind]; [|done..].
      intros [= <-] [Hr|Hr]%elem_of_app.
      * apply list_elem_of_fmap in Hr as (d & -> & _). simpl.
        split; [done|]. split; [apply list_elem_of_here | done].
      * destruct (IH more eq_refl Hr) as (? & ? & ?).
        split; [done|]. split; [by apply list_elem_of_further | done].
Qed.

Lemma GatherAndSortChunks_origin pool refs r :
  GatherAndSortChunks pool = Ok refs → r ∈ refs →
  (∃ c l, ColumnIndexToLocalIndex pool !! c = Some l ∧
          ColumnIndex r = wrap32 c ∧ LocalIndex r = wrap32 l) ∨
  (ColumnIndex r = 0 ∧ LocalIndex r ∈ FakeIndices pool ∧ LocalIndex r ≠ AbsentIndex).
Proof.
  unfold GatherAndSortChunks.
  destruct (GatherColumns _ _) as [real| |] eqn:HR; cbn [mbind Res_bind]; [|done..].
  destruct (GatherFake _ _) as [fake| |] eqn:HF; cbn [mbind Res_bind]; [|done..].
  intros [= <-] Hr. rewrite Sort_Permutation in Hr.
  apply elem_of_app in Hr as [Hr|Hr].
  - left. destruct (GatherColumns_origin _ _ _ _ HR Hr) as (c & l & Hin & ? & ?).
    exists c, l. by apply elem_of_map_to_list in Hin.
  - right. by apply (GatherFake_origin _ _ _ _ HF Hr).
Qed.

(** C6. Whatever the gatherer returns is sorted by non-decreasing start
    address of the chunks' payloads.  For a well-formed pool it returns a
    sequence that, for every slot of a real column and every configured
    pseudo-slot (index not the absent marker), holds exactly the chunks of
    that slot, each once, and that holds nothing else. *)
Theorem GatherAndSortChunks_complete_sorted (pool : TQuantizedPool) :
  (∀ refs, GatherAndSortChunks pool = Ok refs → Sorted AddressLe refs) ∧
  (PoolWf pool →
   ∃ refs, GatherAndSortChunks pool = Ok refs ∧
     Sorted AddressLe refs ∧
     (∀ l, l ∈ RealSlots pool ++ ConfiguredFake pool →
           Description <$> filter (λ r, LocalIndex r = l) refs ≡ₚ SlotChunks pool l) ∧
     (∀ r, r ∈ refs → LocalIndex r ∈ RealSlots pool ++ ConfiguredFake pool)).
Proof.
  split.
  { intros refs. unfold GatherAndSortChunks.
    destruct (GatherColumns _ _) as [real| |]; cbn [mbind Res_bind]; [|done..].
    destruct (GatherFake _ _) as [fake| |]; cbn [mbind Res_bind]; [|done..].
    intros [= <-]. apply Sort_Sorted. }
  intros [Hrange Hnd]. unfold RealSlots, ConfiguredFake in *.
  apply Forall_app in Hrange as [Hreal Hfake].
  apply NoDup_app in Hnd as (HndR & Hdisj & HndF).
  destruct (GatherColumns_spec (Chunks pool)
              (map_to_list (ColumnIndexToLocalIndex pool)))
    as (real & HR & HRf & HRm); [exact Hreal | exact HndR |].
  destruct (GatherFake_spec (Chunks pool) (FakeIndices pool))
    as (fake & HF & HFf & HFm); [|exact HndF|].
  { eapply Forall_impl; [exact Hfake|]. by intros l [? _]. }
  unfold GatherAndSortChunks. rewrite HR, HF. cbn [mbind Res_bind].
  eexists. split; [done|]. split; [apply Sort_Sorted|]. split.
  - intros l Hl. rewrite (Sort_Permutation ChunkLess (real ++ fake)).
    rewrite filter_app, fmap_app, HRf, HFf. unfold SlotChunks.
    apply elem_of_app in Hl as [Hl|Hl].
    + rewrite decide_True by done. rewrite decide_False by by apply Hdisj.
      by rewrite app_nil_r.
    + rewrite decide_False by (intros Hl'; by apply (Hdisj l)).
      by rewrite decide_True by done.
  - intros r Hr. rewrite Sort_Permutation in Hr.
    apply elem_of_app in Hr as [Hr|Hr]; apply elem_of_app; auto.
Qed.

Lemma GatherAndSortChunks_complete_sorted_witness :
  ∃ refs, GatherAndSortChunks ExPool = Ok refs ∧
    Sorted AddressLe refs ∧
    Description <$> filter (λ r, LocalIndex r = 0) refs ≡ₚ SlotChunks ExPool 0 ∧
    Description <$> filter (λ r, LocalIndex r = 3) refs ≡ₚ SlotChunks ExPool 3.
Proof.
  destruct (proj2 (GatherAndSortChunks_complete_sorted ExPool))
    as (refs & HG & Hsorted & Hslots & _).
  - apply (bool_decide_unpack _). vm_compute. exact I.
  - exists refs. split; [exact HG|]. split; [exact Hsorted|]. split.
    + apply Hslots. apply (bool_decide_unpack _). vm_compute. exact I.
    + apply Hslots. apply (bool_decide_unpack _). vm_compute. exact I.
Defined.

(** ** The optional index pointers *)

Lemma AddChunk_no_null chunk columnType flatFeatureIdx baselineIdx :
  (columnType = Num → is_Some flatFeatureIdx) →
  (columnType = Baseline → is_Some baselineIdx) →
  ∀ u, AddChunk chunk columnType flatFeatureIdx baselineIdx ≠ Undefined u.
Proof.
  intros Hnum Hbase u. unfold AddChunk.
  destruct columnType; try done.
  - destruct (Hnum eq_refl) as [idx ->]. done.
  - destruct (Hbase eq_refl) as [idx ->]. done.
Qed.

Lemma At_not_null {A} (v : list A) i : At v i ≠ Undefined NullDereference.
Proof. unfold At. by repeat case_match. Qed.

Lemma DispatchChunk_no_null ld flat base r :
  (∀ columnType,
     IsStringColumn (QuantizedPool ld) (LocalIndex r) = false →
     At (ColumnTypes (QuantizedPool ld)) (LocalIndex r) = Ok columnType →
     (columnType = Num → is_Some (flat !! ColumnIndex r)) ∧
     (columnType = Baseline → is_Some (base !! ColumnIndex r))) →
  DispatchChunk ld flat base r ≠ Undefined NullDereference.
Proof.
  intros Hidx. unfold DispatchChunk.
  destruct (IsStringColumn _ _) eqn:Hstr; [done|].
  pose proof (At_not_null (ColumnTypes (QuantizedPool ld)) (LocalIndex r)) as Hat.
  destruct (At (ColumnTypes _) _) as [columnType| |u]; cbn [mbind Res_bind];
    [|done|congruence].
  case_bool_decide; [done|].
  destruct (Ensure _ _) as [[]| |u] eqn:HE; cbn [mbind Res_bind]; [|done|].
  2: { unfold Ensure in HE. by case_match. }
  destruct (Hidx columnType eq_refl eq_refl) as [Hnum Hbase].
  assert (Hmask : match flat !! ColumnIndex r with
                  | Some idx => At (IsFeatureIgnored ld) idx
                  | None => Ok false
                  end ≠ Undefined NullDereference).
  { destruct (flat !! ColumnIndex r); [apply At_not_null | done]. }
  destruct (match flat !! ColumnIndex r with Some _ => _ | None => _ end)
    as [[|]| |u]; cbn [mbind Res_bind]; try done; [|congruence].
  by apply AddChunk_no_null.
Qed.

Lemma ForEach_no_null `{TCollaborators} ld flat base refs : ∀ st,
  (∀ r, r ∈ refs → DispatchChunk ld flat base r ≠ Undefined NullDereference) →
  (ForEach (ProcessChunk ld flat base) refs st).1 ≠ Undefined NullDereference.
Proof.
  induction refs as [|r refs IH]; intros st Hall; simpl; [done|].
  unfold mbind, M_bind.
  pose proof (ProcessChunk_eq ld flat base r st) as Heq. simpl in Heq.
  assert (Hr : DispatchChunk ld flat base r ≠ Undefined NullDereference)
    by (apply Hall; apply list_elem_of_here).
  destruct (ProcessChunk ld flat base r st) as [[[]| |u] st1] eqn:HP; simpl.
  - apply IH. intros r' Hr'. apply Hall. by apply list_elem_of_further.
  - done.
  - intros [= Hu]. subst u.
    destruct (bool_decide (ColumnsDump (QuantizedPool ld) = [])); simpl in Heq.
    + unfold Push in Heq. destruct (_ <=? _); simpl in Heq; [|done].
      destruct (DispatchChunk ld flat base r) as [es| |u]; simpl in Heq; try done.
      injection Heq as <- _. done.
    + destruct (DispatchChunk ld flat base r) as [es| |u]; simpl in Heq; try done.
      injection Heq as <- _. done.
Qed.

Lemma StreamM_no_null `{TCollaborators} ld st :
  ColumnsIndexed (QuantizedPool ld)
    (GetColumnIndexToFlatIndexMap (QuantizedPool ld))
    (GetColumnIndexToBaselineIndexMap (QuantizedPool ld)) →
  (StreamM ld st).1 ≠ Undefined NullDereference.
Proof.
  intros [Hcols Hfake]. unfold StreamM, mbind, M_bind, Emit, LiftRes. simpl.
  destruct (GatherAndSortChunks (QuantizedPool ld)) as [refs| |u] eqn:HG; simpl.
  - apply ForEach_no_null. intros r Hr. apply DispatchChunk_no_null.
    intros columnType Hstr Hty.
    destruct (GatherAndSortChunks_origin _ _ _ HG Hr)
      as [(c & l & Hcl & Hc & Hl)|(_ & Hin & Habsent)].
    + destruct (Hcols c l Hcl) as ((Hc32 & Hl32) & Hnum & Hbase).
      rewrite wrap32_small in Hc, Hl by done. rewrite Hc. rewrite Hl in Hty.
      apply At_Ok in Hty as [_ Hty]. split; intros ->; auto.
    + exfalso. destruct Hfake as [Hhas|Hnone].
      * by rewrite (IsStringColumn_fake _ _ Hhas Hin) in Hstr.
      * assert (Hcf : LocalIndex r ∈ ConfiguredFake (QuantizedPool ld)).
        { unfold ConfiguredFake. by apply list_elem_of_filter. }
        rewrite Hnone in Hcf. by apply elem_of_nil in Hcf.
  - done.
  - unfold GatherAndSortChunks in HG.
    assert (Hcol : ∀ entries, GatherColumns (Chunks (QuantizedPool ld)) entries
                              ≠ Undefined NullDereference).
    { induction entries as [|[c l] entries IH]; cbn [GatherColumns]; [done|].
      pose proof (At_not_null (Chunks (QuantizedPool ld)) l).
      destruct (At _ l) as [?| |?]; cbn [mbind Res_bind]; [|done|congruence].
      destruct (GatherColumns _ entries) as [?| |?]; cbn [mbind Res_bind];
        [done|done|congruence]. }
    assert (Hfk : ∀ fakes, GatherFake (Chunks (QuantizedPool ld)) fakes
                           ≠ Undefined NullDereference).
    { induction fakes as [|f fakes IH]; cbn [GatherFake]; [done|].
      case_decide; [done|].
      pose proof (At_not_null (Chunks (QuantizedPool ld)) f).
      destruct (At _ f) as [?| |?]; cbn [mbind Res_bind]; [|done|congruence].
      destruct (GatherFake _ fakes) as [?| |?]; cbn [mbind Res_bind];
        [done|done|congruence]. }
    specialize (Hcol (map_to_list (ColumnIndexToLocalIndex (QuantizedPool ld)))).
    specialize (Hfk (FakeIndices (QuantizedPool ld))).
    destruct (GatherColumns _ _) as [?| |?]; cbn [mbind Res_bind] in HG;
      [|done|congruence].
    destruct (GatherFake _ _) as [?| |?]; cbn [mbind Res_bind] in HG;
      [done|done|congruence].
Qed.

(** C10. The dispatcher reads the flat-feature-index pointer for a [Num]
    chunk and the baseline-index pointer for a [Baseline] chunk without a
    null check: a null pointer there is undefined behaviour.  When a [Num]
    chunk comes with a feature index and a [Baseline] chunk with a baseline
    index the dispatcher reads no null pointer, and when every [Num] column
    of the pool has a feature-index mapping and every [Baseline] column a
    baseline-index mapping the whole streaming loop reads none.  For
    [Label], [Weight], [GroupWeight], [GroupId] and [SubgroupId] chunks the
    two pointers are not read: the outcome is the same with null
    pointers, and it is a delivered part. *)
Theorem AddChunk_index_pointers `{TCollaborators} :
  (∀ chunk baselineIdx,
     AddChunk chunk Num None baselineIdx = Undefined NullDereference) ∧
  (∀ chunk flatFeatureIdx,
     AddChunk chunk Baseline flatFeatureIdx None = Undefined NullDereference) ∧
  (∀ chunk columnType flatFeatureIdx baselineIdx,
     (columnType = Num → is_Some flatFeatureIdx) →
     (columnType = Baseline → is_Some baselineIdx) →
     ∀ u, AddChunk chunk columnType flatFeatureIdx baselineIdx ≠ Undefined u) ∧
  (∀ ld st,
     ColumnsIndexed (QuantizedPool ld)
       (GetColumnIndexToFlatIndexMap (QuantizedPool ld))
       (GetColumnIndexToBaselineIndexMap (QuantizedPool ld)) →
     (StreamM ld st).1 ≠ Undefined NullDereference) ∧
  (∀ chunk columnType flatFeatureIdx baselineIdx,
     columnType ∈ IndexFree →
     AddChunk chunk columnType flatFeatureIdx baselineIdx =
       AddChunk chunk columnType None None ∧
     IsOk (AddChunk chunk columnType None None) = true).
Proof.
  split; [done|]. split; [done|]. split; [apply AddChunk_no_null|].
  split; [apply StreamM_no_null|].
  intros chunk columnType f b Hin. unfold IndexFree in Hin.
  repeat (apply elem_of_cons in Hin as [->|Hin]; [done|]).
  by apply elem_of_nil in Hin.
Qed.

Lemma AddChunk_index_pointers_witness :
  (@StreamM (ExCollaborators ExPool) ExLoader (mkDoState DoEvictor [])).1
    ≠ Undefined NullDereference ∧
  AddChunk (ExChunk 1000 2 0 8) Num (Some 0) None =
    Ok [EvAddFloatFeaturePart 0 0 8 (mkArrayRef 1000 2)] ∧
  AddChunk (ExChunk 1010 12 0 32) Label None None =
    Ok [EvAddTargetPart 0 (mkArrayRef 1010 12)].
Proof.
  pose proof (@AddChunk_index_pointers (ExCollaborators ExPool))
    as (_ & _ & Hsafe & Hstream & Hfree).
  split; [|split].
  - apply Hstream. apply (bool_decide_unpack _). vm_compute. exact I.
  - pose proof (Hsafe (ExChunk 1000 2 0 8) Num (Some 0) None
                  (λ _, ltac:(by eexists)) ltac:(discriminate)) as Hno.
    reflexivity.
  - destruct (Hfree (ExChunk 1010 12 0 32) Label None None) as [_ Hok].
    + vm_compute. apply list_elem_of_here.
    + reflexivity.
Defined.

(** * Further properties of the loader *)

(** ** AssignUnaligned *)

Lemma NextElements_length {T} sizeofT (read : list Z → T) count mem :
  length (NextElements sizeofT read count mem) = count.
Proof.
  revert mem. induction count as [|n IH]; intros mem; simpl; [done|]. by rewrite IH.
Qed.

Lemma NextElements_encoded {T} sizeofT (read : list Z → T) (enc : T → list Z) xs tail :
  Forall (λ x, length (enc x) = sizeofT ∧ read (enc x) = x) xs →
  NextElements sizeofT read (length xs) (concat (enc <$> xs) ++ tail) = xs.
Proof.
  induction 1 as [|x xs [Hlen Hread] _ IH]; [done|].
  rewrite fmap_cons. cbn [concat length NextElements]. rewrite <- app_assoc.
  rewrite take_app_length' by done. rewrite drop_app_length' by done.
  by rewrite Hread, IH.
Qed.

Lemma encoded_length {T} sizeofT (enc : T → list Z) xs :
  Forall (λ x, length (enc x) = sizeofT) xs →
  length (concat (enc <$> xs)) = (length xs * sizeofT)%nat.
Proof.
  induction 1 as [|x xs Hlen _ IH]; [done|].
  rewrite fmap_cons. cbn [concat]. rewrite length_app, Hlen, IH. simpl. lia.
Qed.

(** X1. [AssignUnaligned] yields [size / sizeof(T)] elements.  Given the
    encodings of a sequence of elements laid end to end, followed by fewer
    bytes than one element takes, it yields the conversions of exactly those
    elements, in order: a trailing partial element is ignored.  The element
    count of the temporary vector of a [Baseline] part is that number for
    eight-byte elements. *)
Theorem AssignUnaligned_elements {T U} (sizeofT : nat) (read : list Z → T) (conv : T → U) :
  (∀ unaligned,
     length (AssignUnaligned sizeofT read conv unaligned) =
       (length unaligned / sizeofT)%nat) ∧
  (∀ (enc : T → list Z) xs tail,
     (0 < sizeofT)%nat →
     Forall (λ x, length (enc x) = sizeofT ∧ read (enc x) = x) xs →
     (length tail < sizeofT)%nat →
     AssignUnaligned sizeofT read conv (concat (enc <$> xs) ++ tail) = conv <$> xs) ∧
  (∀ data bytes,
     TmpCount (AssignUnalignedDouble (mkArrayRef data (Z.of_nat (length bytes)))) =
       Z.of_nat (length (AssignUnaligned 8 read conv bytes))).
Proof.
  split; [|split].
  - intros unaligned. unfold AssignUnaligned.
    by rewrite length_fmap, NextElements_length.
  - intros enc xs tail Hpos Henc Htail. unfold AssignUnaligned.
    assert (Hlen : length (concat (enc <$> xs)) = (length xs * sizeofT)%nat).
    { apply encoded_length. eapply Forall_impl; [exact Henc|]. by intros x [? _]. }
    rewrite length_app, Hlen.
    rewrite Nat.div_add_l by lia. rewrite (Nat.div_small (length tail)) by done.
    rewrite Nat.add_0_r. by rewrite NextElements_encoded.
  - intros data bytes. unfold AssignUnaligned, AssignUnalignedDouble.
    cbn [TmpCount ArrSize]. rewrite length_fmap, NextElements_length.
    by rewrite (Nat2Z.inj_div (length bytes) 8).
Qed.

Lemma AssignUnaligned_elements_witness :
  AssignUnaligned 2 ExRead (λ x, x + 1)
    (concat (ExEncode <$> [258; 7; 65535]) ++ [9]) = [259; 8; 65536].
Proof.
  apply (proj1 (proj2 (AssignUnaligned_elements 2 ExRead (λ x, x + 1)))
           ExEncode [258; 7; 65535] [9]).
  - lia.
  - repeat constructor.
  - simpl. lia.
Defined.

(** ** What the dispatcher delivers *)

(** X2. A dispatch that succeeds makes exactly one call on the visitor: a
    typed part, at the chunk's own document offset, made from the chunk's
    own byte range. *)
Theorem AddChunk_one_part (chunk : TChunkDescription) (columnType : EColumn)
    (flatFeatureIdx baselineIdx : option Z) (es : list Event) :
  AddChunk chunk columnType flatFeatureIdx baselineIdx = Ok es →
  ∃ e, es = [e] ∧ IsPartEvent e = true ∧
       EventOffset e = Some (DocumentOffset chunk) ∧
       EventSource e = Some (MakeArrayRef (Quants (Chunk chunk))).
Proof.
  unfold AddChunk, AddQuantizedFeatureChunk.
  destruct columnType, flatFeatureIdx, baselineIdx; intros [= <-];
    eexists; repeat split; reflexivity.
Qed.

Lemma AddChunk_one_part_witness :
  ∃ e, [EvAddBaselinePart 5 1 (mkFloatTmp (mkArrayRef 2000 16) 2)] = [e] ∧
       IsPartEvent e = true ∧ EventOffset e = Some 5 ∧
       EventSource e = Some (mkArrayRef 2000 16).
Proof.
  apply (AddChunk_one_part (ExChunk 2000 16 5 64) Baseline None (Some 1)).
  reflexivity.
Defined.

(** X3. The dispatcher throws exactly for the column types it has no part
    for ([SampleId], [Categ], [Auxiliary], [Text], [Timestamp], [Sparse],
    [Prediction]), whatever the two index pointers are, and the exception
    names the type. *)
Theorem AddChunk_throws (chunk : TChunkDescription) (columnType : EColumn)
    (flatFeatureIdx baselineIdx : option Z) :
  (columnType ∉ Dispatchable →
     AddChunk chunk columnType flatFeatureIdx baselineIdx =
       Throw (UnexpectedColumnType columnType)) ∧
  (∀ e, AddChunk chunk columnType flatFeatureIdx baselineIdx = Throw e →
        e = UnexpectedColumnType columnType ∧ columnType ∉ Dispatchable).
Proof.
  unfold Dispatchable. split.
  - intros Hnot. destruct columnType; try done;
      exfalso; apply Hnot; repeat first [apply list_elem_of_here | apply list_elem_of_further].
  - intros e. unfold AddChunk.
    destruct columnType, flatFeatureIdx, baselineIdx; intros [= <-];
      (split; [done|]); intros Hin;
      repeat (apply elem_of_cons in Hin as [Hin|Hin]; [discriminate|]);
      by apply elem_of_nil in Hin.
Qed.

Lemma AddChunk_throws_witness :
  AddChunk (ExChunk 1040 3 0 8) Timestamp (Some 1) (Some 0) =
    Throw (UnexpectedColumnType Timestamp).
Proof.
  apply (proj1 (AddChunk_throws (ExChunk 1040 3 0 8) Timestamp (Some 1) (Some 0))).
  unfold Dispatchable. intros Hin.
  repeat (apply elem_of_cons in Hin as [Hin|Hin]; [discriminate|]).
  by apply elem_of_nil in Hin.
Defined.

(** ** How the loop of [Do] can fail *)

Lemma DispatchChunk_throw ld flat base r e :
  DispatchChunk ld flat base r = Throw e →
  (∃ columnType,
     At (ColumnTypes (QuantizedPool ld)) (LocalIndex r) = Ok columnType ∧
     e = ExpectedDispatchableColumn columnType (ColumnIndex r) ∧
     columnType ∈ [Auxiliary; Timestamp; Sparse; Prediction; Text]) ∨
  (At (ColumnTypes (QuantizedPool ld)) (LocalIndex r) = Ok Categ ∧
   e = UnexpectedColumnType Categ).
Proof.
  unfold DispatchChunk.
  destruct (IsStringColumn _ _); [done|].
  destruct (At (ColumnTypes _) _) as [columnType| |] eqn:Hty;
    cbn [mbind Res_bind]; [|by unfold At in Hty; repeat case_match|done].
  case_bool_decide as Hs; [done|].
  unfold Ensure. destruct (StreamingEnsure columnType) eqn:HE; cbn [mbind Res_bind].
  - assert (Hmask : ∀ e', match flat !! ColumnIndex r with
                          | Some idx => At (IsFeatureIgnored ld) idx
                          | None => Ok false
                          end ≠ Throw e').
    { intros e'. destruct (flat !! ColumnIndex r); [|done].
      unfold At. by repeat case_match. }
    destruct (match flat !! ColumnIndex r with Some _ => _ | None => _ end)
      as [[|]|e'|]; cbn [mbind Res_bind]; try done; [|by destruct (Hmask e')].
    intros HA. destruct (proj2 (AddChunk_throws _ _ _ _) e HA) as [-> Hnot].
    right. destruct columnType; try done;
      exfalso; apply Hnot; unfold Dispatchable;
      repeat first [apply list_elem_of_here | apply list_elem_of_further].
  - intros [= <-]. left. exists columnType. split; [done|]. split; [done|].
    destruct columnType; try done;
      repeat first [apply list_elem_of_here | apply list_elem_of_further].
Qed.

Lemma ForEach_throw `{TCollaborators} ld flat base refs : ∀ st e,
  (ForEach (ProcessChunk ld flat base) refs st).1 = Throw e →
  (ColumnsDump (QuantizedPool ld) = [] ∧
   ∃ r D S, r ∈ refs ∧ e = EvictorOrderViolated D S (RefData r) (RefSize r)) ∨
  ∃ r, r ∈ refs ∧ DispatchChunk ld flat base r = Throw e.
Proof.
  induction refs as [|r refs IH]; intros st e; simpl; [done|].
  unfold mbind, M_bind.
  pose proof (ProcessChunk_eq ld flat base r st) as Heq. cbn zeta in Heq.
  destruct (ProcessChunk ld flat base r st) as [[[]| |u] st1] eqn:HP; simpl.
  - intros Hrest. destruct (IH st1 e Hrest) as [(Hm & r' & D & S & Hr' & He)|(r' & Hr' & Hd)].
    + left. split; [done|]. exists r', D, S. split; [by apply list_elem_of_further|done].
    + right. exists r'. split; [by apply list_elem_of_further|done].
  - intros [= ->]. case_bool_decide as Hm.
    + unfold Push in Heq. destruct (_ <=? _); cbn [fst snd] in Heq.
      * right. exists r. split; [apply list_elem_of_here|].
        destruct (DispatchChunk ld flat base r); cbn [mbind Res_bind] in Heq; congruence.
      * left. split; [done|]. injection Heq as -> _.
        eexists r, _, _. split; [apply list_elem_of_here|done].
    + right. exists r. split; [apply list_elem_of_here|]. cbn [fst snd] in Heq.
      destruct (DispatchChunk ld flat base r); cbn [mbind Res_bind] in Heq; congruence.
  - done.
Qed.

(** X4. The loop of [Do] ends with an exception for three reasons only: a
    chunk that starts before the evictor's visited end (in mapped-file mode
    only), a column of a type the check in the loop refuses ([Auxiliary],
    [Timestamp], [Sparse], [Prediction], [Text]), or a [Categ] column that
    is not ignored, which the dispatcher refuses.  In particular a
    [SampleId] column never makes the load fail. *)
Theorem StreamM_exceptions `{TCollaborators} (ld : TCBQuantizedDataLoader)
    (st : TDoState) (e : TCatBoostException) :
  (StreamM ld st).1 = Throw e →
  (ColumnsDump (QuantizedPool ld) = [] ∧ ∃ D S d s, e = EvictorOrderViolated D S d s) ∨
  (∃ columnType columnIdx,
     e = ExpectedDispatchableColumn columnType columnIdx ∧
     columnType ∈ [Auxiliary; Timestamp; Sparse; Prediction; Text]) ∨
  e = UnexpectedColumnType Categ.
Proof.
  unfold StreamM, mbind, M_bind, Emit, LiftRes. simpl.
  destruct (GatherAndSortChunks (QuantizedPool ld)) as [refs|e'|] eqn:HG; simpl.
  - intros HF. destruct (ForEach_throw _ _ _ _ _ _ HF)
      as [(Hm & r & D & S & _ & ->)|(r & _ & Hd)].
    + left. split; [done|]. by eexists _, _, _, _.
    + destruct (DispatchChunk_throw _ _ _ _ _ Hd) as [(ty & _ & -> & Hty)|[_ ->]].
      * right; left. by eexists _, _.
      * by right; right.
  - exfalso. unfold GatherAndSortChunks in HG.
    assert (Hcol : ∀ entries, GatherColumns (Chunks (QuantizedPool ld)) entries ≠ Throw e').
    { induction entries as [|[c l] entries IH]; cbn [GatherColumns]; [done|].
      unfold At. repeat case_match; cbn [mbind Res_bind]; try done.
      destruct (GatherColumns _ entries); cbn [mbind Res_bind]; congruence. }
    assert (Hfk : ∀ fakes, GatherFake (Chunks (QuantizedPool ld)) fakes ≠ Throw e').
    { induction fakes as [|f fakes IH]; cbn [GatherFake]; [done|].
      case_decide; [done|].
      unfold At. repeat case_match; cbn [mbind Res_bind]; try done.
      destruct (GatherFake _ fakes); cbn [mbind Res_bind]; congruence. }
    specialize (Hcol (map_to_list (ColumnIndexToLocalIndex (QuantizedPool ld)))).
    specialize (Hfk (FakeIndices (QuantizedPool ld))).
    destruct (GatherColumns _ _); cbn [mbind Res_bind] in HG; [|congruence|done].
    destruct (GatherFake _ _); cbn [mbind Res_bind] in HG; [done|congruence|done].
  - done.
Qed.

Lemma StreamM_exceptions_witness :
  (ColumnsDump (QuantizedPool ExLoader) = [] ∧
   ∃ D S d s, UnexpectedColumnType Categ = EvictorOrderViolated D S d s) ∨
  (∃ columnType columnIdx,
     UnexpectedColumnType Categ = ExpectedDispatchableColumn columnType columnIdx ∧
     columnType ∈ [Auxiliary; Timestamp; Sparse; Prediction; Text]) ∨
  UnexpectedColumnType Categ = UnexpectedColumnType Categ.
Proof.
  apply (@StreamM_exceptions (ExCollaborators ExPool) ExLoader (mkDoState DoEvictor [])).
  vm_compute. reflexivity.
Defined.

(** ** The shape of the trace of [Do] *)

Lemma ForEach_cons {A} (body : A → M unit) x rest st :
  ForEach body (x :: rest) st =
    match body x st with
    | (Ok _, st') => ForEach body rest st'
    | (Throw e, st') => (Throw e, st')
    | (Undefined u, st') => (Undefined u, st')
    end.
Proof. reflexivity. Qed.

Section TraceFacts.

Context `{TCollaborators}.
Variable ld : TCBQuantizedDataLoader.

Lemma DispatchChunk_calls_parts flat base r :
  Forall (λ e, IsPartEvent e = true) (CallsOf (DispatchChunk ld flat base r)).
Proof.
  destruct (DispatchChunk ld flat base r) as [es| |] eqn:HD; simpl; [|done..].
  rewrite Forall_forall. intros e He.
  unfold DispatchChunk in HD.
  destruct (IsStringColumn _ _); [injection HD as <-; by apply elem_of_nil in He|].
  destruct (At (ColumnTypes _) _) as [columnType| |]; cbn [mbind Res_bind] in HD; [|done..].
  case_bool_decide; [injection HD as <-; by apply elem_of_nil in He|].
  destruct (Ensure _ _) as [[]| |]; cbn [mbind Res_bind] in HD; [|done..].
  destruct (match flat !! ColumnIndex r with Some _ => _ | None => _ end)
    as [[|]| |]; cbn [mbind Res_bind] in HD; try done.
  - injection HD as <-; by apply elem_of_nil in He.
  - apply AddChunk_parts in HD. rewrite Forall_forall in HD. by apply HD.
Qed.

Lemma filter_part_parts (l : list Event) :
  Forall (λ e, IsPartEvent e = true) l → filter (λ e, IsPartEvent e = true) l = l.
Proof.
  induction 1 as [|e l He _ IH]; [done|]. by rewrite filter_cons_True, IH.
Qed.

Lemma filter_part_system (l : list Event) :
  Forall (λ e, IsSystemEvent e = true) l → filter (λ e, IsPartEvent e = true) l = [].
Proof.
  induction 1 as [|e l He _ IH]; [done|].
  rewrite filter_cons_False; [done|]. by destruct e.
Qed.

(** One loop step appends the calls of the dispatch, then advisories. *)
Lemma ProcessChunk_trace flat base r st :
  ∃ calls sys,
    Trace (ProcessChunk ld flat base r st).2 = Trace st ++ calls ++ sys ∧
    Forall (λ e, IsSystemEvent e = true) sys ∧
    (calls = CallsOf (DispatchChunk ld flat base r) ∧
     (ProcessChunk ld flat base r st).1 =
       DispatchChunk ld flat base r ≫= (λ _, Ok ()) ∨
     calls = [] ∧ (ProcessChunk ld flat base r st).1 ≠ Ok ()) ∧
    ((ProcessChunk ld flat base r st).1 = Ok () →
     IsOk (DispatchChunk ld flat base r) = true).
Proof.
  rewrite ProcessChunk_eq. cbn zeta.
  destruct (if bool_decide _ then _ else _) as [[[]| |] ev1]; cbn [fst snd].
  - exists (CallsOf (DispatchChunk ld flat base r)),
      (MaybeEvict MadviseEvictThrows false ev1).1.
    split; [done|]. split; [apply MaybeEvict_system|]. split; [by left|].
    by destruct (DispatchChunk ld flat base r).
  - exists [], []. rewrite !app_nil_r. repeat split; try done. by right.
  - exists [], []. rewrite !app_nil_r. repeat split; try done. by right.
Qed.

Lemma ForEach_trace flat base refs : ∀ st,
  ∃ k loop,
    Trace (ForEach (ProcessChunk ld flat base) refs st).2 = Trace st ++ loop ∧
    filter (λ e, IsPartEvent e = true) loop =
      take k refs ≫= (λ r, CallsOf (DispatchChunk ld flat base r)) ∧
    Forall (λ e, IsPartEvent e = true ∨ IsSystemEvent e = true) loop ∧
    ((ForEach (ProcessChunk ld flat base) refs st).1 = Ok () →
     k = length refs ∧
     Forall (λ r, IsOk (DispatchChunk ld flat base r) = true) refs).
Proof.
  induction refs as [|r refs IH]; intros st.
  - exists 0%nat, []. rewrite app_nil_r. by repeat split.
  - rewrite (ForEach_cons (ProcessChunk ld flat base) r refs st).
    destruct (ProcessChunk_trace flat base r st) as (calls & sys & Htr & Hsys & Hcalls & Hok).
    assert (Hfilter : filter (λ e, IsPartEvent e = true) (calls ++ sys) = calls).
    { rewrite filter_app, (filter_part_system sys Hsys), app_nil_r.
      apply filter_part_parts. destruct Hcalls as [[-> _]|[-> _]]; [|done].
      apply DispatchChunk_calls_parts. }
    assert (Hkind : Forall (λ e, IsPartEvent e = true ∨ IsSystemEvent e = true)
                      (calls ++ sys)).
    { apply Forall_app. split.
      - eapply Forall_impl; [|by intros e He; left; exact He].
        destruct Hcalls as [[-> _]|[-> _]]; [|done]. apply DispatchChunk_calls_parts.
      - eapply Forall_impl; [exact Hsys|]. by right. }
    destruct (ProcessChunk ld flat base r st) as [[[]| |] st1]; cbn [fst snd] in *.
    + destruct (IH st1) as (k & loop & Htr' & Hparts & Hkind' & Hok').
      exists (S k), ((calls ++ sys) ++ loop). split; [by rewrite Htr', Htr, !app_assoc|].
      split; [|split].
      * rewrite filter_app, Hfilter, Hparts. cbn [take]. rewrite bind_cons.
        destruct Hcalls as [[-> _]|[_ ?]]; done.
      * by apply Forall_app.
      * intros Hrest. destruct (Hok' Hrest) as [-> Hall]. split; [done|].
        constructor; [by apply Hok | done].
    + exists 0%nat, (calls ++ sys). split; [done|]. split; [|split; [done|done]].
      rewrite Hfilter. destruct Hcalls as [[-> Hd]|[-> _]]; [|done].
      by destruct (DispatchChunk ld flat base r).
    + exists 0%nat, (calls ++ sys). split; [done|]. split; [|split; [done|done]].
      rewrite Hfilter. destruct Hcalls as [[-> Hd]|[-> _]]; [|done].
      by destruct (DispatchChunk ld flat base r).
Qed.

End TraceFacts.

Section DoTrace.

Context `{TCollaborators}.
Variable ld : TCBQuantizedDataLoader.

(** The calls [Do] makes for the chunks it gets through, from the chunk
    references. *)
Lemma StreamM_trace st :
  ∃ refs k loop,
    Trace (StreamM ld st).2 =
      Trace st ++ EvStart (DataMetaInfo ld) (ObjectCount ld) (ObjectsOrder ld)
                    (QuantizationSchema (QuantizedPool ld)) :: loop ∧
    Forall (λ e, IsPartEvent e = true ∨ IsSystemEvent e = true) loop ∧
    (GatherAndSortChunks (QuantizedPool ld) = Ok refs ∨
     IsOk (GatherAndSortChunks (QuantizedPool ld)) = false ∧ refs = [] ∧
       (StreamM ld st).1 ≠ Ok ()) ∧
    filter (λ e, IsPartEvent e = true) loop =
      take k refs ≫= (λ r, CallsOf (DispatchChunk ld
         (GetColumnIndexToFlatIndexMap (QuantizedPool ld))
         (GetColumnIndexToBaselineIndexMap (QuantizedPool ld)) r)) ∧
    ((StreamM ld st).1 = Ok () →
     k = length refs ∧
     Forall (λ r, IsOk (DispatchChunk ld
         (GetColumnIndexToFlatIndexMap (QuantizedPool ld))
         (GetColumnIndexToBaselineIndexMap (QuantizedPool ld)) r) = true) refs).
Proof.
  unfold StreamM, mbind, M_bind, Emit, LiftRes. cbn [fst snd Trace Evictor].
  destruct (GatherAndSortChunks (QuantizedPool ld)) as [refs| |] eqn:HG; cbn [fst snd].
  - destruct (ForEach_trace ld (GetColumnIndexToFlatIndexMap (QuantizedPool ld))
                (GetColumnIndexToBaselineIndexMap (QuantizedPool ld)) refs
                (mkDoState (Evictor st)
                   (Trace st ++ [EvStart (DataMetaInfo ld) (ObjectCount ld)
                                   (ObjectsOrder ld)
                                   (QuantizationSchema (QuantizedPool ld))])))
      as (k & loop & Htr & Hparts & Hkind & Hok).
    exists refs, k, loop. cbn [Trace] in Htr. rewrite Htr, <- app_assoc.
    repeat split; try done; try by left. all: by apply Hok.
  - exists [], 0%nat, []. repeat split; try done. right. by repeat split.
  - exists [], 0%nat, []. repeat split; try done. right. by repeat split.
Qed.

Lemma Advise_kind throws data size :
  Forall (λ e, IsPartEvent e = false ∧ IsStart e = false ∧ IsFinish e = false)
    (Advise throws data size).
Proof. unfold Advise. destruct (throws data size); repeat constructor. Qed.

Lemma MaybeEvict_kind throws force ev :
  Forall (λ e, IsPartEvent e = false ∧ IsStart e = false ∧ IsFinish e = false)
    (MaybeEvict throws force ev).1.
Proof. unfold MaybeEvict. case_match; [constructor | apply Advise_kind]. Qed.

Lemma option_kind (f : Z → Event) (o : option Z) :
  (∀ z, IsPartEvent (f z) = false ∧ IsStart (f z) = false ∧ IsFinish (f z) = false) →
  Forall (λ e, IsPartEvent e = false ∧ IsStart e = false ∧ IsFinish e = false)
    (option_list (f <$> o)).
Proof. intros Hf. destruct o; simpl; repeat constructor; apply Hf. Qed.

(** What [Do] appends after the loop. *)
Lemma DoM_tail st :
  ∃ tail,
    Trace (DoM ld st).2 = Trace (StreamM ld st).2 ++ tail ∧
    Forall (λ e, IsPartEvent e = false ∧ IsStart e = false) tail ∧
    ((DoM ld st).1 = Ok () →
     (StreamM ld st).1 = Ok () ∧
     ∃ t, tail = t ++ [EvFinish] ∧ Forall (λ e, IsFinish e = false) t) ∧
    ((DoM ld st).1 ≠ Ok () → Forall (λ e, IsFinish e = false) tail).
Proof.
  unfold DoM, mbind, M_bind, EvictorMaybeEvict, LiftRes, Emit.
  destruct (StreamM ld st) as [[[]| |] st1]; cbn [fst snd].
  2,3: exists []; by rewrite app_nil_r.
  pose proof (MaybeEvict_kind MadviseEvictThrows true (Evictor st1)) as Hadv.
  destruct (MaybeEvict MadviseEvictThrows true (Evictor st1)) as [adv ev1].
  cbn [fst snd Trace Evictor] in *.
  pose proof (option_kind EvSetGroupWeights) as Hw.
  pose proof (option_kind EvSetPairs) as Hp.
  pose proof (option_kind EvSetBaseline) as Hb.
  assert (Hweak : ∀ l, Forall (λ e, IsPartEvent e = false ∧ IsStart e = false ∧
                                    IsFinish e = false) l →
                       Forall (λ e, IsPartEvent e = false ∧ IsStart e = false) l ∧
                       Forall (λ e, IsFinish e = false) l).
  { intros l Hl. split; (eapply Forall_impl; [exact Hl|]); by intros e (? & ? & ?). }
  destruct (SetGroupWeights _ _) as [w| |]; cbn [fst snd Trace Evictor].
  2,3: exists adv; split; [done|]; destruct (Hweak adv Hadv); by repeat split.
  destruct (SetPairs _ _) as [p| |]; cbn [fst snd Trace Evictor].
  2,3: exists (adv ++ option_list (EvSetGroupWeights <$> w));
       split; [by rewrite app_assoc|];
       destruct (Hweak (adv ++ option_list (EvSetGroupWeights <$> w)))
         as [? ?]; [apply Forall_app; split; [done | by apply Hw]|];
       by repeat split.
  destruct (SetBaseline _ _ _) as [b| |]; cbn [fst snd Trace Evictor].
  2,3: exists (adv ++ option_list (EvSetGroupWeights <$> w)
                 ++ option_list (EvSetPairs <$> p));
       split; [by rewrite !app_assoc|];
       destruct (Hweak (adv ++ option_list (EvSetGroupWeights <$> w)
                          ++ option_list (EvSetPairs <$> p)))
         as [? ?]; [repeat (apply Forall_app; split); [done | by apply Hw | by apply Hp]|];
       by repeat split.
  exists ((adv ++ option_list (EvSetGroupWeights <$> w)
             ++ option_list (EvSetPairs <$> p)
             ++ option_list (EvSetBaseline <$> b)) ++ [EvFinish]).
  destruct (Hweak (adv ++ option_list (EvSetGroupWeights <$> w)
                     ++ option_list (EvSetPairs <$> p)
                     ++ option_list (EvSetBaseline <$> b))) as [Hk Hf].
  { repeat (apply Forall_app; split); [done | by apply Hw | by apply Hp | by apply Hb]. }
  split; [by rewrite !app_assoc|]. split; [|split].
  - apply Forall_app. split; [done | by repeat constructor].
  - intros _. split; [done|]. by eexists.
  - done.
Qed.

End DoTrace.

Lemma Do_fst_snd `{TCollaborators} ld :
  (Do ld).1 = (DoM ld (mkDoState DoEvictor [])).1 ∧
  (Do ld).2 = Trace (DoM ld (mkDoState DoEvictor [])).2.
Proof. unfold Do. by destruct (DoM ld (mkDoState DoEvictor [])). Qed.

Lemma kind_not_start_finish (l : list Event) :
  Forall (λ e, IsPartEvent e = true ∨ IsSystemEvent e = true) l →
  Forall (λ e, IsStart e = false) l ∧ Forall (λ e, IsFinish e = false) l.
Proof.
  intros Hl. split; (eapply Forall_impl; [exact Hl|]); by intros [] [?|?].
Qed.

(** X5. [Do] calls [Start] first, with the loader's meta information, object
    count, object order and the pool's quantization schema, and never again.
    When [Do] returns normally [Finish] is its last call and is made once;
    when [Do] ends with an exception [Finish] is not called at all. *)
Theorem Do_start_finish `{TCollaborators} (ld : TCBQuantizedDataLoader) :
  (∃ t, (Do ld).2 =
          EvStart (DataMetaInfo ld) (ObjectCount ld) (ObjectsOrder ld)
            (QuantizationSchema (QuantizedPool ld)) :: t ∧
        Forall (λ e, IsStart e = false) t) ∧
  ((Do ld).1 = Ok () →
   ∃ t, (Do ld).2 = t ++ [EvFinish] ∧ Forall (λ e, IsFinish e = false) t) ∧
  ((Do ld).1 ≠ Ok () → Forall (λ e, IsFinish e = false) (Do ld).2).
Proof.
  destruct (Do_fst_snd ld) as [-> ->].
  destruct (StreamM_trace ld (mkDoState DoEvictor [])) as (refs & k & loop & Htr & Hkind & _).
  destruct (DoM_tail ld (mkDoState DoEvictor [])) as (tail & Hdo & Htail & Hok & Hfail).
  destruct (kind_not_start_finish loop Hkind) as [HloopS HloopF].
  rewrite Hdo, Htr. cbn [Trace app].
  split; [|split].
  - eexists. split; [done|]. apply Forall_app. split; [done|].
    eapply Forall_impl; [exact Htail|]. by intros e [_ ?].
  - intros Hr. destruct (Hok Hr) as (_ & t & -> & Ht).
    exists (EvStart (DataMetaInfo ld) (ObjectCount ld) (ObjectsOrder ld)
              (QuantizationSchema (QuantizedPool ld)) :: loop ++ t).
    split; [by rewrite app_comm_cons, app_assoc|].
    constructor; [done|]. by apply Forall_app.
  - intros Hr. constructor; [done|]. apply Forall_app. split; [done | by apply Hfail].
Qed.

Lemma Do_start_finish_witness :
  ∃ t, (@Do (ExCollaborators ExPool)
          (mkLoader 3 ExPool NoPath NoPath NoPath Ordered (mkMetaInfo 2 []) [false; true])).2
       = t ++ [EvFinish] ∧ Forall (λ e, IsFinish e = false) t.
Proof.
  apply (proj1 (proj2 (@Do_start_finish (ExCollaborators ExPool)
    (mkLoader 3 ExPool NoPath NoPath NoPath Ordered (mkMetaInfo 2 []) [false; true])))).
  vm_compute. reflexivity.
Defined.

(** What the loop makes of one chunk: nothing, or one part at the chunk's
    document offset made from the chunk's bytes. *)
Lemma DispatchChunk_calls ld flat base r :
  CallsOf (DispatchChunk ld flat base r) = [] ∨
  ∃ e, CallsOf (DispatchChunk ld flat base r) = [e] ∧
       EventOffset e = Some (DocumentOffset (Description r)) ∧
       EventSource e = Some (MakeArrayRef (Quants (Chunk (Description r)))).
Proof.
  unfold DispatchChunk.
  destruct (IsStringColumn _ _); [by left|].
  destruct (At (ColumnTypes _) _) as [columnType| |]; cbn [mbind Res_bind]; [|by left..].
  case_bool_decide; [by left|].
  destruct (Ensure _ _) as [[]| |]; cbn [mbind Res_bind]; [|by left..].
  destruct (match flat !! ColumnIndex r with Some _ => _ | None => _ end)
    as [[|]| |]; cbn [mbind Res_bind]; try by left.
  destruct (AddChunk _ _ _ _) as [es| |] eqn:HA; [|by left..].
  destruct (AddChunk_one_part _ _ _ _ _ HA) as (e & -> & _ & Hoff & Hsrc).
  right. by exists e.
Qed.

(** The start addresses of the byte ranges the parts of a trace were made
    from. *)
Lemma part_addresses_sorted ld flat base refs :
  StronglySorted AddressLe refs →
  StronglySorted Z.le
    (omap (λ e, ArrData <$> EventSource e)
       (refs ≫= λ r, CallsOf (DispatchChunk ld flat base r))) ∧
  Forall (λ a, ∃ r, r ∈ refs ∧ a = RefData r)
    (omap (λ e, ArrData <$> EventSource e)
       (refs ≫= λ r, CallsOf (DispatchChunk ld flat base r))).
Proof.
  induction 1 as [|r refs Hs [IHs IHm] Hle]; [by split; constructor|].
  rewrite bind_cons, omap_app.
  assert (Hrest : Forall (λ a, ∃ r0, r0 ∈ r :: refs ∧ a = RefData r0)
                    (omap (λ e, ArrData <$> EventSource e)
                       (refs ≫= λ r0, CallsOf (DispatchChunk ld flat base r0)))).
  { eapply Forall_impl; [exact IHm|]. intros a (r0 & ? & ?).
    exists r0. split; [by apply list_elem_of_further | done]. }
  destruct (DispatchChunk_calls ld flat base r) as [->|(e & -> & _ & Hsrc)].
  - by split.
  - cbn [omap list_omap]. rewrite Hsrc. cbn [fmap option_fmap option_map app].
    split.
    + constructor; [done|]. rewrite Forall_forall in IHm. rewrite Forall_forall in Hle.
      rewrite Forall_forall. intros a Ha. destruct (IHm a Ha) as (r0 & Hr0 & ->). by apply Hle.
    + constructor; [|done]. exists r. split; [apply list_elem_of_here | done].
Qed.

(** X6. The parts [Do] delivers are the parts of the gathered chunks, in the
    gathered order and without gaps: those of the first [k] chunks, and of
    all of them when [Do] returns normally, in which case no chunk failed to
    dispatch.  The byte ranges the parts were made from start at
    non-decreasing addresses.  When the gatherer fails no part is
    delivered. *)
Theorem Do_parts_in_order `{TCollaborators} (ld : TCBQuantizedDataLoader) :
  (∀ refs,
     GatherAndSortChunks (QuantizedPool ld) = Ok refs →
     ∃ k, filter (λ e, IsPartEvent e = true) (Do ld).2 =
            take k refs ≫= (λ r, CallsOf (DispatchChunk ld
               (GetColumnIndexToFlatIndexMap (QuantizedPool ld))
               (GetColumnIndexToBaselineIndexMap (QuantizedPool ld)) r)) ∧
          ((Do ld).1 = Ok () →
           k = length refs ∧
           Forall (λ r, IsOk (DispatchChunk ld
               (GetColumnIndexToFlatIndexMap (QuantizedPool ld))
               (GetColumnIndexToBaselineIndexMap (QuantizedPool ld)) r) = true) refs)) ∧
  StronglySorted Z.le
    (omap (λ e, ArrData <$> EventSource e)
       (filter (λ e, IsPartEvent e = true) (Do ld).2)) ∧
  (IsOk (GatherAndSortChunks (QuantizedPool ld)) = false →
   filter (λ e, IsPartEvent e = true) (Do ld).2 = [] ∧ (Do ld).1 ≠ Ok ()).
Proof.
  destruct (Do_fst_snd ld) as [-> ->].
  destruct (StreamM_trace ld (mkDoState DoEvictor []))
    as (refs & k & loop & Htr & Hkind & HG & Hparts & Hall).
  destruct (DoM_tail ld (mkDoState DoEvictor [])) as (tail & Hdo & Htail & Hok & _).
  assert (Hfilter : filter (λ e, IsPartEvent e = true)
                      (Trace (DoM ld (mkDoState DoEvictor [])).2) =
                    filter (λ e, IsPartEvent e = true) loop).
  { rewrite Hdo, Htr. cbn [Trace app]. rewrite filter_cons_False by done.
    rewrite filter_app.
    assert (filter (λ e, IsPartEvent e = true) tail = []) as ->; [|by rewrite app_nil_r].
    clear -Htail. induction Htail as [|e tail [He _] _ IH]; [done|].
    rewrite filter_cons_False; [done|]. by rewrite He. }
  rewrite Hfilter, Hparts.
  split; [|split].
  - intros refs' HG'. destruct HG as [HG|(Hno & _)]; [|by rewrite HG' in Hno].
    rewrite HG in HG'. injection HG' as <-. exists k. split; [done|].
    intros Hr. by apply Hall, Hok.
  - destruct HG as [HG|(_ & -> & _)]; [|rewrite take_nil; constructor].
    apply part_addresses_sorted.
    assert (Hs : StronglySorted AddressLe refs).
    { apply Sorted_StronglySorted.
      - intros a b c. unfold AddressLe. lia.
      - unfold GatherAndSortChunks in HG.
        destruct (GatherColumns _ _); cbn [mbind Res_bind] in HG; [|done..].
        destruct (GatherFake _ _); cbn [mbind Res_bind] in HG; [|done..].
        injection HG as <-. apply Sort_Sorted. }
    rewrite <- (take_drop k refs) in Hs. by apply StronglySorted_app_1_l in Hs.
  - intros Hno. destruct HG as [HG|(_ & -> & Hfail)]; [by rewrite HG in Hno|].
    rewrite take_nil. split; [done|]. intros Hr. by apply Hfail, Hok.
Qed.

Lemma Do_parts_in_order_witness :
  ∃ k, filter (λ e, IsPartEvent e = true) (@Do (ExCollaborators ExPool) ExLoader).2 =
         take k (Sort ChunkLess
                   [mkChunkRef (ExChunk 1000 2 0 8) 0 0; mkChunkRef (ExChunk 1030 1 2 8) 0 0;
                    mkChunkRef (ExChunk 1010 12 0 32) 1 1; ExCategRef;
                    mkChunkRef (ExChunk 1050 5 0 8) 0 3])
         ≫= (λ r, CallsOf (DispatchChunk ExLoader ExFlat ∅ r)).
Proof.
  destruct (proj1 (@Do_parts_in_order (ExCollaborators ExPool) ExLoader)
              (Sort ChunkLess
                 [mkChunkRef (ExChunk 1000 2 0 8) 0 0; mkChunkRef (ExChunk 1030 1 2 8) 0 0;
                  mkChunkRef (ExChunk 1010 12 0 32) 1 1; ExCategRef;
                  mkChunkRef (ExChunk 1050 5 0 8) 0 3]))
    as (k & Hk & _).
  - vm_compute. reflexivity.
  - exists k. exact Hk.
Defined.

(** ** The evictor as the loop uses it *)

Lemma Forward_ge lastEnd chunks :
  Forward lastEnd chunks → Forall (λ c, lastEnd <= RefData c) chunks.
Proof.
  revert lastEnd. induction chunks as [|c chunks IH]; intros lastEnd; [constructor|].
  intros ((Hd & Hs & He) & Hle & Hrest). constructor; [done|].
  eapply Forall_impl; [exact (IH _ Hrest)|]. intros d Hd'. simpl in Hd'. lia.
Qed.

Lemma Forward_weaken lastEnd lastEnd' chunks :
  lastEnd' <= lastEnd → Forward lastEnd chunks → Forward lastEnd' chunks.
Proof.
  destruct chunks as [|c chunks]; [done|]. intros Hle (Hv & Hstart & Hrest).
  repeat split; try done; try apply Hv. lia.
Qed.

Lemma Forward_valid lastEnd chunks :
  Forward lastEnd chunks → Forall ValidRange chunks.
Proof.
  revert lastEnd. induction chunks as [|c chunks IH]; intros lastEnd; [constructor|].
  intros (Hv & _ & Hrest). constructor; [done | by eapply IH].
Qed.

Lemma AdvisedRanges_MaybeEvict throws force ev :
  AdvisedRanges (MaybeEvict throws force ev).1 = [] ∨
  AdvisedRanges (MaybeEvict throws force ev).1 = [(Data_ ev, Size_ ev)].
Proof.
  unfold MaybeEvict, Advise. case_match; [by left|]. right.
  by destruct (throws (Data_ ev) (Size_ ev)).
Qed.

Lemma RunCalls_advised throws calls : ∀ ev lastEnd later,
  EvictorWf ev → Data_ ev + Size_ ev <= lastEnd →
  Forward lastEnd (PushedChunks calls ++ later) →
  Forall (λ range, Forall (λ c, range.1 + range.2 <= RefData c) later)
    (AdvisedRanges (RunCalls throws calls ev).2).
Proof.
  induction calls as [|[chunk|force] calls IH]; intros ev lastEnd later Hwf Hle Hfw.
  - constructor.
  - cbn [PushedChunks omap list_omap app] in Hfw. destruct Hfw as (Hv & Hstart & Hrest).
    destruct (Push_end chunk ev Hwf Hv ltac:(lia)) as (Hok & Hwf' & Hend).
    cbn [RunCalls]. destruct (Push chunk ev) as [r ev'] eqn:HP. simpl in *. subst r.
    specialize (IH ev' (RefData chunk + RefSize chunk) later Hwf' ltac:(lia) Hrest).
    destruct (RunCalls throws calls ev') as [[r ev''] t]. done.
  - cbn [PushedChunks omap list_omap] in Hfw. cbn [RunCalls].
    pose proof (MaybeEvict_wf throws force ev Hwf) as Hwf'.
    destruct (MaybeEvict_range throws force ev) as (HD & HS & _).
    pose proof (AdvisedRanges_MaybeEvict throws force ev) as Hadv.
    destruct (MaybeEvict throws force ev) as [t1 ev'] eqn:HM. simpl in *.
    specialize (IH ev' lastEnd later Hwf' ltac:(lia) Hfw).
    destruct (RunCalls throws calls ev') as [[r ev''] t]. simpl in *.
    unfold AdvisedRanges in *. rewrite omap_app. apply Forall_app. split; [|done].
    destruct Hadv as [->| ->]; constructor; [|constructor]. simpl.
    apply Forward_ge in Hfw. apply Forall_app in Hfw as [_ Hlater].
    eapply Forall_impl; [exact Hlater|]. intros c Hc. simpl in Hc. lia.
Qed.

(** X7. The evictor never advises the release of bytes it has yet to see:
    in a run of pushes in ascending, non-overlapping order, with any calls
    of [MaybeEvict] in between, every range handed to [MadviseEvict] ends at
    or before the start of every chunk pushed after that advisory. *)
Theorem Evictor_advises_behind (throws : Z → Z → bool) (minSize : Z)
    (before after : list TEvictorCall) :
  Forward 0 (PushedChunks (before ++ after)) →
  ∀ data size chunk,
    (data, size) ∈ AdvisedRanges (RunCalls throws before (NewEvictor minSize)).2 →
    chunk ∈ PushedChunks after →
    data + size <= RefData chunk.
Proof.
  intros Hfw data size chunk Hadv Hchunk.
  unfold PushedChunks in Hfw. rewrite omap_app in Hfw.
  pose proof (RunCalls_advised throws before (NewEvictor minSize) 0
                (PushedChunks after) (NewEvictor_wf minSize) ltac:(simpl; lia) Hfw) as Hall.
  rewrite Forall_forall in Hall. specialize (Hall _ Hadv).
  rewrite Forall_forall in Hall. by apply (Hall chunk).
Qed.

Lemma Evictor_advises_behind_witness :
  4096 + 2 ^ 24 <= RefData (ExRef (4096 + 2 ^ 24 + 100) 8).
Proof.
  apply (Evictor_advises_behind NeverThrows (2 ^ 24)
           [CallPush (ExRef 4096 (2 ^ 24)); CallMaybeEvict false]
           [CallPush (ExRef (4096 + 2 ^ 24 + 100) 8); CallMaybeEvict false]).
  - vm_compute. repeat split; congruence.
  - vm_compute. apply list_elem_of_here.
  - vm_compute. apply list_elem_of_here.
Defined.

Lemma RunCalls_end throws calls : ∀ ev lastEnd,
  EvictorWf ev → Data_ ev + Size_ ev <= lastEnd →
  Forward lastEnd (PushedChunks calls) →
  Data_ (RunCalls throws calls ev).1.2 + Size_ (RunCalls throws calls ev).1.2 =
    match last (PushedChunks calls) with
    | Some c => RefData c + RefSize c
    | None => Data_ ev + Size_ ev
    end.
Proof.
  induction calls as [|[chunk|force] calls IH]; intros ev lastEnd Hwf Hle Hfw.
  - done.
  - cbn [PushedChunks omap list_omap] in *. destruct Hfw as (Hv & Hstart & Hrest).
    destruct (Push_end chunk ev Hwf Hv ltac:(lia)) as (Hok & Hwf' & Hend).
    cbn [RunCalls]. destruct (Push chunk ev) as [r ev'] eqn:HP. simpl in Hok, Hwf', Hend.
    subst r. specialize (IH ev' (RefData chunk + RefSize chunk) Hwf' ltac:(lia) Hrest).
    rewrite last_cons.
    destruct (RunCalls throws calls ev') as [[r ev''] t]. cbn [fst snd] in *.
    rewrite IH. destruct (last _); [done | exact Hend].
  - cbn [PushedChunks omap list_omap] in *. cbn [RunCalls].
    pose proof (MaybeEvict_wf throws force ev Hwf) as Hwf'.
    destruct (MaybeEvict_range throws force ev) as (HD & HS & _).
    destruct (MaybeEvict throws force ev) as [t1 ev'] eqn:HM. cbn [fst snd] in *.
    specialize (IH ev' lastEnd Hwf' ltac:(lia) Hfw).
    destruct (RunCalls throws calls ev') as [[r ev''] t]. cbn [fst snd] in *.
    rewrite IH, HD, HS. done.
Qed.

(** X8. After pushes in ascending, non-overlapping order, with any calls of
    [MaybeEvict] in between, the visited range ends exactly where the chunk
    pushed last ends; so the next push succeeds exactly when its chunk
    starts at or after the end of the chunk pushed last, whatever was
    evicted in between. *)
Theorem Evictor_visited_end (throws : Z → Z → bool) (minSize : Z)
    (calls : list TEvictorCall) (lastChunk : TChunkRef) :
  Forward 0 (PushedChunks calls) →
  last (PushedChunks calls) = Some lastChunk →
  Data_ (RunCalls throws calls (NewEvictor minSize)).1.2 +
    Size_ (RunCalls throws calls (NewEvictor minSize)).1.2 =
    RefData lastChunk + RefSize lastChunk ∧
  ∀ next,
    (Push next (RunCalls throws calls (NewEvictor minSize)).1.2).1 = Ok () ↔
    RefData lastChunk + RefSize lastChunk <= RefData next.
Proof.
  intros Hfw Hlast.
  pose proof (RunCalls_end throws calls (NewEvictor minSize) 0
                (NewEvictor_wf minSize) ltac:(simpl; lia) Hfw) as Hend.
  rewrite Hlast in Hend. split; [exact Hend|].
  intros next. rewrite Push_ok_iff.
  destruct (RunCalls_forward throws calls (NewEvictor minSize) 0
              (NewEvictor_wf minSize) ltac:(simpl; lia) Hfw) as [_ Hwf].
  by rewrite (VisitedEnd_wf _ Hwf), Hend.
Qed.

Lemma Evictor_visited_end_witness :
  Data_ (RunCalls NeverThrows
           [CallPush (ExRef 1000 2); CallMaybeEvict true; CallPush (ExRef 1010 12)]
           (NewEvictor (2 ^ 24))).1.2 +
  Size_ (RunCalls NeverThrows
           [CallPush (ExRef 1000 2); CallMaybeEvict true; CallPush (ExRef 1010 12)]
           (NewEvictor (2 ^ 24))).1.2 = 1022.
Proof.
  apply (proj1 (Evictor_visited_end NeverThrows (2 ^ 24)
    [CallPush (ExRef 1000 2); CallMaybeEvict true; CallPush (ExRef 1010 12)]
    (ExRef 1010 12) ltac:(vm_compute; repeat split; congruence) eq_refl)).
Defined.

Lemma RunCalls_app throws calls1 calls2 ev ev1 t1 :
  RunCalls throws calls1 ev = (Ok (), ev1, t1) →
  RunCalls throws (calls1 ++ calls2) ev =
    ((RunCalls throws calls2 ev1).1, t1 ++ (RunCalls throws calls2 ev1).2).
Proof.
  revert ev ev1 t1. induction calls1 as [|[chunk|force] calls1 IH]; intros ev ev1 t1.
  - intros [= <- <-]. cbn [app RunCalls]. by destruct (RunCalls throws calls2 ev) as [[? ?] ?].
  - cbn [app RunCalls]. destruct (Push chunk ev) as [[[]| |] ev'] eqn:HP; [|done..].
    destruct (RunCalls throws calls1 ev') as [[r ev''] t] eqn:HR.
    intros [= -> -> ->]. rewrite (IH ev' ev1 t1 HR).
    by destruct (RunCalls throws calls2 ev1) as [[? ?] ?].
  - cbn [app RunCalls]. destruct (MaybeEvict throws force ev) as [ta ev'] eqn:HM.
    destruct (RunCalls throws calls1 ev') as [[r ev''] t] eqn:HR.
    intros [= -> -> <-]. rewrite (IH ev' ev1 t HR).
    destruct (RunCalls throws calls2 ev1) as [[? ?] ?]. cbn [fst snd].
    by rewrite app_assoc.
Qed.

Lemma LoopCalls_below throws refs : ∀ ev,
  EvictorWf ev → Evicted_ ev = false → Data_ ev ≠ 0 →
  Forward (Data_ ev + Size_ ev) refs →
  match last refs with
  | Some c => RefData c + RefSize c
  | None => Data_ ev + Size_ ev
  end - Data_ ev < MinSizeInBytesToEvict_ ev →
  RunCalls throws (LoopCalls refs) ev =
    (Ok (),
     mkEvictor (MinSizeInBytesToEvict_ ev) false (Data_ ev)
       (match last refs with
        | Some c => RefData c + RefSize c
        | None => Data_ ev + Size_ ev
        end - Data_ ev),
     []).
Proof.
  induction refs as [|c refs IH]; intros ev Hwf Hflag Hbase Hfw Hbelow.
  - cbn. destruct ev as [m e d s]. simpl in *. subst e. do 2 f_equal. f_equal. lia.
  - destruct Hfw as (Hv & Hstart & Hrest).
    assert (Hge : RefData c + RefSize c <=
                  match last (c :: refs) with
                  | Some c' => RefData c' + RefSize c'
                  | None => Data_ ev + Size_ ev
                  end).
    { rewrite last_cons. destruct (last refs) as [c'|] eqn:Hl; [|lia].
      assert (c' ∈ refs) as Hin by (by apply last_Some_elem_of).
      pose proof (Forward_valid _ _ Hrest) as Hvalid.
      apply Forward_ge in Hrest.
      rewrite Forall_forall in Hrest. rewrite Forall_forall in Hvalid.
      specialize (Hrest c' Hin). destruct (Hvalid c' Hin) as (? & ? & ?).
      simpl in Hrest. lia. }
    pose proof (VisitedEnd_wf ev Hwf) as HVE. unfold VisitedEnd in HVE.
    destruct Hwf as (Hd0 & Hs0 & He0). pose proof Hv as (Hd & Hs & He).
    rewrite last_cons in Hbelow, Hge |- *.
    set (ev1 := mkEvictor (MinSizeInBytesToEvict_ ev) false (Data_ ev)
                  (RefData c - Data_ ev + RefSize c)).
    assert (HP : Push c ev = (Ok (), ev1)).
    { unfold Push. rewrite HVE.
      destruct (Z.leb_spec (Data_ ev + Size_ ev) (RefData c)); [|lia].
      destruct (Z.eqb_spec (Data_ ev) 0); [done|]. rewrite Hflag.
      by rewrite wrap64_small by lia. }
    assert (HM : MaybeEvict throws false ev1 = ([], ev1)).
    { unfold MaybeEvict. cbn [ev1 Evicted_ Size_ MinSizeInBytesToEvict_ negb orb andb].
      destruct (Z.ltb_spec (RefData c - Data_ ev + RefSize c) (MinSizeInBytesToEvict_ ev));
        [done|]. destruct (last refs); lia. }
    unfold LoopCalls. rewrite bind_cons. cbn [app RunCalls]. rewrite HP, HM.
    fold (LoopCalls refs).
    specialize (IH ev1). cbn [ev1 MinSizeInBytesToEvict_ Data_ Size_ Evicted_] in IH.
    replace (Data_ ev + (RefData c - Data_ ev + RefSize c))
      with (RefData c + RefSize c) in IH by lia.
    rewrite IH.
    + cbn [app]. destruct (last refs); done.
    + unfold EvictorWf. cbn. lia.
    + done.
    + done.
    + done.
    + destruct (last refs); lia.
Qed.

(** X9. When the chunks of a mapped pool, pushed in ascending,
    non-overlapping order, span less than the loader's threshold of 16 MiB
    from the start of the first to the end of the last, the evictor calls of
    a whole [Do] (a push and [MaybeEvict(false)] per chunk, then
    [MaybeEvict(true)]) advise nothing during the loop and advise once at the
    end, over the whole span. *)
Theorem Evictor_small_pool (throws : Z → Z → bool) (first : TChunkRef)
    (rest : list TChunkRef) (lastChunk : TChunkRef) :
  0 < RefData first →
  Forward 0 (first :: rest) →
  last (first :: rest) = Some lastChunk →
  RefData lastChunk + RefSize lastChunk - RefData first < 2 ^ 24 →
  RunCalls throws (DoCalls (first :: rest)) DoEvictor =
    (Ok (),
     mkEvictor (2 ^ 24) true (RefData first)
       (RefData lastChunk + RefSize lastChunk - RefData first),
     Advise throws (RefData first)
       (RefData lastChunk + RefSize lastChunk - RefData first)).
Proof.
  intros Hpos (Hv & _ & Hrest) Hlast Hspan. rewrite last_cons in Hlast.
  pose proof Hv as (Hd & Hs & He).
  set (ev1 := mkEvictor (2 ^ 24) false (RefData first) (RefSize first)).
  assert (HP : Push first DoEvictor = (Ok (), ev1)).
  { assert (DoEvictor = mkEvictor (2 ^ 24) false 0 0) as -> by (by vm_compute).
    unfold Push. cbn [Data_ Size_ Evicted_ MinSizeInBytesToEvict_].
    unfold PtrAdd. rewrite (wrap64_small (0 + 0)) by lia.
    destruct (Z.leb_spec (0 + 0) (RefData first)); [|lia]. reflexivity. }
  assert (Hend : RefData first + RefSize first <= RefData lastChunk + RefSize lastChunk).
  { destruct (last rest) as [c'|] eqn:Hl; injection Hlast as <-; [|lia].
    assert (c' ∈ rest) as Hin by (by apply last_Some_elem_of).
    pose proof (Forward_valid _ _ Hrest) as Hvalid.
    pose proof (Forward_ge _ _ Hrest) as Hge.
    rewrite Forall_forall in Hge. rewrite Forall_forall in Hvalid.
    specialize (Hge c' Hin). destruct (Hvalid c' Hin) as (? & ? & ?).
    simpl in Hge. lia. }
  assert (HM : MaybeEvict throws false ev1 = ([], ev1)).
  { unfold MaybeEvict. cbn [ev1 Evicted_ Size_ MinSizeInBytesToEvict_ negb orb andb].
    destruct (Z.ltb_spec (RefSize first) (2 ^ 24)) as [|Hbig]; [done|].
    exfalso. clear -Hspan Hend Hbig Hd. lia. }
  assert (Hloop : RunCalls throws (LoopCalls (first :: rest)) DoEvictor =
                    (Ok (),
                     mkEvictor (2 ^ 24) false (RefData first)
                       (RefData lastChunk + RefSize lastChunk - RefData first),
                     [])).
  { unfold LoopCalls. rewrite bind_cons. cbn [app RunCalls]. rewrite HP, HM.
    fold (LoopCalls rest).
    rewrite (LoopCalls_below throws rest ev1).
    - cbn [ev1 app Data_ Size_ MinSizeInBytesToEvict_].
      destruct (last rest); injection Hlast as <-; done.
    - unfold EvictorWf. cbn. lia.
    - done.
    - cbn. lia.
    - exact Hrest.
    - cbn [ev1 Data_ Size_ MinSizeInBytesToEvict_].
      destruct (last rest); injection Hlast as <-; lia. }
  unfold DoCalls. rewrite (RunCalls_app _ _ _ _ _ _ Hloop).
  cbn [RunCalls]. rewrite MaybeEvict_forced by done.
  cbn [fst snd app Data_ Size_]. by rewrite app_nil_r.
Qed.

Lemma Evictor_small_pool_witness :
  RunCalls NeverThrows (DoCalls [ExRef 1000 2; ExRef 1010 12; ExRef 1030 1]) DoEvictor =
    (Ok (), mkEvictor (2 ^ 24) true 1000 31, [EvMadviseEvict 1000 31]).
Proof.
  apply (Evictor_small_pool NeverThrows (ExRef 1000 2) [ExRef 1010 12; ExRef 1030 1]
           (ExRef 1030 1)).
  - vm_compute. reflexivity.
  - vm_compute. repeat split; congruence.
  - reflexivity.
  - vm_compute. reflexivity.
Defined.

(** ** The loop and its evictor *)

(** X10. In mapped-file mode the [MaybeEvict] deferred in the loop body runs
    on every way out of the dispatch: whether the chunk was delivered,
    skipped or made the dispatch throw, the evictor afterwards is the pushed
    evictor after [MaybeEvict(false)], and its advisories follow the
    chunk's visitor call in the trace.  When the push itself throws, neither
    the dispatch nor [MaybeEvict] runs: the trace is unchanged. *)
Theorem ProcessChunk_deferred `{TCollaborators} (ld : TCBQuantizedDataLoader)
    (flat base : gmap Z Z) (r : TChunkRef) (st : TDoState) :
  ColumnsDump (QuantizedPool ld) = [] →
  (RefData r < VisitedEnd (Evictor st) →
     ProcessChunk ld flat base r st =
       (Throw (EvictorOrderViolated (Data_ (Evictor st)) (Size_ (Evictor st))
                 (RefData r) (RefSize r)),
        mkDoState (ResetEvicted (Evictor st)) (Trace st))) ∧
  (VisitedEnd (Evictor st) <= RefData r →
     (ProcessChunk ld flat base r st).1 = DispatchChunk ld flat base r ≫= (λ _, Ok ()) ∧
     Evictor (ProcessChunk ld flat base r st).2 =
       (MaybeEvict MadviseEvictThrows false (Push r (Evictor st)).2).2 ∧
     Trace (ProcessChunk ld flat base r st).2 =
       Trace st ++ CallsOf (DispatchChunk ld flat base r) ++
       (MaybeEvict MadviseEvictThrows false (Push r (Evictor st)).2).1).
Proof.
  intros Hmapped. rewrite ProcessChunk_eq. rewrite bool_decide_eq_true_2 by done.
  cbn zeta. split.
  - intros Hlt. unfold Push, VisitedEnd in *.
    destruct (Z.leb_spec (PtrAdd (Data_ (Evictor st)) (Size_ (Evictor st))) (RefData r));
      [lia | done].
  - intros Hle. pose proof (proj2 (Push_ok_iff r (Evictor st)) Hle) as Hok.
    rewrite Hok. done.
Qed.

Lemma ProcessChunk_deferred_witness :
  Evictor (@ProcessChunk (ExCollaborators ExPool) ExLoader ExFlat ∅ ExCategRef
             (mkDoState (mkEvictor 16 false 1000 31) [])).2 =
    mkEvictor 16 true 1000 43 ∧
  (@ProcessChunk (ExCollaborators ExPool) ExLoader ExFlat ∅ ExCategRef
     (mkDoState (mkEvictor 16 false 1000 31) [])).1 = Throw (UnexpectedColumnType Categ).
Proof.
  destruct (proj2 (@ProcessChunk_deferred (ExCollaborators ExPool) ExLoader ExFlat ∅
                     ExCategRef (mkDoState (mkEvictor 16 false 1000 31) []) eq_refl))
    as (Hres & Hev & _).
  - vm_compute. congruence.
  - split; [rewrite Hev | rewrite Hres]; vm_compute; reflexivity.
Defined.

Lemma sorted_disjoint_Forward refs : ∀ lastEnd,
  StronglySorted AddressLe refs →
  Forall NonEmptyRange refs →
  PairwiseDisjoint refs →
  Forall (λ c, lastEnd <= RefData c) refs →
  Forward lastEnd refs.
Proof.
  induction refs as [|c refs IH]; intros lastEnd Hs Hne Hdis Hge; [done|].
  apply StronglySorted_inv in Hs as [Hs Hle].
  apply Forall_cons in Hne as [[Hv Hpos] Hne].
  destruct Hdis as [Hc Hdis]. apply Forall_cons in Hge as [Hstart _].
  repeat split; try done; try apply Hv.
  apply IH; try done.
  rewrite Forall_forall in Hle, Hc, Hne |- *. intros d Hd.
  specialize (Hle d Hd). specialize (Hne d Hd). destruct Hne as [_ Hdpos].
  destruct (Hc d Hd) as [?|?]; [done|]. unfold AddressLe in Hle. lia.
Qed.

Lemma ForEach_no_violation `{TCollaborators} ld flat base refs : ∀ st lastEnd,
  EvictorWf (Evictor st) →
  Data_ (Evictor st) + Size_ (Evictor st) <= lastEnd →
  Forward lastEnd refs →
  ∀ D S d s,
    (ForEach (ProcessChunk ld flat base) refs st).1 ≠ Throw (EvictorOrderViolated D S d s).
Proof.
  induction refs as [|r refs IH]; intros st lastEnd Hwf Hle Hfw D S d s; [done|].
  destruct Hfw as (Hv & Hstart & Hrest).
  rewrite ForEach_cons.
  pose proof (ProcessChunk_eq ld flat base r st) as Heq. cbn zeta in Heq.
  assert (Hstep : ∃ ev1,
             (if bool_decide (ColumnsDump (QuantizedPool ld) = [])
              then Push r (Evictor st) else (Ok (), Evictor st)) = (Ok (), ev1) ∧
             EvictorWf ev1 ∧ Data_ ev1 + Size_ ev1 <= RefData r + RefSize r).
  { case_bool_decide.
    - destruct (Push_end r (Evictor st) Hwf Hv ltac:(lia)) as (Hok & Hwf' & Hend).
      destruct (Push r (Evictor st)) as [res ev1]. simpl in *. subst res.
      exists ev1. split; [done|]. split; [done | lia].
    - exists (Evictor st). split; [done|]. split; [done|].
      destruct Hv as (? & ? & ?). lia. }
  destruct Hstep as (ev1 & Hpush & Hwf1 & Hend1). rewrite Hpush in Heq.
  cbn [fst snd] in Heq.
  pose proof (MaybeEvict_wf MadviseEvictThrows false ev1 Hwf1) as Hwf2.
  destruct (MaybeEvict_range MadviseEvictThrows false ev1) as (HD & HS & _).
  destruct (ProcessChunk ld flat base r st) as [[[]|e|u] st1]; cbn [fst snd].
  - injection Heq as _ ->. apply (IH _ (RefData r + RefSize r)); cbn [Evictor]; try done.
    lia.
  - injection Heq as Hd _.
    destruct (DispatchChunk ld flat base r) as [es|e'|] eqn:HDis;
      cbn [mbind Res_bind] in Hd; try done. injection Hd as ->.
    destruct (DispatchChunk_throw _ _ _ _ _ HDis) as [(ty & _ & -> & _)|[_ ->]]; done.
  - done.
Qed.

Lemma GatherAndSortChunks_Sorted pool refs :
  GatherAndSortChunks pool = Ok refs → Sorted AddressLe refs.
Proof.
  unfold GatherAndSortChunks.
  destruct (GatherColumns _ _); cbn [mbind Res_bind]; [|done..].
  destruct (GatherFake _ _); cbn [mbind Res_bind]; [|done..].
  intros [= <-]. apply Sort_Sorted.
Qed.

(** X11. Sorting the chunks by address is what makes the evictor's check
    pass: when the gathered chunks have non-empty byte ranges inside the
    address space, no two of which overlap, the loop of [Do] never ends
    with the evictor's ordering exception, in either mode. *)
Theorem StreamM_order_holds `{TCollaborators} (ld : TCBQuantizedDataLoader)
    (refs : list TChunkRef) :
  GatherAndSortChunks (QuantizedPool ld) = Ok refs →
  Forall NonEmptyRange refs →
  PairwiseDisjoint refs →
  Forward 0 refs ∧
  ∀ trace D S d s,
    (StreamM ld (mkDoState DoEvictor trace)).1 ≠ Throw (EvictorOrderViolated D S d s).
Proof.
  intros HG Hne Hdis.
  assert (Hfw : Forward 0 refs).
  { apply sorted_disjoint_Forward; try done.
    - apply Sorted_StronglySorted.
      + intros a b c. unfold AddressLe. lia.
      + by apply (GatherAndSortChunks_Sorted (QuantizedPool ld)).
    - eapply Forall_impl; [exact Hne|]. by intros c [(? & _) _]. }
  split; [exact Hfw|].
  intros trace D S d s. unfold StreamM, mbind, M_bind, Emit, LiftRes.
  cbn [fst snd Evictor Trace]. rewrite HG. cbn [fst snd].
  apply (ForEach_no_violation ld _ _ refs _ 0); cbn [Evictor]; try done.
Qed.

Lemma StreamM_order_holds_witness :
  Forward 0 (Sort ChunkLess
               [mkChunkRef (ExChunk 1000 2 0 8) 0 0; mkChunkRef (ExChunk 1030 1 2 8) 0 0;
                mkChunkRef (ExChunk 1010 12 0 32) 1 1; ExCategRef;
                mkChunkRef (ExChunk 1050 5 0 8) 0 3]).
Proof.
  apply (@StreamM_order_holds (ExCollaborators ExPool) ExLoader
           (Sort ChunkLess
              [mkChunkRef (ExChunk 1000 2 0 8) 0 0; mkChunkRef (ExChunk 1030 1 2 8) 0 0;
               mkChunkRef (ExChunk 1010 12 0 32) 1 1; ExCategRef;
               mkChunkRef (ExChunk 1050 5 0 8) 0 3])).
  - vm_compute. reflexivity.
  - apply (bool_decide_unpack _). vm_compute. exact I.
  - apply (bool_decide_unpack _). vm_compute. exact I.
Defined.

Lemma filter_system_id (t : list Event) :
  Forall (λ e, IsSystemEvent e = true) t →
  filter (λ e, IsSystemEvent e = true) t = t.
Proof.
  induction 1 as [|e t He _ IH]; [done|]. by rewrite filter_cons_True, IH.
Qed.

Lemma ForEach_calls `{TCollaborators} ld flat base refs : ∀ st,
  ColumnsDump (QuantizedPool ld) = [] →
  (ForEach (ProcessChunk ld flat base) refs st).1 = Ok () →
  ∃ t,
    RunCalls MadviseEvictThrows (LoopCalls refs) (Evictor st) =
      (Ok (), Evictor (ForEach (ProcessChunk ld flat base) refs st).2, t) ∧
    filter (λ e, IsSystemEvent e = true)
      (Trace (ForEach (ProcessChunk ld flat base) refs st).2) =
    filter (λ e, IsSystemEvent e = true) (Trace st) ++ t.
Proof.
  induction refs as [|r refs IH]; intros st Hmapped.
  - intros _. exists []. by rewrite app_nil_r.
  - rewrite ForEach_cons.
    pose proof (ProcessChunk_eq ld flat base r st) as Heq. cbn zeta in Heq.
    rewrite bool_decide_eq_true_2 in Heq by done.
    destruct (ProcessChunk ld flat base r st) as [[[]| |] st1]; cbn [fst snd]; [|done..].
    intros Hrest. destruct (IH st1 Hmapped Hrest) as (t & Hrun & Htr).
    unfold LoopCalls. rewrite bind_cons. cbn [app RunCalls]. fold (LoopCalls refs).
    destruct (Push r (Evictor st)) as [[[]| |] ev1]; cbn [fst snd] in Heq; [|done..].
    pose proof (MaybeEvict_system false ev1) as Hsys.
    destruct (MaybeEvict MadviseEvictThrows false ev1) as [t1 ev2].
    cbn [fst snd] in Heq, Hsys. injection Heq as _ ->. cbn [Evictor Trace] in *.
    rewrite Hrun. exists (t1 ++ t). split; [done|].
    rewrite Htr, !filter_app.
    rewrite (filter_system_calls ld _ flat base r eq_refl).
    rewrite (filter_system_id t1 Hsys). by rewrite app_nil_l, app_assoc.
Qed.

Lemma DoM_system `{TCollaborators} ld st :
  (StreamM ld st).1 = Ok () →
  filter (λ e, IsSystemEvent e = true) (Trace (DoM ld st).2) =
    filter (λ e, IsSystemEvent e = true) (Trace (StreamM ld st).2) ++
    (MaybeEvict MadviseEvictThrows true (Evictor (StreamM ld st).2)).1.
Proof.
  intros Hok. unfold DoM, mbind, M_bind, EvictorMaybeEvict, LiftRes, Emit.
  destruct (StreamM ld st) as [res st1]. cbn [fst snd] in *. subst res.
  pose proof (MaybeEvict_system true (Evictor st1)) as Hsys.
  destruct (MaybeEvict MadviseEvictThrows true (Evictor st1)) as [adv ev1].
  cbn [fst snd Trace Evictor] in *.
  destruct (SetGroupWeights _ _) as [w| |]; cbn [fst snd Trace].
  2,3: by rewrite filter_app, (filter_system_id adv Hsys).
  destruct (SetPairs _ _) as [p| |]; cbn [fst snd Trace].
  2,3: rewrite !filter_app, (filter_system_id adv Hsys);
       rewrite (filter_system_option EvSetGroupWeights) by done;
       by rewrite ?app_nil_r.
  destruct (SetBaseline _ _ _) as [b| |]; cbn [fst snd Trace];
    rewrite !filter_app, (filter_system_id adv Hsys);
    rewrite (filter_system_option EvSetGroupWeights) by done;
    rewrite (filter_system_option EvSetPairs) by done;
    rewrite ?(filter_system_option EvSetBaseline) by done;
    by rewrite ?app_nil_r.
Qed.

(** X12. In mapped-file mode, when the loop of [Do] completes, the use [Do]
    makes of its evictor is exactly the run of a push and
    [MaybeEvict(false)] for every gathered chunk, skipped or not, in
    gathered order, followed by [MaybeEvict(true)], from a fresh evictor:
    that run does not fail, and its advisories are the advisories in the
    trace of [Do], in the same order. *)
Theorem Do_evictor_calls `{TCollaborators} (ld : TCBQuantizedDataLoader) :
  ColumnsDump (QuantizedPool ld) = [] →
  (StreamM ld (mkDoState DoEvictor [])).1 = Ok () →
  ∃ refs,
    GatherAndSortChunks (QuantizedPool ld) = Ok refs ∧
    (RunCalls MadviseEvictThrows (DoCalls refs) DoEvictor).1.1 = Ok () ∧
    filter (λ e, IsSystemEvent e = true) (Do ld).2 =
      (RunCalls MadviseEvictThrows (DoCalls refs) DoEvictor).2.
Proof.
  intros Hmapped Hok.
  destruct (Do_fst_snd ld) as [_ ->]. rewrite (DoM_system ld _ Hok).
  unfold StreamM, mbind, M_bind, Emit, LiftRes in *. cbn [fst snd Evictor Trace app] in *.
  destruct (GatherAndSortChunks (QuantizedPool ld)) as [refs| |]; cbn [fst snd] in *;
    [|done..].
  exists refs. split; [done|].
  destruct (ForEach_calls ld _ _ refs _ Hmapped Hok) as (t & Hrun & Htr).
  cbn [Evictor Trace] in Hrun, Htr.
  unfold DoCalls. rewrite (RunCalls_app _ _ _ _ _ _ Hrun). cbn [RunCalls fst snd].
  rewrite Htr. rewrite filter_cons_False, filter_nil by done.
  destruct (MaybeEvict MadviseEvictThrows true _) as [adv ev2]. cbn [fst snd app].
  by rewrite app_nil_r.
Qed.

Lemma Do_evictor_calls_witness :
  ∃ refs,
    GatherAndSortChunks ExPool = Ok refs ∧
    (RunCalls NeverThrows (DoCalls refs) DoEvictor).1.1 = Ok () ∧
    filter (λ e, IsSystemEvent e = true)
      (@Do (ExCollaborators ExPool)
         (mkLoader 3 ExPool NoPath NoPath NoPath Ordered (mkMetaInfo 2 []) [false; true])).2
    = (RunCalls NeverThrows (DoCalls refs) DoEvictor).2.
Proof.
  apply (@Do_evictor_calls (ExCollaborators ExPool)
    (mkLoader 3 ExPool NoPath NoPath NoPath Ordered (mkMetaInfo 2 []) [false; true])).
  - reflexivity.
  - vm_compute. reflexivity.
Defined.

(** ** The order of the constructor's checks *)

(** X13. A failure to load the pool leaves the constructor as it is.  With
    the pool loaded and its document count in range, the checks are made in
    a fixed order and the first that fails decides the exception: the pairs
    path, then the group-weights path, then the baseline path, then the
    feature count of the meta information (computed with the two flags
    "group weights configured" and "pairs configured", in that order).  Only
    a configured path can fail its check. *)
Theorem Construct_check_order `{TCollaborators} (args : TDatasetLoaderPullArgs) :
  (∀ e, LoadQuantizedPool (PoolPath args) = Throw e → Construct args = Throw e) ∧
  (∀ pool,
     LoadQuantizedPool (PoolPath args) = Ok pool →
     0 < DocumentCount pool <= MaxUi32 →
     (Missing (PairsFilePath args) → Construct args = Throw PairsFilePathDoesNotExist) ∧
     (¬ Missing (PairsFilePath args) → Missing (GroupWeightsFilePath args) →
      Construct args = Throw GroupWeightsFilePathDoesNotExist) ∧
     (¬ Missing (PairsFilePath args) → ¬ Missing (GroupWeightsFilePath args) →
      Missing (BaselineFilePath args) →
      Construct args = Throw BaselineFilePathDoesNotExist) ∧
     (¬ Missing (PairsFilePath args) → ¬ Missing (GroupWeightsFilePath args) →
      ¬ Missing (BaselineFilePath args) →
      FeatureCount (GetDataMetaInfo pool (Inited (GroupWeightsFilePath args))
                      (Inited (PairsFilePath args))) <= 0 →
      Construct args = Throw PoolShouldHaveAtLeastOneFactor) ∧
     (Construct args = Throw PairsFilePathDoesNotExist →
      Inited (PairsFilePath args) = true) ∧
     (Construct args = Throw GroupWeightsFilePathDoesNotExist →
      Inited (GroupWeightsFilePath args) = true) ∧
     (Construct args = Throw BaselineFilePathDoesNotExist →
      Inited (BaselineFilePath args) = true)).
Proof.
  split.
  - intros e Hload. unfold Construct. by rewrite Hload.
  - intros pool Hload Hrange. rewrite (Construct_unfold args pool Hload).
    destruct (decide (DocumentCount pool <= 0)) as [?|_]; [lia|].
    destruct (decide (MaxUi32 < DocumentCount pool)) as [?|_]; [lia|].
    assert (Hmask : ∀ l m e, ProcessIgnoredFeaturesList l m = Throw e →
                             e = AllFeaturesIgnored).
    { intros l m e. unfold ProcessIgnoredFeaturesList. case_match; congruence. }
    destruct (decide (Missing (PairsFilePath args))) as [Hp|Hp];
      [by repeat split; try done; intros _; apply Hp|].
    destruct (decide (Missing (GroupWeightsFilePath args))) as [Hg|Hg];
      [by repeat split; try done; intros _; apply Hg|].
    destruct (decide (Missing (BaselineFilePath args))) as [Hb|Hb];
      [by repeat split; try done; intros _; apply Hb|].
    cbn zeta.
    destruct (decide (FeatureCount _ <= 0)) as [Hf|Hf]; [by repeat split|].
    destruct (ProcessIgnoredFeaturesList _ _) as [[? ?]|e|] eqn:HP;
      cbn [mbind Res_bind]; repeat split; try done.
    all: intros [= ->]; by apply Hmask in HP.
Qed.

Lemma Construct_check_order_witness :
  @Construct (ExCollaborators ExPool)
    (mkArgs (mkPath true 1) NoPath (mkPath true 7) (mkPath true 5) Ordered []) =
    Throw GroupWeightsFilePathDoesNotExist.
Proof.
  apply (proj2 (@Construct_check_order (ExCollaborators ExPool)
    (mkArgs (mkPath true 1) NoPath (mkPath true 7) (mkPath true 5) Ordered []))
    ExPool eq_refl).
  - vm_compute. split; congruence.
  - vm_compute. intros [? _]. congruence.
  - vm_compute. split; reflexivity.
Defined.

(** ** The outcome of the gatherer *)

Lemma GatherColumns_outcome chunks entries :
  match GatherColumns chunks entries with
  | Ok refs =>
      Forall (λ l, 0 <= l < Z.of_nat (length chunks)) entries.*2 ∧
      length refs =
        sum_list ((λ l, length (default [] (chunks !! Z.to_nat l))) <$> entries.*2) ∧
      ∀ r, r ∈ refs →
        ∃ c l, (c, l) ∈ entries ∧ ColumnIndex r = wrap32 c ∧ LocalIndex r = wrap32 l ∧
               Description r ∈ default [] (chunks !! Z.to_nat l)
  | Throw _ => False
  | Undefined u =>
      u = IndexOutOfRange ∧
      ¬ Forall (λ l, 0 <= l < Z.of_nat (length chunks)) entries.*2
  end.
Proof.
  induction entries as [|[c l] entries IH]; cbn [GatherColumns].
  - split; [constructor|]. split; [done|]. by intros r Hr%elem_of_nil.
  - rewrite fmap_cons. cbn [snd].
    destruct (At chunks l) as [descs| |u] eqn:Hat; cbn [mbind Res_bind].
    + apply At_Ok in Hat as [Hl Hlk].
      assert (Hrange : 0 <= l < Z.of_nat (length chunks)).
      { apply lookup_lt_Some in Hlk. lia. }
      destruct (GatherColumns chunks entries) as [more| |u]; cbn [mbind Res_bind].
      * destruct IH as (Hall & Hlen & Hmem). split; [by constructor|]. split.
        -- rewrite length_app, length_fmap, fmap_cons, Hlen, Hlk. done.
        -- intros r [Hr|Hr]%elem_of_app.
           ++ apply list_elem_of_fmap in Hr as (d & -> & Hd). exists c, l. cbn.
              rewrite Hlk. split; [apply list_elem_of_here | done].
           ++ destruct (Hmem r Hr) as (c' & l' & ? & ? & ? & ?).
              exists c', l'. split; [by apply list_elem_of_further | done].
      * done.
      * destruct IH as [-> Hnot]. split; [done|]. intros Hall.
        apply Forall_cons in Hall as [_ Hall]. by apply Hnot.
    + unfold At in Hat. by repeat case_match.
    + assert (u = IndexOutOfRange ∧ ¬ 0 <= l < Z.of_nat (length chunks)) as [-> Hnot].
      { unfold At in Hat. case_decide; [|split; [congruence | lia]].
        destruct (chunks !! Z.to_nat l) eqn:Hlk; [done|].
        apply lookup_ge_None in Hlk. split; [congruence | lia]. }
      split; [done|]. intros Hall. apply Forall_cons in Hall as [? _]. by apply Hnot.
Qed.

Lemma GatherFake_outcome chunks fakes :
  match GatherFake chunks fakes with
  | Ok refs =>
      Forall (λ l, 0 <= l < Z.of_nat (length chunks))
        (filter (λ f, f ≠ AbsentIndex) fakes) ∧
      length refs =
        sum_list ((λ l, length (default [] (chunks !! Z.to_nat l)))
                    <$> filter (λ f, f ≠ AbsentIndex) fakes) ∧
      ∀ r, r ∈ refs →
        ColumnIndex r = 0 ∧ LocalIndex r ∈ filter (λ f, f ≠ AbsentIndex) fakes ∧
        Description r ∈ default [] (chunks !! Z.to_nat (LocalIndex r))
  | Throw _ => False
  | Undefined u =>
      u = IndexOutOfRange ∧
      ¬ Forall (λ l, 0 <= l < Z.of_nat (length chunks))
          (filter (λ f, f ≠ AbsentIndex) fakes)
  end.
Proof.
  induction fakes as [|f fakes IH]; cbn [GatherFake].
  - split; [constructor|]. split; [done|]. by intros r Hr%elem_of_nil.
  - destruct (decide (f = AbsentIndex)) as [Hf|Hf].
    { rewrite filter_cons_False by (by intros ?). exact IH. }
    rewrite filter_cons_True by done.
    destruct (At chunks f) as [descs| |u] eqn:Hat; cbn [mbind Res_bind].
    + apply At_Ok in Hat as [Hl Hlk].
      assert (Hrange : 0 <= f < Z.of_nat (length chunks)).
      { apply lookup_lt_Some in Hlk. lia. }
      destruct (GatherFake chunks fakes) as [more| |u]; cbn [mbind Res_bind].
      * destruct IH as (Hall & Hlen & Hmem). split; [by constructor|]. split.
        -- rewrite length_app, length_fmap, fmap_cons, Hlen, Hlk. done.
        -- intros r [Hr|Hr]%elem_of_app.
           ++ apply list_elem_of_fmap in Hr as (d & -> & Hd). cbn.
              rewrite Hlk. split; [done|]. split; [apply list_elem_of_here | done].
           ++ destruct (Hmem r Hr) as (? & ? & ?).
              split; [done|]. split; [by apply list_elem_of_further | done].
      * done.
      * destruct IH as [-> Hnot]. split; [done|]. intros Hall.
        apply Forall_cons in Hall as [_ Hall]. by apply Hnot.
    + unfold At in Hat. by repeat case_match.
    + assert (u = IndexOutOfRange ∧ ¬ 0 <= f < Z.of_nat (length chunks)) as [-> Hnot].
      { unfold At in Hat. case_decide; [|split; [congruence | lia]].
        destruct (chunks !! Z.to_nat f) eqn:Hlk; [done|].
        apply lookup_ge_None in Hlk. split; [congruence | lia]. }
      split; [done|]. intros Hall. apply Forall_cons in Hall as [? _]. by apply Hnot.
Qed.

(** X14. The gatherer never throws.  It returns a sequence exactly when
    every slot it reads (one per column, then each configured pseudo-slot)
    exists in [Chunks]; otherwise it indexes [Chunks] out of range.  The
    sequence has one reference per chunk of each slot read, so an empty pool
    gives the empty sequence; a reference made for a column carries the
    column's index and slot, each cut to 32 bits, and a description of that
    slot; a reference made for a pseudo-slot carries column index 0. *)
Theorem GatherAndSortChunks_outcome (pool : TQuantizedPool) :
  (∀ e, GatherAndSortChunks pool ≠ Throw e) ∧
  (Forall (λ l, 0 <= l < Z.of_nat (length (Chunks pool))) (GatheredSlots pool) →
   ∃ refs, GatherAndSortChunks pool = Ok refs ∧
     length refs = sum_list ((λ l, length (SlotChunks pool l)) <$> GatheredSlots pool)) ∧
  (¬ Forall (λ l, 0 <= l < Z.of_nat (length (Chunks pool))) (GatheredSlots pool) →
   GatherAndSortChunks pool = Undefined IndexOutOfRange) ∧
  (∀ refs r,
     GatherAndSortChunks pool = Ok refs → r ∈ refs →
     (∃ c l, ColumnIndexToLocalIndex pool !! c = Some l ∧
             ColumnIndex r = wrap32 c ∧ LocalIndex r = wrap32 l ∧
             Description r ∈ SlotChunks pool l) ∨
     (ColumnIndex r = 0 ∧ LocalIndex r ∈ ConfiguredFake pool ∧
      Description r ∈ SlotChunks pool (LocalIndex r))).
Proof.
  unfold GatherAndSortChunks, GatheredSlots, RealSlots, ConfiguredFake, SlotChunks.
  pose proof (GatherColumns_outcome (Chunks pool)
                (map_to_list (ColumnIndexToLocalIndex pool))) as HR.
  pose proof (GatherFake_outcome (Chunks pool) (FakeIndices pool)) as HF.
  destruct (GatherColumns _ _) as [real| |u1]; cbn [mbind Res_bind]; [|done|].
  - destruct (GatherFake _ _) as [fake| |u2]; cbn [mbind Res_bind]; [|done|].
    + destruct HR as (HRall & HRlen & HRmem). destruct HF as (HFall & HFlen & HFmem).
      split; [done|]. split; [|split].
      * intros _. eexists. split; [done|].
        rewrite (Sort_Permutation ChunkLess (real ++ fake)).
        rewrite length_app, HRlen, HFlen, fmap_app, sum_list_with_app. done.
      * intros Hnot. exfalso. apply Hnot. by apply Forall_app.
      * intros refs r [= <-] Hr. rewrite Sort_Permutation in Hr.
        apply elem_of_app in Hr as [Hr|Hr].
        -- left. destruct (HRmem r Hr) as (c & l & Hin & ? & ? & ?).
           exists c, l. by apply elem_of_map_to_list in Hin.
        -- right. by apply HFmem.
    + destruct HF as [-> HFnot]. split; [done|]. split; [|split].
      * intros Hall. apply Forall_app in Hall as [_ Hall]. by destruct HFnot.
      * done.
      * done.
  - destruct HR as [-> HRnot]. split; [done|]. split; [|split].
    + intros Hall. apply Forall_app in Hall as [Hall _]. by destruct HRnot.
    + done.
    + done.
Qed.

Lemma GatherAndSortChunks_outcome_witness :
  ∃ refs, GatherAndSortChunks ExPool = Ok refs ∧ length refs = 5%nat.
Proof.
  destruct (proj1 (proj2 (GatherAndSortChunks_outcome ExPool))) as (refs & HG & Hlen).
  - apply (bool_decide_unpack _). vm_compute. exact I.
  - exists refs. split; [exact HG|]. rewrite Hlen. vm_compute. reflexivity.
Defined.

(** ** Indexing inside the vectors *)

Lemma ForEach_undefined `{TCollaborators} ld flat base refs : ∀ st u,
  (ForEach (ProcessChunk ld flat base) refs st).1 = Undefined u →
  ∃ r, r ∈ refs ∧ DispatchChunk ld flat base r = Undefined u.
Proof.
  induction refs as [|r refs IH]; intros st u; [done|].
  rewrite ForEach_cons.
  pose proof (ProcessChunk_eq ld flat base r st) as Heq. cbn zeta in Heq.
  destruct (ProcessChunk ld flat base r st) as [[[]| |u'] st1] eqn:HP; cbn [fst snd].
  - intros Hrest. destruct (IH st1 u Hrest) as (r' & Hr' & Hd).
    exists r'. split; [by apply list_elem_of_further | done].
  - done.
  - intros [= ->]. exists r. split; [apply list_elem_of_here|].
    case_bool_decide.
    + unfold Push in Heq. destruct (_ <=? _); cbn [fst snd] in Heq; [|done].
      destruct (DispatchChunk ld flat base r); cbn [mbind Res_bind] in Heq; congruence.
    + cbn [fst snd] in Heq.
      destruct (DispatchChunk ld flat base r); cbn [mbind Res_bind] in Heq; congruence.
Qed.

Lemma GatherAndSortChunks_in_range (pool : TQuantizedPool) :
  Forall (λ l, 0 <= l < Z.of_nat (length (Chunks pool))) (GatheredSlots pool) →
  ∃ refs, GatherAndSortChunks pool = Ok refs.
Proof.
  unfold GatherAndSortChunks, GatheredSlots, RealSlots, ConfiguredFake.
  intros [HRall HFall]%Forall_app.
  pose proof (GatherColumns_outcome (Chunks pool)
                (map_to_list (ColumnIndexToLocalIndex pool))) as HR.
  pose proof (GatherFake_outcome (Chunks pool) (FakeIndices pool)) as HF.
  destruct (GatherColumns _ _) as [real| |u1]; cbn [mbind Res_bind]; [|done|].
  - destruct (GatherFake _ _) as [fake| |u2]; cbn [mbind Res_bind]; [|done|].
    + by eexists.
    + by destruct HF as [_ []].
  - by destruct HR as [_ []].
Qed.

Lemma DispatchChunk_undefined ld flat base r u :
  DispatchChunk ld flat base r = Undefined u →
  IsStringColumn (QuantizedPool ld) (LocalIndex r) = false ∧
  (At (ColumnTypes (QuantizedPool ld)) (LocalIndex r) = Undefined u ∨
   (∃ f, flat !! ColumnIndex r = Some f ∧ At (IsFeatureIgnored ld) f = Undefined u) ∨
   (∃ columnType,
      At (ColumnTypes (QuantizedPool ld)) (LocalIndex r) = Ok columnType ∧
      AddChunk (Description r) columnType (flat !! ColumnIndex r)
        (base !! ColumnIndex r) = Undefined u)).
Proof.
  unfold DispatchChunk.
  destruct (IsStringColumn _ _); [done|]. intros HD. split; [done|].
  destruct (At (ColumnTypes _) _) as [columnType| |u'];
    cbn [mbind Res_bind] in HD; [|done|left; congruence].
  case_bool_decide; [done|].
  destruct (Ensure _ _) as [[]| |u'] eqn:HE; cbn [mbind Res_bind] in HD; [|done|].
  2: { unfold Ensure in HE. by case_match. }
  destruct (flat !! ColumnIndex r) as [f|] eqn:Hflat.
  - destruct (At (IsFeatureIgnored ld) f) as [[|]| |u'] eqn:Hm;
      cbn [mbind Res_bind] in HD; try done.
    + right; right. by exists columnType.
    + right; left. exists f. split; [done | congruence].
  - cbn [mbind Res_bind] in HD. right; right. by exists columnType.
Qed.

(** X15. When every index the loop uses is inside its vector, every [Num]
    column has a flat feature index, every [Baseline] column a baseline
    index, all column and slot indices fit 32 bits and the pseudo-slots are
    flagged, the loop of [Do] has no undefined behaviour: it never indexes a
    vector out of range and never reads a null pointer. *)
Theorem StreamM_defined `{TCollaborators} (ld : TCBQuantizedDataLoader) (st : TDoState) :
  IndicesInRange ld →
  ColumnsIndexed (QuantizedPool ld)
    (GetColumnIndexToFlatIndexMap (QuantizedPool ld))
    (GetColumnIndexToBaselineIndexMap (QuantizedPool ld)) →
  ∀ u, (StreamM ld st).1 ≠ Undefined u.
Proof.
  intros (Hchunks & Htypes & Hmask) [Hcols Hfake] u.
  unfold StreamM, mbind, M_bind, Emit, LiftRes. cbn [fst snd Evictor Trace].
  destruct (GatherAndSortChunks_in_range _ Hchunks) as (refs & HG). rewrite HG. cbn [fst snd].
  intros HF. destruct (ForEach_undefined _ _ _ _ _ _ HF) as (r & Hr & HD).
  destruct (DispatchChunk_undefined _ _ _ _ _ HD) as [Hstr Hcases].
  assert (Hreal : ∃ c l, ColumnIndexToLocalIndex (QuantizedPool ld) !! c = Some l ∧
                         ColumnIndex r = c ∧ LocalIndex r = l).
  { destruct (GatherAndSortChunks_origin _ _ _ HG Hr)
      as [(c & l & Hcl & Hc & Hl)|(_ & Hin & Habsent)].
    - destruct (Hcols c l Hcl) as ((Hc32 & Hl32) & _).
      rewrite wrap32_small in Hc, Hl by done. by exists c, l.
    - exfalso. destruct Hfake as [Hhas|Hnone].
      + by rewrite (IsStringColumn_fake _ _ Hhas Hin) in Hstr.
      + assert (Hcf : LocalIndex r ∈ ConfiguredFake (QuantizedPool ld)).
        { unfold ConfiguredFake. by apply list_elem_of_filter. }
        rewrite Hnone in Hcf. by apply elem_of_nil in Hcf. }
  destruct Hreal as (c & l & Hcl & Hc & Hl).
  destruct (Hcols c l Hcl) as (_ & Hnum & Hbase).
  assert (Hl' : 0 <= l < Z.of_nat (length (ColumnTypes (QuantizedPool ld)))).
  { rewrite Forall_forall in Htypes. apply Htypes. unfold RealSlots.
    apply list_elem_of_fmap. exists (c, l). split; [done|].
    by apply elem_of_map_to_list. }
  destruct Hcases as [Hty|[(f & Hflat & Hm)|(columnType & Hty & HA)]].
  - rewrite Hl in Hty. destruct (At_in_range _ l Hl') as (ty & Hat & _). congruence.
  - specialize (Hmask _ _ Hflat). cbn in Hmask.
    destruct (At_in_range (IsFeatureIgnored ld) f Hmask) as (b & Hat & _). congruence.
  - rewrite Hl in Hty. apply At_Ok in Hty as [_ Hty]. rewrite Hc in HA.
    revert HA. apply AddChunk_no_null; intros ->; auto.
Qed.

Lemma StreamM_defined_witness :
  (@StreamM (ExCollaborators ExPool) ExLoader (mkDoState DoEvictor [])).1
    ≠ Undefined IndexOutOfRange ∧
  (@StreamM (ExCollaborators ExPool) ExLoader (mkDoState DoEvictor [])).1
    ≠ Undefined NullDereference.
Proof.
  split; apply (@StreamM_defined (ExCollaborators ExPool));
    apply (bool_decide_unpack _); vm_compute; exact I.
Defined.

(** ** Advisories that fail *)

Lemma WithoutLog_app t1 t2 : WithoutLog (t1 ++ t2) = WithoutLog t1 ++ WithoutLog t2.
Proof. apply filter_app. Qed.

Lemma MaybeEvict_any_failure throws1 throws2 force ev :
  (MaybeEvict throws1 force ev).2 = (MaybeEvict throws2 force ev).2 ∧
  WithoutLog (MaybeEvict throws1 force ev).1 = WithoutLog (MaybeEvict throws2 force ev).1.
Proof.
  unfold MaybeEvict, Advise. destruct (_ || _); [done|]. cbn [fst snd].
  split; [done|]. by destruct (throws1 _ _), (throws2 _ _).
Qed.

Lemma ProcessChunk_any_failure (H1 H2 : TCollaborators) ld flat base r st1 st2 :
  SameButLog st1 st2 →
  (@ProcessChunk H1 ld flat base r st1).1 = (@ProcessChunk H2 ld flat base r st2).1 ∧
  SameButLog (@ProcessChunk H1 ld flat base r st1).2
             (@ProcessChunk H2 ld flat base r st2).2.
Proof.
  intros [Hev Htr]. rewrite (@ProcessChunk_eq H1), (@ProcessChunk_eq H2).
  cbn zeta. rewrite Hev.
  destruct (if bool_decide _ then _ else _) as [[[]| |] ev1]; cbn [fst snd]; [|done..].
  destruct (MaybeEvict_any_failure (@MadviseEvictThrows H1) (@MadviseEvictThrows H2)
              false ev1) as [Hm2 Hm1].
  split; [done|]. split; cbn [Evictor Trace]; [done|].
  by rewrite !WithoutLog_app, Htr, Hm1.
Qed.

Lemma ForEach_any_failure (H1 H2 : TCollaborators) ld flat base refs : ∀ st1 st2,
  SameButLog st1 st2 →
  (ForEach (@ProcessChunk H1 ld flat base) refs st1).1 =
    (ForEach (@ProcessChunk H2 ld flat base) refs st2).1 ∧
  SameButLog (ForEach (@ProcessChunk H1 ld flat base) refs st1).2
             (ForEach (@ProcessChunk H2 ld flat base) refs st2).2.
Proof.
  induction refs as [|r refs IH]; intros st1 st2 Hsame; [done|].
  rewrite !ForEach_cons.
  destruct (ProcessChunk_any_failure H1 H2 ld flat base r st1 st2 Hsame) as [Hres Hst].
  destruct (@ProcessChunk H1 ld flat base r st1) as [res1 st1'].
  destruct (@ProcessChunk H2 ld flat base r st2) as [res2 st2'].
  cbn [fst snd] in *. subst res2. destruct res1 as [[]| |]; [by apply IH|done..].
Qed.

(** X16. A failure of the advisory is never seen by the caller of [Do]:
    whatever advisories fail, [Do] has the same outcome, and its trace is
    the same but for the debug log lines, so the visitor receives the same
    calls and the same advisories are issued, in the same order. *)
Theorem Do_advisory_failures (collaborators : TCollaborators)
    (throws : Z → Z → bool) (ld : TCBQuantizedDataLoader) :
  (@Do (WithMadvise collaborators throws) ld).1 = (@Do collaborators ld).1 ∧
  WithoutLog (@Do (WithMadvise collaborators throws) ld).2 =
    WithoutLog (@Do collaborators ld).2.
Proof.
  set (H1 := WithMadvise collaborators throws).
  assert (Hstream : ∀ st,
    (@StreamM H1 ld st).1 = (@StreamM collaborators ld st).1 ∧
    SameButLog (@StreamM H1 ld st).2 (@StreamM collaborators ld st).2).
  { intros st. unfold StreamM, mbind, M_bind, Emit, LiftRes.
    cbn [fst snd H1 WithMadvise GetColumnIndexToFlatIndexMap
         GetColumnIndexToBaselineIndexMap].
    destruct (GatherAndSortChunks (QuantizedPool ld)) as [refs| |]; [|done..].
    by apply ForEach_any_failure. }
  unfold Do. specialize (Hstream (mkDoState DoEvictor [])).
  unfold DoM, mbind, M_bind, EvictorMaybeEvict, LiftRes, Emit.
  destruct (@StreamM H1 ld _) as [res1 st1].
  destruct (@StreamM collaborators ld _) as [res2 st2].
  cbn [fst snd] in Hstream. destruct Hstream as [<- [Hev Htr]].
  destruct res1 as [[]| |]; [|done..].
  destruct (MaybeEvict_any_failure (@MadviseEvictThrows H1)
              (@MadviseEvictThrows collaborators) true (Evictor st1)) as [Hm2 Hm1].
  rewrite <- Hev.
  destruct (MaybeEvict (@MadviseEvictThrows H1) true (Evictor st1)) as [t1 ev1].
  destruct (MaybeEvict (@MadviseEvictThrows collaborators) true (Evictor st1))
    as [t2 ev2].
  cbn [fst snd] in Hm1, Hm2. cbn [fst snd Trace Evictor H1 WithMadvise
    SetGroupWeights SetPairs SetBaseline].
  destruct (SetGroupWeights _ _) as [w| |]; cbn [fst snd Trace].
  2,3: by rewrite !WithoutLog_app, Htr, Hm1.
  destruct (SetPairs _ _) as [p| |]; cbn [fst snd Trace].
  2,3: by rewrite !WithoutLog_app, Htr, Hm1.
  destruct (SetBaseline _ _ _) as [b| |]; cbn [fst snd Trace];
    by rewrite !WithoutLog_app, Htr, Hm1.
Qed.

(** ** Successive advisories *)

Lemma Push_frontier chunk ev :
  EvictorWf ev → ValidRange chunk → Data_ ev + Size_ ev <= RefData chunk →
  Frontier ev <= Frontier (Push chunk ev).2.
Proof.
  intros Hwf (Hd & Hs & He) Hle.
  pose proof (VisitedEnd_wf ev Hwf) as Hend. unfold VisitedEnd in Hend.
  destruct Hwf as (Hd' & Hs' & He').
  unfold Push, Frontier. rewrite Hend.
  destruct (Z.leb_spec (Data_ ev + Size_ ev) (RefData chunk)); [|lia].
  destruct (Z.eqb_spec (Data_ ev) 0); cbn.
  - destruct (Evicted_ ev); lia.
  - destruct (Evicted_ ev); cbn; lia.
Qed.

Lemma RunCalls_successive throws calls : ∀ ev lastEnd,
  EvictorWf ev → Data_ ev + Size_ ev <= lastEnd →
  Forward lastEnd (PushedChunks calls) →
  Forall (λ range, Frontier ev <= range.1 ∧ 0 <= range.2)
    (AdvisedRanges (RunCalls throws calls ev).2) ∧
  SuccessiveRanges (AdvisedRanges (RunCalls throws calls ev).2).
Proof.
  induction calls as [|[chunk|force] calls IH]; intros ev lastEnd Hwf Hle Hfw.
  - split; [constructor | done].
  - cbn [PushedChunks omap list_omap] in Hfw. destruct Hfw as (Hv & Hstart & Hrest).
    destruct (Push_end chunk ev Hwf Hv ltac:(lia)) as (Hok & Hwf' & Hend).
    pose proof (Push_frontier chunk ev Hwf Hv ltac:(lia)) as Hfr.
    cbn [RunCalls]. destruct (Push chunk ev) as [r ev'] eqn:HP.
    cbn [fst snd] in Hok, Hwf', Hend, Hfr. subst r.
    specialize (IH ev' (RefData chunk + RefSize chunk) Hwf' ltac:(lia) Hrest).
    destruct (RunCalls throws calls ev') as [[r ev''] t]. cbn [fst snd] in *.
    destruct IH as [Hall Hsucc]. split; [|done].
    eapply Forall_impl; [exact Hall|]. intros range. cbn beta. lia.
  - cbn [PushedChunks omap list_omap] in Hfw. cbn [RunCalls].
    unfold MaybeEvict, Advise.
    destruct (Evicted_ ev || negb force && (Size_ ev <? MinSizeInBytesToEvict_ ev))
      eqn:Hcond.
    + specialize (IH ev lastEnd Hwf Hle Hfw).
      destruct (RunCalls throws calls ev) as [[r ev''] t]. done.
    + assert (Hflag : Evicted_ ev = false) by by destruct (Evicted_ ev).
      assert (Hwf' : EvictorWf (Flagged ev)) by done.
      specialize (IH (Flagged ev) lastEnd Hwf' Hle Hfw).
      destruct (RunCalls throws calls (Flagged ev)) as [[r ev''] t].
      cbn [fst snd] in *. destruct IH as [Hall Hsucc].
      unfold Frontier in Hall |- *. cbn [Flagged Evicted_ Data_ Size_] in Hall.
      rewrite Hflag. destruct Hwf as (Hd & Hs & He).
      assert (Hadv : AdvisedRanges
                ((EvMadviseEvict (Data_ ev) (Size_ ev)
                  :: (if throws (Data_ ev) (Size_ ev)
                      then [EvDebugLog (Data_ ev) (Size_ ev)] else [])) ++ t) =
              (Data_ ev, Size_ ev) :: AdvisedRanges t).
      { unfold AdvisedRanges. by destruct (throws _ _). }
      rewrite Hadv. split.
      * constructor; [cbn; lia|].
        eapply Forall_impl; [exact Hall|]. intros range. cbn beta. lia.
      * split; [|done].
        eapply Forall_impl; [exact Hall|]. intros range. cbn. lia.
Qed.

(** X17. The evictor never advises the same bytes twice: in a run of pushes
    in ascending, non-overlapping order, with any calls of [MaybeEvict] in
    between, the ranges handed to [MadviseEvict] are successive, each
    starting at or after the end of every one advised before it, and none
    starts below address 0 or has a negative size. *)
Theorem Evictor_advises_once (throws : Z → Z → bool) (minSize : Z)
    (calls : list TEvictorCall) :
  Forward 0 (PushedChunks calls) →
  SuccessiveRanges (AdvisedRanges (RunCalls throws calls (NewEvictor minSize)).2) ∧
  Forall (λ range, 0 <= range.1 ∧ 0 <= range.2)
    (AdvisedRanges (RunCalls throws calls (NewEvictor minSize)).2).
Proof.
  intros Hfw.
  destruct (RunCalls_successive throws calls (NewEvictor minSize) 0
              (NewEvictor_wf minSize) ltac:(simpl; lia) Hfw) as [Hall Hsucc].
  split; [done|]. eapply Forall_impl; [exact Hall|]. intros range. by cbn.
Qed.

Lemma Evictor_advises_once_witness :
  SuccessiveRanges [(4096, 2 ^ 24); (4096 + 2 ^ 24, 108)].
Proof.
  apply (Evictor_advises_once NeverThrows (2 ^ 24)
           [CallPush (ExRef 4096 (2 ^ 24)); CallMaybeEvict false;
            CallPush (ExRef (4096 + 2 ^ 24 + 100) 8); CallMaybeEvict true]).
  vm_compute. repeat split; congruence.
Defined.
